(** * Compression lab kernels: a shallow embedding and its properties

    The development follows the three CUDA codecs of the compression lab:
    the hash-chain LZ77 coder (lz77_parallel.cu), the E8 lattice quantizer
    (e8_lattice.cu) and the range coder (arithmetic_coding.cu), together
    with the result helpers of common.cuh.

    Conventions.
    - Device and host arrays are lists; [l !! i] reads, [<[i:=x]> l] writes.
    - C integers are [Z]; every conversion into a fixed-width type that the
      source performs is written with [u32], [u64] or [to_int].
    - A kernel is embedded through what each thread does; a launch is a
      fold over the threads (or over the atomic operations) in the order of
      a schedule, which the theorems quantify over where the claim is about
      order independence.
    - Input bytes are [Byte.byte]; [byteZ] is the value of an
      [unsigned char]. *)

From Stdlib Require Import ZArith Lia Bool QArith Sorted.
From Stdlib Require Import Strings.Byte.
From stdpp Require Import base list numbers option.

Local Open Scope Z_scope.

(** ** Machine integers and array reads *)

Module Machine.

Definition u32 (x : Z) : Z := x mod 2 ^ 32.
Definition u64 (x : Z) : Z := x mod 2 ^ 64.

(** Conversion to a 32-bit [int] (two's complement). *)
Definition to_int (x : Z) : Z := (x + 2 ^ 31) mod 2 ^ 32 - 2 ^ 31.

Definition INT_MAX : Z := 2 ^ 31 - 1.

Definition byteZ (b : byte) : Z := Z.of_N (Byte.to_N b).

(** [input[i]] for an index the code keeps in bounds. *)
Definition byte_at (input : list byte) (i : Z) : Z :=
  match input !! Z.to_nat i with
  | Some b => byteZ b
  | None => 0
  end.

(** [a[i]] on an [int] or [unsigned] array. *)
Definition rd (a : list Z) (i : Z) : Z := default 0 (a !! Z.to_nat i).

(** [a[i] = v]. *)
Definition wr (a : list Z) (i : Z) (v : Z) : list Z := <[Z.to_nat i := v]> a.

End Machine.

Import Machine.

(** ** Host side: destination buffer and result record (common.cuh) *)

Module Host.

(** The caller's destination: the bytes of [h_output], the value of
    [*outputSize], and the log of the ranges [(offset, count)] that the call
    has copied into [h_output]. On entry [*outputSize] is the capacity. *)
Record Dest := mkDest { h_output : list byte; outputSize : Z; copied : list (Z * Z) }.

(** [memcpy(h_output + off, src, n)]. A copy that runs past the end of the
    destination shows as a longer [h_output]. *)
Definition memcpy (d : Dest) (off : Z) (src : list byte) (n : Z) : Dest :=
  {| h_output := take (Z.to_nat off) (h_output d) ++ take (Z.to_nat n) src
                 ++ drop (Z.to_nat (off + n)) (h_output d);
     outputSize := outputSize d;
     copied := copied d ++ [(off, n)] |}.

(** [*outputSize = n]. *)
Definition setOutputSize (d : Dest) (n : Z) : Dest :=
  {| h_output := h_output d; outputSize := n; copied := copied d |}.

(** The integer fields of [CompressionResult]. [timeMs], [throughputGBps]
    and [ratio] are floats derived from them and from the timer, and they are
    all that [finalizeResult] writes. *)
Record CompressionResult := mkResult { originalSize : Z; compressedSize : Z; errorCode : Z }.

Definition initResult (originalSize : Z) : CompressionResult :=
  {| originalSize := originalSize; compressedSize := 0; errorCode := 0 |}.

Definition setCompressedSize (r : CompressionResult) (n : Z) : CompressionResult :=
  {| originalSize := originalSize r; compressedSize := n; errorCode := errorCode r |}.

Definition toByte (z : Z) : byte :=
  default "000"%byte (Byte.of_N (Z.to_N (z mod 256))).

(** The bytes of a 32-bit word and of a [size_t] in device and host memory
    (little endian). *)
Definition wordBytes (w : Z) : list byte :=
  map (fun k => toByte (Z.shiftr w (8 * k))) [0; 1; 2; 3].

Definition sizeBytes (w : Z) : list byte :=
  map (fun k => toByte (Z.shiftr w (8 * k))) [0; 1; 2; 3; 4; 5; 6; 7].

End Host.

Import Host.

(** ** LZ77: hash chains, match finder, token encoder (lz77_parallel.cu) *)

Module LZ77.

Definition WINDOW_SIZE : Z := 32768.
Definition MIN_MATCH : Z := 3.
Definition MAX_MATCH : Z := 258.
Definition HASH_BITS : Z := 15.
Definition HASH_SIZE : Z := Z.shiftl 1 HASH_BITS.

Definition hashFunc (a b c : Z) : Z :=
  Z.land (Z.lxor (Z.lxor (Z.shiftl a 10) (Z.shiftl b 5)) c) (HASH_SIZE - 1).

(** The two arrays of the hash-chain index. *)
Record HashIndex := mkIndex { hashHead : list Z; hashPrev : list Z }.

(** One iteration of the chain-building loop:
    [h = hashFunc(...); hashPrev[i] = hashHead[h]; hashHead[h] = i]. *)
Definition insertPos (input : list byte) (t : HashIndex) (i : nat) : HashIndex :=
  let p := Z.of_nat i in
  let h := hashFunc (byte_at input p) (byte_at input (p + 1)) (byte_at input (p + 2)) in
  {| hashPrev := wr (hashPrev t) p (rd (hashHead t) h);
     hashHead := wr (hashHead t) h (to_int p) |}.

(** The hash of the three bytes at position [j]. *)
Definition hashAt (input : list byte) (j : Z) : Z :=
  hashFunc (byte_at input j) (byte_at input (j + 1)) (byte_at input (j + 2)).

(** What the launch of [buildHashTable] does to the index, one step at a
    time: an iteration of the loop [for (i = 0; i + 2 < size; i++)] of
    thread 0 of block 0, or the store [hashHead[k] = -1] of the thread with
    global index [k]. *)
Inductive HashEvent : Type :=
| Insert (i : nat)
| Reset (k : Z).

Definition applyEvent (input : list byte) (t : HashIndex) (ev : HashEvent) : HashIndex :=
  match ev with
  | Insert i => insertPos input t i
  | Reset k => {| hashHead := wr (hashHead t) k (-1); hashPrev := hashPrev t |}
  end.

Definition insertsOf (evs : list HashEvent) : list nat :=
  omap (fun ev => match ev with Insert i => Some i | Reset _ => None end) evs.

(** The threads of block 0 store their -1 before the barrier that thread 0
    passes on its way to the loop; [__syncthreads] orders nothing between
    blocks, so the stores of the other blocks, to the heads from 256 on, fall
    anywhere. *)
Definition lateReset (ev : HashEvent) : Prop :=
  match ev with
  | Insert _ => True
  | Reset k => 256 <= k < HASH_SIZE
  end.

(** An execution order of the launch on an input of [size] bytes: the loop
    iterations in their order, interleaved with stores of other blocks. *)
Definition hashOrder (size : nat) (evs : list HashEvent) : Prop :=
  insertsOf evs = seq 0 (size - 2) /\ Forall lateReset evs.

(** The order in which every other block is done before the loop starts. *)
Definition loopOrder (size : nat) : list HashEvent := map Insert (seq 0 (size - 2)).

(** [buildHashTable], in the order [evs]. The host has filled [hashHead]
    with 0xFF bytes and block 0 has stored its -1, so every head is -1 when
    the loop starts; [prev0] is the content of the freshly allocated
    [hashPrev] buffer. *)
Definition buildHashTable (input : list byte) (prev0 : list Z) (evs : list HashEvent)
    : HashIndex :=
  foldl (applyEvent input)
        {| hashHead := replicate (Z.to_nat HASH_SIZE) (-1); hashPrev := prev0 |}
        evs.

(** After [n] loop iterations: every head is -1 or a position below [n];
    the back-link of an inserted position is -1 or a smaller position; and
    the head of the chain of an inserted position [j] is [j] or a later
    position, unless a store of another block has put -1 there. *)
Record chainInv (input : list byte) (prev0 : list Z) (n : nat) (t : HashIndex) : Prop := {
  inv_head_len : length (hashHead t) = Z.to_nat HASH_SIZE;
  inv_prev_len : length (hashPrev t) = length prev0;
  inv_head : Forall (fun v => -1 <= v < Z.of_nat n) (hashHead t);
  inv_prev : forall i v, (i < n)%nat -> hashPrev t !! i = Some v -> -1 <= v < Z.of_nat i;
  inv_last : forall j, (j < n)%nat ->
    (256 <= hashAt input (Z.of_nat j) /\ rd (hashHead t) (hashAt input (Z.of_nat j)) = -1)
    \/ Z.of_nat j <= rd (hashHead t) (hashAt input (Z.of_nat j)) }.

(** Inner loop of [findMatches]:
    [while (len < MAX_MATCH && idx + len < size && input[pos+len] == input[idx+len]) len++]. *)
Fixpoint matchRun (fuel : nat) (input : list byte) (size pos idx len : Z) : Z :=
  match fuel with
  | O => len
  | S fuel' =>
      if (len <? MAX_MATCH) && (idx + len <? size)
         && (byte_at input (pos + len) =? byte_at input (idx + len))
      then matchRun fuel' input size pos idx (len + 1)
      else len
  end.

(** Chain walk of [findMatches]:
    [while (pos >= 0 && idx - pos <= WINDOW_SIZE && searchLimit-- > 0)].
    [idx - pos] is computed in [size_t], hence [u64]. The recursion is on
    the remaining [searchLimit]. Returns [(bestOff, bestLen)]. *)
Fixpoint chainWalk (searchLimit : nat) (input : list byte) (prev : list Z)
    (size idx pos bestOff bestLen : Z) : Z * Z :=
  match searchLimit with
  | O => (bestOff, bestLen)
  | S limit' =>
      if (0 <=? pos) && (u64 (idx - pos) <=? WINDOW_SIZE) then
        let len := matchRun (Z.to_nat MAX_MATCH) input size pos idx 0 in
        let better := (MIN_MATCH <=? len) && (bestLen <? len) in
        let bestLen' := if better then len else bestLen in
        let bestOff' := if better then to_int (idx - pos) else bestOff in
        chainWalk limit' input prev size idx (rd prev pos) bestOff' bestLen'
      else (bestOff, bestLen)
  end.

(** What the thread with global index [idx < size] stores in
    [(matchOffset[idx], matchLength[idx])]. *)
Definition findMatchAt (input : list byte) (t : HashIndex) (idx : nat) : Z * Z :=
  let size := Z.of_nat (length input) in
  let i := Z.of_nat idx in
  if size <=? i + 2 then (0, 0)
  else
    let h := hashFunc (byte_at input i) (byte_at input (i + 1)) (byte_at input (i + 2)) in
    chainWalk 64 input (hashPrev t) size i (rd (hashHead t) h) 0 0.

(** [findMatches]: thread [idx] writes slot [idx]; threads with
    [idx >= size] write nothing. Returns [(matchOffset, matchLength)]. *)
Definition findMatches (input : list byte) (t : HashIndex) : list Z * list Z :=
  let r := map (findMatchAt input t) (seq 0 (length input)) in
  (map fst r, map snd r).

(** One iteration of the [encodeTokens] loop at cursor [i]: the word stored
    in [output[outIdx++]] and the advance of the cursor. *)
Definition tokenAt (input : list byte) (matchOffset matchLength : list Z) (i : Z) : Z * Z :=
  let len := rd matchLength i in
  let off := rd matchOffset i in
  if MIN_MATCH <=? len
  then (Z.lor (Z.lor 2147483648 (u32 (Z.shiftl (len - 3) 16))) (u32 off), len)
  else (byte_at input i, 1).

(** A loop iteration as recorded by the embedding: the cursor before it, the
    advance, and the word written. *)
Record Step := mkStep { cursor : Z; advance : Z; word : Z }.

(** [while (i < size) { ... }] of [encodeTokens], with a bound on the number
    of iterations: [None] when the bound is used up before [i >= size]. *)
Fixpoint encodeLoop (fuel : nat) (input : list byte) (matchOffset matchLength : list Z)
    (size i : Z) : option (list Step) :=
  if size <=? i then Some []
  else
    match fuel with
    | O => None
    | S fuel' =>
        let '(w, adv) := tokenAt input matchOffset matchLength i in
        (mkStep i adv w ::.) <$> encodeLoop fuel' input matchOffset matchLength size (u64 (i + adv))
    end.

(** [encodeTokens], run for at most [size] iterations: the words of
    [output[0..outIdx)]; [*outputPos] is their number. *)
Definition encodeSteps (input : list byte) (matchOffset matchLength : list Z) : option (list Step) :=
  encodeLoop (length input) input matchOffset matchLength (Z.of_nat (length input)) 0.

Definition encodeTokens (input : list byte) (matchOffset matchLength : list Z) : option (list Z) :=
  map word <$> encodeSteps input matchOffset matchLength.

(** The device stage of [lz77Compress]: the three kernels in sequence. *)
Definition lz77Tokens (input : list byte) (prev0 : list Z) (evs : list HashEvent)
    : option (list Z) :=
  let t := buildHashTable input prev0 evs in
  let '(mo, ml) := findMatches input t in
  encodeTokens input mo ml.

(** The advance the greedy loop makes at cursor [i]: the match length when
    it is at least [MIN_MATCH], otherwise 1. *)
Definition greedyAdvance (matchLength : list Z) (i : Z) : Z :=
  if MIN_MATCH <=? rd matchLength i then rd matchLength i else 1.

(** Position [p] lies in the span of the token emitted by step [s]. *)
Definition covers (p : Z) (s : Step) : Prop := cursor s <= p < cursor s + advance s.

(** The steps start at cursor [c], each advances, and each starts where the
    one before it stopped. *)
Fixpoint contiguous (c : Z) (steps : list Step) : Prop :=
  match steps with
  | [] => True
  | s :: rest => cursor s = c /\ 0 < advance s /\ contiguous (c + advance s) rest
  end.

(** A match table whose lengths are below 3 or between 3 and 258. *)
Definition validLengths (matchLength : list Z) : Prop :=
  Forall (fun len => len < MIN_MATCH \/ MIN_MATCH <= len <= MAX_MATCH) matchLength.

(** The input of the repetition scenario: ["ABCD"] repeated [n] times. *)
Definition abcd (n : nat) : list byte := concat (replicate n ["A"; "B"; "C"; "D"]%byte).

(** Host tail of [lz77Compress], from [numTokens] on. [d_output] holds the
    token words. *)
Definition lz77Finish (inputSize : Z) (d_output : list Z) (dst : Dest)
    : CompressionResult * Dest :=
  let result := initResult inputSize in
  let numTokens := u32 (Z.of_nat (length d_output)) in
  let compressedBytes := u64 (numTokens * 4) in
  let dst1 :=
    if compressedBytes <=? outputSize dst
    then memcpy dst 0 (concat (map wordBytes d_output)) compressedBytes
    else dst in
  (setCompressedSize result compressedBytes, setOutputSize dst1 compressedBytes).

(** [lz77Compress]: [None] only if the token loop did not finish. *)
Definition lz77Compress (h_input : list byte) (prev0 : list Z) (evs : list HashEvent)
    (dst : Dest) : option (CompressionResult * Dest) :=
  tokens ← lz77Tokens h_input prev0 evs;
  Some (lz77Finish (Z.of_nat (length h_input)) tokens dst).

(** Following back-links from [pos] through [prev] until the sentinel -1:
    the positions visited, or [None] if a link leaves the array or the
    bound on the number of hops is used up. *)
Fixpoint follow (fuel : nat) (prev : list Z) (pos : Z) : option (list Z) :=
  if pos =? -1 then Some []
  else
    match fuel with
    | O => None
    | S fuel' =>
        if (0 <=? pos) && (pos <? Z.of_nat (length prev))
        then (pos ::.) <$> follow fuel' prev (rd prev pos)
        else None
    end.

(** A value of type [int]. *)
Definition isInt (v : Z) : Prop := - 2 ^ 31 <= v < 2 ^ 31.

(** What [findMatches] may leave in [(bestOff, bestLen)] at position [idx]:
    nothing, or a run that occurs in the input [bestOff] bytes back. *)
Definition genuine (input : list byte) (idx : Z) (r : Z * Z) : Prop :=
  r = (0, 0)
  \/ (MIN_MATCH <= snd r <= MAX_MATCH /\ idx + snd r <= Z.of_nat (length input)
      /\ 0 <= fst r <= WINDOW_SIZE /\ fst r <= idx
      /\ forall k, 0 <= k < snd r -> byte_at input (idx - fst r + k) = byte_at input (idx + k)).

(** The positions below [n] whose three bytes hash to [h], in increasing
    order. *)
Definition positionsWithHash (input : list byte) (h : Z) (n : nat) : list Z :=
  filter (fun j => hashAt input j = h) (map Z.of_nat (seq 0 n)).

(** Some later position with a 3-byte window has the hash of position
    [idx]. *)
Definition shadowed (input : list byte) (idx : nat) : bool :=
  existsb (fun j => hashAt input (Z.of_nat j) =? hashAt input (Z.of_nat idx))
          (seq (S idx) (length input - 3 - idx)).

(** Modelled from the spec: the decoder, which the source does not have.
    A word with bit 31 clear is a literal byte; a word with bit 31 set
    carries [length - 3] in bits 30..16 and [offset] in bits 15..0, and
    copies [length] bytes, one at a time, from [offset] bytes back in the
    output decoded so far. [None] when a match points outside that output
    (offset 0, or further back than its start). *)
Fixpoint copyBack (n : nat) (off : nat) (out : list byte) : option (list byte) :=
  match n with
  | O => Some out
  | S n' =>
      if (off =? 0)%nat || (length out <? off)%nat then None
      else b ← out !! (length out - off)%nat; copyBack n' off (out ++ [b])
  end.

Definition decodeWord (out : list byte) (w : Z) : option (list byte) :=
  if Z.testbit w 31
  then copyBack (Z.to_nat (Z.land (Z.shiftr w 16) 32767 + 3)) (Z.to_nat (Z.land w 65535)) out
  else Some (out ++ [toByte w]).

Definition decodeTokens (ws : list Z) : option (list byte) :=
  foldl (fun o w => out ← o; decodeWord out w) (Some []) ws.

End LZ77.

Import LZ77.

(** ** E8 lattice: root generation and the host tail (e8_lattice.cu) *)

Module E8.

Definition E8_ROOTS : Z := 240.
Definition E8_DIM : Z := 8.
Definition BLOCK_BYTES : Z := 64.

Definition dims : list Z := [0; 1; 2; 3; 4; 5; 6; 7].

(** [for (int j = i + 1; j < 8 && remaining >= 4; j++)
       { remaining -= 4; if (remaining < 0) pairIdx = i * 8 + j; }].
    Returns [(remaining, pairIdx)]. *)
Fixpoint pairInner (fuel : nat) (i j remaining pairIdx : Z) : Z * Z :=
  match fuel with
  | O => (remaining, pairIdx)
  | S fuel' =>
      if (j <? 8) && (4 <=? remaining) then
        let remaining' := remaining - 4 in
        let pairIdx' := if remaining' <? 0 then i * 8 + j else pairIdx in
        pairInner fuel' i (j + 1) remaining' pairIdx'
      else (remaining, pairIdx)
  end.

(** [for (int i = 0; i < 8 && pairIdx == 0; i++) { inner loop }]. *)
Fixpoint pairOuter (fuel : nat) (i remaining pairIdx : Z) : Z * Z :=
  match fuel with
  | O => (remaining, pairIdx)
  | S fuel' =>
      if (i <? 8) && (pairIdx =? 0) then
        let '(remaining', pairIdx') := pairInner 8 i (i + 1) remaining pairIdx in
        pairOuter fuel' (i + 1) remaining' pairIdx'
      else (remaining, pairIdx)
  end.

(** [for (int b = 0; b < 8; b++) { bit = (maskIdx >> b) & 1; signPattern |= bit << b; }]. *)
Definition signPatternOf (maskIdx : Z) : Z :=
  foldl (fun signPattern b =>
           let bit := Z.land (Z.shiftr maskIdx b) 1 in
           Z.lor signPattern (Z.shiftl bit b))
        0 dims.

(** The stores of thread [tid] into [roots], in program order, as pairs
    (index, value). The values 0, 1, -1, 1/2 and -1/2 are exact in [float]. *)
Definition threadWrites (tid : Z) : list (Z * Q) :=
  if tid <? 112 then
    let '(_, pairIdx) := pairOuter 8 0 tid 0 in
    let i := Z.rem (Z.quot pairIdx 8) 8 in
    let j := Z.rem pairIdx 8 in
    let signBits := Z.rem tid 4 in
    map (fun d => (tid * E8_DIM + d, 0%Q)) dims
    ++ [ (tid * E8_DIM + i, if Z.land signBits 1 =? 0 then (-1)%Q else 1%Q);
         (tid * E8_DIM + j, if Z.land signBits 2 =? 0 then (-1)%Q else 1%Q) ]
  else if tid <? 240 then
    let idx := tid - 112 in
    let maskIdx := Z.quot idx 2 in
    let signPattern := signPatternOf maskIdx in
    map (fun d => (tid * E8_DIM + d,
                   if Z.land (Z.shiftr signPattern d) 1 =? 0 then (1 # 2)%Q else (-1 # 2)%Q))
        dims
  else [].

Definition store (roots : list Q) (w : Z * Q) : list Q :=
  <[Z.to_nat (fst w) := snd w]> roots.

Definition runThread (roots : list Q) (tid : Z) : list Q :=
  foldl store roots (threadWrites tid).

(** The launch [initE8Roots<<<1, 256>>>(d_roots)]: the 256 threads in the
    order [sched]; [roots] is the content of the fresh [d_roots] buffer. *)
Definition initE8Roots (sched : list Z) (roots : list Q) : list Q :=
  foldl runThread roots sched.

Definition threadIds : list Z := map Z.of_nat (seq 0 256).

(** The vector in slot [tid]: [roots[tid * 8 .. tid * 8 + 8)]. *)
Definition rootAt (roots : list Q) (tid : nat) : list Q :=
  take 8 (drop (tid * 8) roots).

(** The two families of the root system, as the header comment of the file
    gives them. *)
Definition isTypeA (v : list Q) : bool :=
  (length v =? 8)%nat
  && (length (filter (fun x => Qeq_bool x 1 || Qeq_bool x (-1) = true) v) =? 2)%nat
  && (length (filter (fun x => Qeq_bool x 0 = true) v) =? 6)%nat.

Definition isTypeB (v : list Q) : bool :=
  (length v =? 8)%nat
  && forallb (fun x => Qeq_bool x (1 # 2) || Qeq_bool x (-1 # 2)) v
  && Nat.even (length (filter (fun x => Qeq_bool x (-1 # 2) = true) v)).

Definition inFamily (tid : nat) (v : list Q) : bool :=
  if (tid <? 112)%nat then isTypeA v else isTypeB v.

(** The value of the last store to index [k] in a sequence of stores. *)
Fixpoint lastWrite (k : nat) (ws : list (Z * Q)) : option Q :=
  match ws with
  | [] => None
  | w :: rest =>
      match lastWrite k rest with
      | Some v => Some v
      | None => if (Z.to_nat (fst w) =? k)%nat then Some (snd w) else None
      end
  end.

(** What thread [k / 8] leaves in [roots[k]]: a function of [k] alone. *)
Definition slotValue (k : nat) : option Q :=
  lastWrite k (threadWrites (Z.of_nat (k / 8))).

Definition rootTable : list Q :=
  map (fun k => default 0%Q (slotValue k)) (seq 0 1920).

(** The stores of a whole launch, thread after thread. *)
Definition allWrites (sched : list Z) : list (Z * Q) := concat (map threadWrites sched).

(** Every store of thread [tid] goes to one of the eight slots of its own
    vector. *)
Definition ownSlots (tid : Z) : bool :=
  forallb (fun w => (0 <=? fst w) && (fst w / 8 =? tid) && (fst w <? 1920)) (threadWrites tid).

#[export] Instance Q_eq_dec : EqDecision Q.
Proof. solve_decision. Defined.

(** The number of different vectors among the 240 slots. *)
Definition distinctRoots (roots : list Q) : nat :=
  length (remove_dups (map (rootAt roots) (seq 0 240))).

(** One iteration of the search loop of [findNearestRoot] on the pair
    [(minDist, bestRoot)]:
    [if (dist < minDist) { minDist = dist; bestRoot = r; }].
    The squared distance is accumulated in [float] from the vector and the
    eight coordinates of root [r]; it enters as the function [distance] of
    these two, with the finite [float] values as rationals. *)
Definition nearestStep (distance : list Q -> list Q -> Q) (roots vec : list Q)
    (st : Q * nat) (r : nat) : Q * nat :=
  let dist := distance vec (rootAt roots r) in
  if Qlt_le_dec dist (fst st) then (dist, r) else st.

(** [findNearestRoot]: the value stored in [rootIndices[vecId]]. The loop
    over the 240 roots starts from [minDist = 1e10f], [bestRoot = 0]. *)
Definition findNearestRoot (distance : list Q -> list Q -> Q) (roots vec : list Q) : nat :=
  snd (foldl (nearestStep distance roots vec) (10000000000%Q, 0%nat) (seq 0 240)).

(** Host tail of [e8LatticeCompress], from [outputBytes] on. The kernels
    that fill [d_rootIndices] and [d_encodedResiduals] compute in [float];
    their results enter as the contents of the two device buffers. *)
Definition e8LatticeCompress (h_input : list byte)
    (d_rootIndices d_encodedResiduals : list byte) (dst : Dest)
    : CompressionResult * Dest :=
  let inputSize := Z.of_nat (length h_input) in
  let result := initResult inputSize in
  let paddedSize := u64 (u64 (inputSize + BLOCK_BYTES - 1) / BLOCK_BYTES * BLOCK_BYTES) in
  let numBlocks := paddedSize / BLOCK_BYTES in
  let outputBytes := u64 (8 + numBlocks + numBlocks * E8_DIM * 2) in
  let dst1 :=
    if outputBytes <=? outputSize dst then
      let d1 := memcpy dst 0 (sizeBytes inputSize) 8 in
      let d2 := memcpy d1 8 d_rootIndices numBlocks in
      memcpy d2 (8 + numBlocks) d_encodedResiduals (numBlocks * E8_DIM * 2)
    else dst in
  (setCompressedSize result outputBytes, setOutputSize dst1 outputBytes).

End E8.

Import E8.

(** ** Range coder: histogram, CDF, chunk encoder (arithmetic_coding.cu) *)

Module RangeCoder.

Definition ALPHABET_SIZE : Z := 256.
Definition BLOCK_SIZE : Z := 256.
Definition MAX_RANGE : Z := Z.shiftl 1 32 - 1.

Definition symbols : list Z := map Z.of_nat (seq 0 256).

Definition sumZ (l : list Z) : Z := foldr Z.add 0 l.

(** The sequential histogram: the number of bytes of value [s] in the input. *)
Definition occurrences (s : Z) (input : list byte) : Z :=
  Z.of_nat (length (filter (fun b => byteZ b = s) input)).

Definition histogram (input : list byte) : list Z :=
  map (fun s => occurrences s input) symbols.

(** *** countFrequencies *)

(** The loop of one thread, [for (i = idx; i < size; i += stride)]: the
    positions at which the thread performs [atomicAdd(&localFreq[input[i]], 1)]. *)
Fixpoint stridedPositions (fuel : nat) (i stride size : Z) : list Z :=
  match fuel with
  | O => []
  | S fuel' =>
      if i <? size then i :: stridedPositions fuel' (u64 (i + stride)) stride size
      else []
  end.

(** Thread [t] of block [b] in a grid of [grid] blocks of [BLOCK_SIZE]
    threads; [blockIdx.x * blockDim.x + threadIdx.x] and
    [blockDim.x * gridDim.x] are [unsigned int] expressions. *)
Definition threadPositions (size grid : Z) (b t : nat) : list Z :=
  let idx := u32 (Z.of_nat b * BLOCK_SIZE + Z.of_nat t) in
  let stride := u32 (BLOCK_SIZE * grid) in
  stridedPositions (S (Z.to_nat size)) idx stride size.

Definition blockPositions (size grid : Z) (b : nat) : list Z :=
  concat (map (threadPositions size grid b) (seq 0 256)).

(** [atomicAdd(&localFreq[input[i]], 1)]. *)
Definition bump (input : list byte) (localFreq : list Z) (i : Z) : list Z :=
  let s := byte_at input i in
  wr localFreq s (u32 (rd localFreq s + 1)).

(** The shared histogram of a block once its atomic increments have been
    performed in the order [order]. *)
Definition localCount (input : list byte) (order : list Z) : list Z :=
  foldl (bump input) (replicate 256 0) order.

(** Thread [i] of block [b] in the merge phase, [locals] being the shared
    histograms of the blocks:
    [if (localFreq[i] > 0) atomicAdd(&globalFreq[i], localFreq[i])]. *)
Definition mergeOne (locals : list (list Z)) (globalFreq : list Z) (ev : nat * Z) : list Z :=
  let c := rd (default [] (locals !! fst ev)) (snd ev) in
  if 0 <? c then wr globalFreq (snd ev) (u32 (rd globalFreq (snd ev) + c)) else globalFreq.

(** An execution order of the kernel: per block, the order in which the
    increments of its threads reach [localFreq]; and the order in which the
    merges of all blocks reach [globalFreq]. *)
Record Schedule := mkSchedule { countOrder : nat -> list Z; mergeOrder : list (nat * Z) }.

Definition mergeEvents (grid : nat) : list (nat * Z) :=
  b ← seq 0 grid; map (fun i => (b, i)) symbols.

(** A schedule performs each atomic operation of the launch exactly once. *)
Definition fair (size : Z) (grid : nat) (sched : Schedule) : Prop :=
  (forall b, (b < grid)%nat -> countOrder sched b ≡ₚ blockPositions size (Z.of_nat grid) b)
  /\ mergeOrder sched ≡ₚ mergeEvents grid.

(** The schedule that runs blocks and threads in index order. *)
Definition inOrder (size : Z) (grid : nat) : Schedule :=
  {| countOrder := blockPositions size (Z.of_nat grid); mergeOrder := mergeEvents grid |}.

(** The number of positions in [ps] at which the input holds [s]. *)
Definition hits (input : list byte) (s : Z) (ps : list Z) : Z :=
  sumZ (map (fun p => if byte_at input p =? s then 1 else 0) ps).

(** What the merge event [ev] adds to [globalFreq[s]]. *)
Definition contrib (locals : list (list Z)) (s : Z) (ev : nat * Z) : Z :=
  if snd ev =? s then rd (default [] (locals !! fst ev)) s else 0.

(** The entries of an [unsigned int] array of [ALPHABET_SIZE] counters. *)
Definition counters (h : list Z) : Prop :=
  length h = 256%nat /\ Forall (fun v => 0 <= v < 2 ^ 32) h.

(** What the thread with global index [p] visits when the stride covers
    the input: its own index, if that is inside the input. *)
Definition visit (size : Z) (p : nat) : list Z :=
  if Z.of_nat p <? size then [Z.of_nat p] else [].

(** The longest input on which the [unsigned int] expressions of the launch,
    [blockIdx.x * blockDim.x + threadIdx.x] and [blockDim.x * gridDim.x], and
    the [unsigned int] counters do not wrap around. *)
Definition inputLimit : Z := 2 ^ 32 - 256.

(** [freqBlocks] of [arithmeticCompress], an [int]. *)
Definition freqBlocks (inputSize : Z) : Z :=
  to_int (u64 (inputSize + BLOCK_SIZE - 1) / BLOCK_SIZE).

(** The launch [countFrequencies<<<grid, BLOCK_SIZE>>>] on a zeroed
    [d_freq]. *)
Definition countFrequencies (input : list byte) (grid : nat) (sched : Schedule) : list Z :=
  let locals := map (fun b => localCount input (countOrder sched b)) (seq 0 grid) in
  foldl (mergeOne locals) (replicate 256 0) (mergeOrder sched).

(** *** buildCDF *)

(** One round of the scan, all 256 threads between two barriers:
    [val = tid >= offset ? temp[tid - offset] : 0; temp[tid] += val]
    with [int val]. *)
Definition scanStep (offset : Z) (temp : list Z) : list Z :=
  map (fun tid =>
         let val := if offset <=? tid then to_int (rd temp (tid - offset)) else 0 in
         u32 (rd temp tid + val))
      symbols.

(** [for (int offset = 1; offset < ALPHABET_SIZE; offset *= 2)]. *)
Fixpoint scanLoop (fuel : nat) (offset : Z) (temp : list Z) : list Z :=
  match fuel with
  | O => temp
  | S fuel' =>
      if offset <? ALPHABET_SIZE then scanLoop fuel' (offset * 2) (scanStep offset temp)
      else temp
  end.

(** [buildCDF<<<1, ALPHABET_SIZE>>>(freq, cdf, total)]; the kernel does not
    read [total]. *)
Definition buildCDF (freq : list Z) : list Z :=
  let temp := scanLoop 256 1 (map (rd freq) symbols) in
  map (fun tid => if tid =? 0 then 0 else rd temp (tid - 1)) symbols.

(** The sum of the first [z] entries of the frequency table. *)
Definition prefixSum (freq : list Z) (z : Z) : Z := sumZ (take (Z.to_nat z) freq).

(** After the rounds with offsets below [w], [temp[t]] holds the sum,
    modulo 2^32, of the [w] entries that end at [t]. *)
Definition window (freq : list Z) (w : Z) (temp : list Z) : Prop :=
  forall t, 0 <= t < 256 ->
    rd temp t = u32 (prefixSum freq (t + 1) - prefixSum freq (t + 1 - w)).

(** The [unsigned int total] that [arithmeticCompress] passes to the kernels. *)
Definition totalOf (input : list byte) : Z := u32 (Z.of_nat (length input)).

(** [symHigh] of [encodeBlocks]: [(symbol < 255) ? cdf[symbol + 1] : total]. *)
Definition symHighOf (cdf : list Z) (total symbol : Z) : Z :=
  if symbol <? 255 then rd cdf (symbol + 1) else total.

(** *** encodeBlocks *)

Inductive outcome (A : Type) : Type :=
| Ok (a : A)                (* ran to completion *)
| OobRead (i : Z)           (* read of [input[i]] with [i] past the end of the input *)
| Hang.                     (* a loop that does not end *)
Arguments Ok {A} a.
Arguments OobRead {A} i.
Arguments Hang {A}.

Definition bind {A B} (o : outcome A) (k : A -> outcome B) : outcome B :=
  match o with
  | Ok a => k a
  | OobRead i => OobRead i
  | Hang => Hang
  end.

(** The registers of thread 0 and the device array [output]. *)
Record Enc := mkEnc {
  low : Z; range : Z; outputWord : Z; bitsInWord : Z; outputIdx : Z; output : list Z }.

(** One iteration of [while (range < (1ULL << 24))]. *)
Definition renormStep (blockId chunkSize : Z) (e : Enc) : Enc :=
  let ow := u32 (Z.lor (u32 (Z.shiftl (outputWord e) 8)) (Z.land (Z.shiftr (low e) 24) 255)) in
  let bits := bitsInWord e + 8 in
  let full := 32 <=? bits in
  {| low := u64 (Z.shiftl (low e) 8);
     range := u64 (Z.shiftl (range e) 8);
     outputWord := if full then 0 else ow;
     bitsInWord := if full then 0 else bits;
     outputIdx := if full then outputIdx e + 1 else outputIdx e;
     output := if full
               then wr (output e) (u64 (blockId * (chunkSize / 4 + 64) + outputIdx e)) ow
               else output e |}.

Fixpoint renormalize (fuel : nat) (blockId chunkSize : Z) (e : Enc) : outcome Enc :=
  if range e <? Z.shiftl 1 24 then
    match fuel with
    | O => Hang
    | S fuel' => renormalize fuel' blockId chunkSize (renormStep blockId chunkSize e)
    end
  else Ok e.

(** The body of [for (size_t i = start; i < end; i++)]. A [range] above 0
    leaves the renormalization loop within 8 rounds; a [range] of 0 never
    leaves it. *)
Definition encodeSymbol (input : list byte) (cdf : list Z) (total blockId chunkSize : Z)
    (e : Enc) (i : Z) : outcome Enc :=
  match input !! Z.to_nat i with
  | None => OobRead i
  | Some b =>
      let symbol := byteZ b in
      let symLow := rd cdf symbol in
      let symHigh := symHighOf cdf total symbol in
      let symRange := u32 (symHigh - symLow) in
      let low' := u64 (low e + u64 (range e * symLow) / total) in
      let range' := u64 (range e * symRange) / total in
      renormalize 8 blockId chunkSize
        {| low := low'; range := range'; outputWord := outputWord e;
           bitsInWord := bitsInWord e; outputIdx := outputIdx e; output := output e |}
  end.

Fixpoint encodeRange (n : nat) (input : list byte) (cdf : list Z) (total blockId chunkSize : Z)
    (e : Enc) (i : Z) : outcome Enc :=
  match n with
  | O => Ok e
  | S n' =>
      bind (encodeSymbol input cdf total blockId chunkSize e i)
           (fun e' => encodeRange n' input cdf total blockId chunkSize e' (i + 1))
  end.

Definition chunkStart (chunkSize blockId : Z) : Z := u64 (blockId * chunkSize).

(** [end = min(start + chunkSize, (size_t)(numChunks * chunkSize))]. *)
Definition chunkEnd (chunkSize numChunks blockId : Z) : Z :=
  Z.min (u64 (chunkStart chunkSize blockId + chunkSize)) (u64 (numChunks * chunkSize)).

(** Block [blockId] of [encodeBlocks]: thread 0 encodes the chunk, flushes
    the partial word and stores the length. Returns the arrays [output] and
    [outputLengths]. *)
Definition encodeBlock (input : list byte) (cdf : list Z) (total chunkSize numChunks : Z)
    (arrays : list Z * list Z) (blockId : Z) : outcome (list Z * list Z) :=
  let start := chunkStart chunkSize blockId in
  let stop := chunkEnd chunkSize numChunks blockId in
  bind (encodeRange (Z.to_nat (stop - start)) input cdf total blockId chunkSize
          {| low := 0; range := MAX_RANGE; outputWord := 0; bitsInWord := 0;
             outputIdx := 0; output := fst arrays |} start)
       (fun e =>
          let flush := 0 <? bitsInWord e in
          let out := if flush
                     then wr (output e) (u64 (blockId * (chunkSize / 4 + 64) + outputIdx e))
                             (u32 (Z.shiftl (outputWord e) (32 - bitsInWord e)))
                     else output e in
          let idx := if flush then outputIdx e + 1 else outputIdx e in
          Ok (out, wr (snd arrays) blockId (u32 (idx * 4)))).

(** The launch [encodeBlocks<<<numChunks, 32>>>], block after block. *)
Definition encodeBlocks (input : list byte) (cdf : list Z) (total chunkSize numChunks : Z)
    (arrays : list Z * list Z) : outcome (list Z * list Z) :=
  foldl (fun acc b => bind acc (fun a => encodeBlock input cdf total chunkSize numChunks a b))
        (Ok arrays) (map Z.of_nat (seq 0 (Z.to_nat numChunks))).

(** The input indices that block [blockId] reads when nothing stops it. *)
Definition chunkReads (chunkSize numChunks blockId : Z) : list Z :=
  let start := chunkStart chunkSize blockId in
  map (fun k => start + Z.of_nat k)
      (seq 0 (Z.to_nat (chunkEnd chunkSize numChunks blockId - start))).

(** *** arithmeticCompress *)

(** Host tail of [arithmeticCompress], from the copy of [d_outputLengths]
    on. [d_output] is the device array as bytes. *)
Definition arithmeticFinish (inputSize : Z) (h_outputLengths : list Z) (d_output : list byte)
    (dst : Dest) : CompressionResult * Dest :=
  let result := initResult inputSize in
  let totalOutput := u64 (sumZ h_outputLengths) in
  let dst1 :=
    if (0 <? totalOutput) && (totalOutput <=? outputSize dst)
    then setOutputSize (memcpy dst 0 d_output totalOutput) totalOutput
    else setOutputSize dst totalOutput in
  (setCompressedSize result totalOutput, dst1).

Definition CHUNK_SIZE : Z := 4096.

Definition numChunksOf (inputSize : Z) : Z := u64 (inputSize + CHUNK_SIZE - 1) / CHUNK_SIZE.

(** [arithmeticCompress]. [out0] and [lens0] are the contents of the fresh
    [d_output] and [d_outputLengths] buffers. *)
Definition arithmeticCompress (h_input : list byte) (sched : Schedule)
    (out0 lens0 : list Z) (dst : Dest) : outcome (CompressionResult * Dest) :=
  let inputSize := Z.of_nat (length h_input) in
  let numChunks := numChunksOf inputSize in
  let freq := countFrequencies h_input (Z.to_nat (freqBlocks inputSize)) sched in
  let cdf := buildCDF freq in
  bind (encodeBlocks h_input cdf (totalOf h_input) CHUNK_SIZE numChunks (out0, lens0))
       (fun arrays =>
          Ok (arithmeticFinish inputSize (take (Z.to_nat numChunks) (snd arrays))
                (concat (map wordBytes (fst arrays))) dst)).

(** *** The launch with its stores checked *)

(** [renormStep] and [encodeBlock] above follow the registers of thread 0
    and the words it stores; a store past the end of the list is dropped
    there. The definitions of this part follow the same code with every
    store tested against the size of its array first, and the arrays at
    the sizes that [arithmeticCompress] allocates.

    What a run does when the stores into the device arrays and the copy
    out of [d_output] are checked against the sizes of the arrays as well. *)
Inductive run (A : Type) : Type :=
| Done (a : A)              (* ran to completion, every access inside its array *)
| ReadPastEnd (i : Z)       (* read of [input[i]] with [i] past the end of the input *)
| StorePastEnd (i : Z)      (* store at word [i], past the end of [output] or [outputLengths] *)
| CopyPastEnd (n : Z)       (* copy of [n] bytes out of a shorter [d_output] *)
| Spins.                    (* a loop that does not end *)
Arguments Done {A} a.
Arguments ReadPastEnd {A} i.
Arguments StorePastEnd {A} i.
Arguments CopyPastEnd {A} n.
Arguments Spins {A}.

Definition andThen {A B} (r : run A) (k : A -> run B) : run B :=
  match r with
  | Done a => k a
  | ReadPastEnd i => ReadPastEnd i
  | StorePastEnd i => StorePastEnd i
  | CopyPastEnd n => CopyPastEnd n
  | Spins => Spins
  end.

(** [a[i] = v] on a device array of [length a] words. *)
Definition storeWord (a : list Z) (i v : Z) : run (list Z) :=
  if (0 <=? i) && (i <? Z.of_nat (length a)) then Done (wr a i v) else StorePastEnd i.

(** One iteration of [while (range < (1ULL << 24))]. *)
Definition renormStepChecked (blockId chunkSize : Z) (e : Enc) : run Enc :=
  let ow := u32 (Z.lor (u32 (Z.shiftl (outputWord e) 8)) (Z.land (Z.shiftr (low e) 24) 255)) in
  let bits := bitsInWord e + 8 in
  if 32 <=? bits then
    andThen (storeWord (output e) (u64 (blockId * (chunkSize / 4 + 64) + outputIdx e)) ow)
            (fun out =>
               Done {| low := u64 (Z.shiftl (low e) 8); range := u64 (Z.shiftl (range e) 8);
                       outputWord := 0; bitsInWord := 0;
                       outputIdx := outputIdx e + 1; output := out |})
  else
    Done {| low := u64 (Z.shiftl (low e) 8); range := u64 (Z.shiftl (range e) 8);
            outputWord := ow; bitsInWord := bits;
            outputIdx := outputIdx e; output := output e |}.

Fixpoint renormalizeChecked (fuel : nat) (blockId chunkSize : Z) (e : Enc) : run Enc :=
  if range e <? Z.shiftl 1 24 then
    match fuel with
    | O => Spins
    | S fuel' => andThen (renormStepChecked blockId chunkSize e)
                         (renormalizeChecked fuel' blockId chunkSize)
    end
  else Done e.

(** The body of [for (size_t i = start; i < end; i++)]. *)
Definition encodeSymbolChecked (input : list byte) (cdf : list Z) (total blockId chunkSize : Z)
    (e : Enc) (i : Z) : run Enc :=
  match input !! Z.to_nat i with
  | None => ReadPastEnd i
  | Some b =>
      let symbol := byteZ b in
      let symLow := rd cdf symbol in
      let symHigh := symHighOf cdf total symbol in
      let symRange := u32 (symHigh - symLow) in
      let low' := u64 (low e + u64 (range e * symLow) / total) in
      let range' := u64 (range e * symRange) / total in
      renormalizeChecked 8 blockId chunkSize
        {| low := low'; range := range'; outputWord := outputWord e;
           bitsInWord := bitsInWord e; outputIdx := outputIdx e; output := output e |}
  end.

Fixpoint encodeRangeChecked (n : nat) (input : list byte) (cdf : list Z)
    (total blockId chunkSize : Z) (e : Enc) (i : Z) : run Enc :=
  match n with
  | O => Done e
  | S n' =>
      andThen (encodeSymbolChecked input cdf total blockId chunkSize e i)
              (fun e' => encodeRangeChecked n' input cdf total blockId chunkSize e' (i + 1))
  end.

(** Block [blockId] of [encodeBlocks]: the chunk, the flush of the partial
    word, and the store of the length. *)
Definition encodeBlockChecked (input : list byte) (cdf : list Z) (total chunkSize numChunks : Z)
    (arrays : list Z * list Z) (blockId : Z) : run (list Z * list Z) :=
  let start := chunkStart chunkSize blockId in
  let stop := chunkEnd chunkSize numChunks blockId in
  andThen (encodeRangeChecked (Z.to_nat (stop - start)) input cdf total blockId chunkSize
             {| low := 0; range := MAX_RANGE; outputWord := 0; bitsInWord := 0;
                outputIdx := 0; output := fst arrays |} start)
          (fun e =>
             andThen (if 0 <? bitsInWord e
                      then andThen (storeWord (output e)
                                      (u64 (blockId * (chunkSize / 4 + 64) + outputIdx e))
                                      (u32 (Z.shiftl (outputWord e) (32 - bitsInWord e))))
                                   (fun out => Done (out, outputIdx e + 1))
                      else Done (output e, outputIdx e))
                     (fun flushed =>
                        andThen (storeWord (snd arrays) blockId (u32 (snd flushed * 4)))
                                (fun lens => Done (fst flushed, lens)))).

(** The launch [encodeBlocks<<<numChunks, 32>>>], block after block. *)
Definition encodeBlocksChecked (input : list byte) (cdf : list Z)
    (total chunkSize numChunks : Z) (arrays : list Z * list Z) : run (list Z * list Z) :=
  foldl (fun acc b =>
           andThen acc (fun a => encodeBlockChecked input cdf total chunkSize numChunks a b))
        (Done arrays) (map Z.of_nat (seq 0 (Z.to_nat numChunks))).

(** [arithmeticCompress] with the device arrays at the sizes that the host
    function allocates: [numChunks * maxOutputPerChunk] words for
    [d_output] and [numChunks] words for [d_outputLengths]. [out0] and
    [lens0] are what the fresh buffers hold. *)
Definition arithmeticCompressChecked (h_input : list byte) (sched : Schedule)
    (out0 lens0 : list Z) (dst : Dest) : run (CompressionResult * Dest) :=
  let inputSize := Z.of_nat (length h_input) in
  let numChunks := numChunksOf inputSize in
  let maxOutputPerChunk := CHUNK_SIZE / 4 + 64 in
  let d_output := resize (Z.to_nat (u64 (numChunks * maxOutputPerChunk * 4) / 4)) 0 out0 in
  let d_outputLengths := resize (Z.to_nat (u64 (numChunks * 4) / 4)) 0 lens0 in
  let freq := countFrequencies h_input (Z.to_nat (freqBlocks inputSize)) sched in
  let cdf := buildCDF freq in
  andThen (encodeBlocksChecked h_input cdf (totalOf h_input) CHUNK_SIZE numChunks
             (d_output, d_outputLengths))
          (fun arrays =>
             let h_outputLengths := take (Z.to_nat numChunks) (snd arrays) in
             let totalOutput := u64 (sumZ h_outputLengths) in
             if (0 <? totalOutput) && (totalOutput <=? outputSize dst)
                && (4 * Z.of_nat (length (fst arrays)) <? totalOutput)
             then CopyPastEnd totalOutput
             else Done (arithmeticFinish inputSize h_outputLengths
                          (concat (map wordBytes (fst arrays))) dst)).

(** The number of bytes thread 0 has emitted so far: four for each word
    stored in [output] and one for each byte held in [outputWord]. *)
Definition emitted (e : Enc) : Z := 4 * outputIdx e + bitsInWord e / 8.

(** [bitsInWord] counts the whole bytes of a word that is not full. *)
Definition wordBits (e : Enc) : Prop :=
  bitsInWord e = 0 \/ bitsInWord e = 8 \/ bitsInWord e = 16 \/ bitsInWord e = 24.

(** The byte values 1 to 255. *)
Definition nonzeroBytes : list byte := map (fun k => toByte (Z.of_nat k)) (seq 1 255).

(** An input of three chunks: the first holds the 255 byte values other
    than 0, each of them 16 or 17 times; the other two hold zero bytes. *)
Definition spreadInput : list byte :=
  concat (replicate 16 nonzeroBytes) ++ take 16 nonzeroBytes
  ++ replicate 4096 "000"%byte ++ replicate 4096 "000"%byte.

(** An input of three chunks: two of zero bytes, then one that holds the
    255 byte values other than 0, each of them 16 or 17 times. *)
Definition spreadLast : list byte :=
  replicate 4096 "000"%byte ++ replicate 4096 "000"%byte
  ++ concat (replicate 16 nonzeroBytes) ++ take 16 nonzeroBytes.

End RangeCoder.

Import RangeCoder.

(** * Properties *)

(** ** Machine integers *)

(** Boolean comparisons in the hypotheses, as propositions. *)
Ltac zbool :=
  repeat match goal with
  | H : (_ <=? _) = true |- _ => apply Z.leb_le in H
  | H : (_ <=? _) = false |- _ => apply Z.leb_gt in H
  | H : (_ <? _) = true |- _ => apply Z.ltb_lt in H
  | H : (_ <? _) = false |- _ => apply Z.ltb_ge in H
  | H : (_ =? _) = true |- _ => apply Z.eqb_eq in H
  | H : (_ =? _) = false |- _ => apply Z.eqb_neq in H
  end.

Lemma u32_small x : 0 <= x < 2 ^ 32 -> u32 x = x.
Proof. intros H. unfold u32. now apply Z.mod_small. Qed.

Lemma u64_small x : 0 <= x < 2 ^ 64 -> u64 x = x.
Proof. intros H. unfold u64. now apply Z.mod_small. Qed.

Lemma to_int_small x : - 2 ^ 31 <= x < 2 ^ 31 -> to_int x = x.
Proof. intros H. unfold to_int. rewrite Z.mod_small; lia. Qed.

Lemma rd_lookup (a : list Z) (i : nat) v : a !! i = Some v -> rd a (Z.of_nat i) = v.
Proof. intros H. unfold rd. now rewrite Nat2Z.id, H. Qed.

Lemma rd_Forall (P : Z -> Prop) (a : list Z) i :
  Forall P a -> 0 <= i < Z.of_nat (length a) -> P (rd a i).
Proof.
  intros HP Hi. unfold rd.
  destruct (lookup_lt_is_Some_2 a (Z.to_nat i)) as [v Hv]; [lia|].
  rewrite Hv. simpl. eapply Forall_lookup_1; eauto.
Qed.

Lemma length_wr a i v : length (wr a i v) = length a.
Proof. unfold wr. apply length_insert. Qed.

(** ** LZ77: the hash chains *)

Lemma rd_wr_eq (a : list Z) i v : 0 <= i < Z.of_nat (length a) -> rd (wr a i v) i = v.
Proof. intros H. unfold rd, wr. rewrite list_lookup_insert_eq by lia. reflexivity. Qed.

Lemma rd_wr_ne (a : list Z) i j v : 0 <= i -> 0 <= j -> i <> j -> rd (wr a i v) j = rd a j.
Proof. intros Hi Hj H. unfold rd, wr. rewrite list_lookup_insert_ne by lia. reflexivity. Qed.

Lemma hashFunc_range a b c : 0 <= hashFunc a b c < HASH_SIZE.
Proof.
  unfold hashFunc. change (HASH_SIZE - 1) with (Z.ones 15).
  rewrite Z.land_ones by lia. change HASH_SIZE with (2 ^ 15).
  apply Z.mod_pos_bound. lia.
Qed.

Section HashChains.

Variable input : list byte.
Variable prev0 : list Z.

Lemma hashAt_range j : 0 <= hashAt input j < HASH_SIZE.
Proof. apply hashFunc_range. Qed.

Lemma insertsOf_snoc evs ev :
  insertsOf (evs ++ [ev])
  = insertsOf evs ++ match ev with Insert i => [i] | Reset _ => [] end.
Proof. unfold insertsOf. rewrite omap_app. now destruct ev. Qed.

Lemma buildHashTable_snoc evs ev :
  buildHashTable input prev0 (evs ++ [ev])
  = applyEvent input (buildHashTable input prev0 evs) ev.
Proof. unfold buildHashTable. now rewrite foldl_app. Qed.

Lemma chainInv_insert n t :
  Z.of_nat (S n) <= 2 ^ 31 -> chainInv input prev0 n t ->
  chainInv input prev0 (S n) (insertPos input t n).
Proof.
  intros Hn [Hhl Hpl Hh Hp Hlast].
  pose proof (hashAt_range (Z.of_nat n)) as Hr.
  assert (Hv : -1 <= rd (hashHead t) (hashAt input (Z.of_nat n)) < Z.of_nat n).
  { apply (rd_Forall (fun v => -1 <= v < Z.of_nat n)); [exact Hh|]. rewrite Hhl. lia. }
  split; cbn [insertPos hashHead hashPrev]; fold (hashAt input (Z.of_nat n)).
  - now rewrite length_wr.
  - now rewrite length_wr.
  - unfold wr. apply Forall_insert.
    + eapply Forall_impl; [|exact Hh]. simpl. intros; lia.
    + rewrite to_int_small; lia.
  - intros i v Hi. unfold wr. rewrite Nat2Z.id.
    destruct (decide (i = n)) as [->|Hne].
    + intros Hl. assert (Hlt : (n < length (hashPrev t))%nat).
      { apply lookup_lt_Some in Hl. now rewrite length_insert in Hl. }
      rewrite list_lookup_insert_eq in Hl by exact Hlt. inversion Hl; subst. exact Hv.
    + rewrite list_lookup_insert_ne by congruence. apply Hp. lia.
  - intros j Hj. pose proof (hashAt_range (Z.of_nat j)) as Hrj.
    destruct (decide (hashAt input (Z.of_nat j) = hashAt input (Z.of_nat n))) as [->|Hne].
    + right. rewrite rd_wr_eq by (rewrite Hhl; lia). rewrite to_int_small; lia.
    + rewrite rd_wr_ne by (try lia; congruence).
      assert (j <> n) by congruence. apply Hlast. lia.
Qed.

Lemma chainInv_reset n t k :
  256 <= k < HASH_SIZE -> chainInv input prev0 n t ->
  chainInv input prev0 n (applyEvent input t (Reset k)).
Proof.
  intros Hk [Hhl Hpl Hh Hp Hlast]. split; cbn [applyEvent hashHead hashPrev].
  - now rewrite length_wr.
  - exact Hpl.
  - unfold wr. apply Forall_insert; [exact Hh|lia].
  - exact Hp.
  - intros j Hj. pose proof (hashAt_range (Z.of_nat j)) as Hrj.
    destruct (decide (hashAt input (Z.of_nat j) = k)) as [Heq|Hne].
    + left. rewrite Heq. split; [lia|]. apply rd_wr_eq. rewrite Hhl. lia.
    + rewrite rd_wr_ne by (try lia; congruence). now apply Hlast.
Qed.

(** The invariant holds in every execution order. *)
Lemma buildHashTable_inv evs : forall n,
  insertsOf evs = seq 0 n -> Forall lateReset evs -> Z.of_nat n <= 2 ^ 31 ->
  chainInv input prev0 n (buildHashTable input prev0 evs).
Proof.
  induction evs as [|ev evs IH] using rev_ind; intros n Hins Hlate Hn.
  - destruct n; [|discriminate]. split; unfold buildHashTable; cbn [foldl hashHead hashPrev].
    + apply length_replicate.
    + reflexivity.
    + apply Forall_replicate. lia.
    + intros i v Hi. lia.
    + intros j Hj. lia.
  - rewrite buildHashTable_snoc. rewrite insertsOf_snoc in Hins.
    apply Forall_app in Hlate as [Hlate Hev]. inversion Hev as [|? ? Hev1 _]; subst.
    destruct ev as [i|k].
    + destruct n as [|n]; [now destruct (insertsOf evs)|].
      rewrite seq_S in Hins. apply app_inj_tail in Hins as [Hins ->].
      cbn [applyEvent]. apply chainInv_insert; [exact Hn|]. apply IH; [exact Hins|exact Hlate|lia].
    + rewrite app_nil_r in Hins. apply chainInv_reset; [exact Hev1|]. now apply IH.
Qed.

Lemma loopOrder_ok (size : nat) : hashOrder size (loopOrder size).
Proof.
  unfold hashOrder, loopOrder, insertsOf. generalize (seq 0 (size - 2)). intros l. split.
  - induction l as [|i l IH]; [reflexivity|]. cbn [map omap list_omap]. now rewrite IH.
  - apply Forall_forall. intros ev Hev. apply in_map_iff in Hev as (i & <- & _). exact I.
Qed.

(** Links that decrease lead to the sentinel within [pos + 1] hops. *)
Lemma follow_decreasing (prev : list Z) (n : nat) :
  (n <= length prev)%nat ->
  (forall i v, (i < n)%nat -> prev !! i = Some v -> -1 <= v < Z.of_nat i) ->
  forall (fuel : nat) (pos : Z),
    -1 <= pos < Z.of_nat n -> pos < Z.of_nat fuel ->
    exists path, follow fuel prev pos = Some path
                 /\ Forall (fun q => 0 <= q <= pos) path
                 /\ StronglySorted Z.gt path.
Proof.
  intros Hlen Hlink fuel. induction fuel as [|fuel IH]; intros pos Hpos Hfuel.
  - assert (pos = -1) as -> by lia. exists []. simpl. repeat split; constructor.
  - destruct (decide (pos = -1)) as [->|Hne].
    { exists []. simpl. repeat split; constructor. }
    assert (Hp : 0 <= pos) by lia.
    destruct (lookup_lt_is_Some_2 prev (Z.to_nat pos)) as [v Hv]; [lia|].
    assert (Hb : -1 <= v < pos).
    { specialize (Hlink (Z.to_nat pos) v). rewrite Z2Nat.id in Hlink by lia. apply Hlink; [lia|easy]. }
    destruct (IH v) as (path & Hf & Hall & Hsort); [lia|lia|].
    exists (pos :: path). cbn [follow].
    destruct (pos =? -1) eqn:E; [zbool; lia|].
    replace ((0 <=? pos) && (pos <? Z.of_nat (length prev))) with true
      by (symmetry; apply andb_true_intro; split; [apply Z.leb_le|apply Z.ltb_lt]; lia).
    unfold rd. rewrite Hv. simpl. rewrite Hf. simpl. repeat split.
    + constructor; [lia|]. eapply Forall_impl; [|exact Hall]. simpl. intros; lia.
    + constructor; [exact Hsort|]. eapply Forall_impl; [|exact Hall]. simpl. intros; lia.
Qed.

End HashChains.

(** C8. After [buildHashTable], in whatever order the stores of the other
    blocks fell between the loop iterations, the back-link of every inserted
    position is a smaller position or the sentinel, and following the links
    from an inserted position visits strictly decreasing positions and
    reaches -1. The positions are stored as [int]: the input is at most
    [INT_MAX] bytes. *)
Theorem hash_chain_decreasing (input : list byte) (prev0 : list Z)
    (evs : list HashEvent) (i : nat) :
  Z.of_nat (length input) <= INT_MAX ->
  length prev0 = length input ->
  hashOrder (length input) evs ->
  (i + 2 < length input)%nat ->
  let prev := hashPrev (buildHashTable input prev0 evs) in
  -1 <= rd prev (Z.of_nat i) < Z.of_nat i
  /\ exists path, follow (S i) prev (Z.of_nat i) = Some (Z.of_nat i :: path)
                  /\ Forall (fun q => 0 <= q < Z.of_nat i) path
                  /\ StronglySorted Z.gt (Z.of_nat i :: path).
Proof.
  intros Hsize Hlen [Hins Hlate] Hi prev.
  set (n := (length input - 2)%nat) in *.
  assert (Hinv : chainInv input prev0 n (buildHashTable input prev0 evs)).
  { apply buildHashTable_inv; [exact Hins|exact Hlate|]. unfold INT_MAX in Hsize. lia. }
  destruct Hinv as [_ Hpl _ Hp _]. fold prev in Hpl, Hp.
  destruct (lookup_lt_is_Some_2 prev i) as [v Hv]; [lia|].
  assert (Hb : -1 <= v < Z.of_nat i) by (apply (Hp i v); [lia|exact Hv]).
  rewrite (rd_lookup _ _ _ Hv). split; [exact Hb|].
  destruct (follow_decreasing prev n) with (fuel := i) (pos := v)
    as (path & Hf & Hall & Hsort); [lia|exact Hp|lia|lia|].
  exists path. cbn [follow].
  destruct (Z.of_nat i =? -1) eqn:E; [zbool; lia|].
  replace ((0 <=? Z.of_nat i) && (Z.of_nat i <? Z.of_nat (length prev))) with true
    by (symmetry; apply andb_true_intro; split; [apply Z.leb_le|apply Z.ltb_lt]; lia).
  rewrite (rd_lookup _ _ _ Hv), Hf. simpl. repeat split.
  - eapply Forall_impl; [|exact Hall]. simpl. intros; lia.
  - constructor; [exact Hsort|]. eapply Forall_impl; [|exact Hall]. simpl. intros; lia.
Qed.

Lemma hash_chain_decreasing_witness :
  let input := ["a"; "b"; "c"; "a"; "b"; "c"; "a"; "b"]%byte in
  let evs := [Insert 0; Reset 2083; Insert 1; Insert 2; Insert 3; Reset 300; Insert 4; Insert 5] in
  let prev := hashPrev (buildHashTable input (replicate 8 0) evs) in
  -1 <= rd prev 4 < 4
  /\ exists path, follow 5 prev 4 = Some (4 :: path)
                  /\ Forall (fun q => 0 <= q < 4) path
                  /\ StronglySorted Z.gt (4 :: path).
Proof.
  apply (hash_chain_decreasing ["a"; "b"; "c"; "a"; "b"; "c"; "a"; "b"]%byte (replicate 8 0)
           [Insert 0; Reset 2083; Insert 1; Insert 2; Insert 3; Reset 300; Insert 4; Insert 5] 4).
  - vm_compute. discriminate.
  - reflexivity.
  - split; [reflexivity|]. unfold lateReset. repeat constructor; vm_compute; discriminate.
  - simpl. lia.
Defined.

(** ** LZ77: the greedy token loop *)

Section TokenLoop.

Variable input : list byte.
Variables matchOffset matchLength : list Z.

Let size := Z.of_nat (length input).

Hypothesis size_int : size <= INT_MAX.
Hypothesis lengths_len : length matchLength = length input.
Hypothesis lengths_ok : validLengths matchLength.

Lemma tokenAt_advance i : snd (tokenAt input matchOffset matchLength i) = greedyAdvance matchLength i.
Proof. unfold tokenAt, greedyAdvance. now destruct (MIN_MATCH <=? rd matchLength i). Qed.

Lemma greedyAdvance_range i : 0 <= i < size -> 1 <= greedyAdvance matchLength i <= MAX_MATCH.
Proof.
  intros Hi. unfold greedyAdvance.
  assert (H := rd_Forall _ matchLength i lengths_ok).
  simpl in H. rewrite lengths_len in H. specialize (H Hi).
  unfold MIN_MATCH, MAX_MATCH in *. destruct (3 <=? rd matchLength i) eqn:E; lia.
Qed.

Lemma filter_covers_before p c steps :
  contiguous c steps -> p < c -> filter (covers p) steps = [].
Proof.
  revert c. induction steps as [|s rest IH]; intros c Hc Hp; [reflexivity|].
  destruct Hc as (Hs & Hadv & Hrest).
  rewrite filter_cons. destruct (decide (covers p s)) as [Hcov|_].
  - unfold covers in Hcov. lia.
  - apply (IH (c + advance s)); [exact Hrest|lia].
Qed.

Lemma encodeLoop_spec (fuel : nat) (i : Z) :
  0 <= i -> size - i <= Z.of_nat fuel ->
  exists steps,
    encodeLoop fuel input matchOffset matchLength size i = Some steps
    /\ contiguous i steps
    /\ Z.of_nat (length steps) <= Z.max 0 (size - i)
    /\ Forall (fun s => advance s = greedyAdvance matchLength (cursor s)
                        /\ word s = fst (tokenAt input matchOffset matchLength (cursor s))) steps
    /\ forall p, i <= p < size -> length (filter (covers p) steps) = 1%nat.
Proof.
  revert i. induction fuel as [|fuel IH]; intros i Hi Hfuel.
  - exists []. simpl. destruct (size <=? i) eqn:E; [|lia].
    repeat split; [lia|constructor|intros p Hp; lia].
  - cbn [encodeLoop]. destruct (size <=? i) eqn:E.
    { exists []. repeat split; [simpl; lia|constructor|intros p Hp; lia]. }
    assert (Hin : 0 <= i < size) by lia.
    pose proof (greedyAdvance_range i Hin) as Hadv. pose proof (tokenAt_advance i) as Hsnd.
    destruct (tokenAt input matchOffset matchLength i) as [w adv] eqn:Ht. simpl in Hsnd. subst adv.
    unfold MAX_MATCH, INT_MAX in *.
    rewrite u64_small by lia.
    destruct (IH (i + greedyAdvance matchLength i)) as (rest & Hr & Hc & Hl & Hall & Hcov); [lia|lia|].
    rewrite Hr. eexists. split; [reflexivity|].
    split; [cbn [contiguous cursor advance]; repeat split; [lia|exact Hc]|].
    split; [cbn [length]; lia|].
    split; [constructor; [cbn [cursor advance word]; now rewrite Ht|exact Hall]|].
    intros p Hp. rewrite filter_cons.
    destruct (decide (covers p _)) as [Hcv|Hcv]; unfold covers in Hcv; cbn [cursor advance] in Hcv.
    + cbn [length]. f_equal. rewrite (filter_covers_before p _ _ Hc); [reflexivity|lia].
    + apply Hcov. lia.
Qed.

End TokenLoop.

(** C10. On tables whose lengths are below 3 or between 3 and 258, the
    greedy loop of [encodeTokens] finishes within [inputSize] iterations;
    every iteration moves the cursor forward, by the match length when it is
    at least 3 and by 1 otherwise; at most [inputSize] tokens are emitted;
    and every input position lies in the span of exactly one token. *)
Theorem encodeTokens_greedy_cover (input : list byte) (matchOffset matchLength : list Z) :
  Z.of_nat (length input) <= INT_MAX ->
  length matchLength = length input ->
  validLengths matchLength ->
  exists steps,
    encodeSteps input matchOffset matchLength = Some steps
    /\ encodeTokens input matchOffset matchLength = Some (map word steps)
    /\ contiguous 0 steps
    /\ Forall (fun s => advance s = greedyAdvance matchLength (cursor s)) steps
    /\ (length steps <= length input)%nat
    /\ forall p, 0 <= p < Z.of_nat (length input) ->
                 length (filter (covers p) steps) = 1%nat.
Proof.
  intros Hsize Hlen Hok.
  destruct (encodeLoop_spec input matchOffset matchLength Hsize Hlen Hok (length input) 0)
    as (steps & Hs & Hc & Hl & Hall & Hcov); [lia|lia|].
  exists steps. unfold encodeTokens, encodeSteps. rewrite Hs. repeat split.
  - exact Hc.
  - eapply Forall_impl; [|exact Hall]. simpl. intros s [H _]. exact H.
  - lia.
  - exact Hcov.
Qed.

Lemma encodeTokens_greedy_cover_witness :
  let input := ["a"; "b"; "c"; "a"; "b"; "c"; "a"; "b"]%byte in
  let matchOffset := [0; 0; 0; 3; 0; 0; 0; 0] in
  let matchLength := [0; 0; 0; 5; 0; 0; 0; 0] in
  exists steps,
    encodeSteps input matchOffset matchLength = Some steps
    /\ encodeTokens input matchOffset matchLength = Some (map word steps)
    /\ contiguous 0 steps
    /\ Forall (fun s => advance s = greedyAdvance matchLength (cursor s)) steps
    /\ (length steps <= length input)%nat
    /\ forall p, 0 <= p < Z.of_nat (length input) ->
                 length (filter (covers p) steps) = 1%nat.
Proof.
  apply (encodeTokens_greedy_cover ["a"; "b"; "c"; "a"; "b"; "c"; "a"; "b"]%byte
           [0; 0; 0; 3; 0; 0; 0; 0] [0; 0; 0; 5; 0; 0; 0; 0]).
  - vm_compute. discriminate.
  - reflexivity.
  - unfold validLengths, MIN_MATCH, MAX_MATCH. repeat constructor; lia.
Defined.

(** ** LZ77: what the match finder records *)

Section MatchFinder.

Variable input : list byte.
Variable prev0 : list Z.
Variable evs : list HashEvent.

Let size := Z.of_nat (length input).

Hypothesis size_int : size <= INT_MAX.
Hypothesis evs_order : hashOrder (length input) evs.

Lemma built_inv : chainInv input prev0 (length input - 2) (buildHashTable input prev0 evs).
Proof.
  destruct evs_order as [Hins Hlate]. apply buildHashTable_inv; [exact Hins|exact Hlate|].
  unfold size, INT_MAX in size_int. lia.
Qed.

(** The head of the chain of an inserted position: -1 after a store of
    another block, and otherwise the last position inserted with that hash,
    which is the position itself or a later one. *)
Lemma head_not_before (j : nat) :
  (j + 2 < length input)%nat ->
  let pos := rd (hashHead (buildHashTable input prev0 evs)) (hashAt input (Z.of_nat j)) in
  pos < 2 ^ 31 /\ ((256 <= hashAt input (Z.of_nat j) /\ pos = -1) \/ Z.of_nat j <= pos).
Proof.
  intros Hj pos. destruct built_inv as [Hhl _ Hh _ Hlast].
  pose proof (hashAt_range input (Z.of_nat j)) as Hr.
  assert (Hv : -1 <= pos < Z.of_nat (length input - 2)).
  { apply (rd_Forall (fun v => -1 <= v < Z.of_nat (length input - 2))); [exact Hh|].
    rewrite Hhl. lia. }
  unfold size, INT_MAX in size_int. split; [lia|]. apply Hlast. lia.
Qed.

Lemma matchRun_le fuel pos idx len :
  matchRun fuel input size pos idx len <= Z.max len (Z.min MAX_MATCH (size - idx)).
Proof.
  revert len. induction fuel as [|fuel IH]; intros len; cbn [matchRun]; [lia|].
  destruct (len <? MAX_MATCH) eqn:E1; cbn [andb]; [|lia].
  destruct (idx + len <? size) eqn:E2; cbn [andb]; [|lia].
  destruct (byte_at input (pos + len) =? byte_at input (idx + len)); [|lia].
  specialize (IH (len + 1)). zbool. lia.
Qed.

Lemma matchRun_self fuel idx len :
  0 <= len <= Z.min MAX_MATCH (size - idx) ->
  Z.min MAX_MATCH (size - idx) - len <= Z.of_nat fuel ->
  matchRun fuel input size idx idx len = Z.min MAX_MATCH (size - idx).
Proof.
  revert len. induction fuel as [|fuel IH]; intros len Hlen Hfuel; cbn [matchRun]; [lia|].
  destruct (len <? MAX_MATCH) eqn:E1; cbn [andb]; [|zbool; lia].
  destruct (idx + len <? size) eqn:E2; cbn [andb]; [|zbool; lia].
  rewrite Z.eqb_refl. zbool. apply IH; lia.
Qed.

(** Once the longest possible run has been recorded, no later candidate of
    the walk replaces it. *)
Lemma chainWalk_saturated limit prev idx pos off :
  chainWalk limit input prev size idx pos off (Z.min MAX_MATCH (size - idx))
  = (off, Z.min MAX_MATCH (size - idx)).
Proof.
  revert pos. induction limit as [|limit IH]; intros pos; cbn [chainWalk]; [reflexivity|].
  destruct ((0 <=? pos) && (u64 (idx - pos) <=? WINDOW_SIZE)); [|reflexivity].
  pose proof (matchRun_le (Z.to_nat MAX_MATCH) pos idx 0) as Hle.
  destruct ((MIN_MATCH <=? matchRun (Z.to_nat MAX_MATCH) input size pos idx 0)
            && (Z.min MAX_MATCH (size - idx) <? matchRun (Z.to_nat MAX_MATCH) input size pos idx 0))
    eqn:E; [|apply IH].
  apply andb_prop in E as [E1 E2]. zbool. unfold MIN_MATCH, MAX_MATCH in *. lia.
Qed.

(** The first hop of the walk decides. With no head the loop is not
    entered. *)
Lemma chainWalk_no_head limit prev idx :
  chainWalk (S limit) input prev size idx (-1) 0 0 = (0, 0).
Proof. reflexivity. Qed.

(** A head after [idx] ends the walk at once: [idx - pos] wraps around in
    [size_t] and exceeds the window. *)
Lemma chainWalk_head_after limit prev idx pos :
  0 <= idx < pos -> pos < 2 ^ 31 ->
  chainWalk (S limit) input prev size idx pos 0 0 = (0, 0).
Proof.
  intros Hidx Hpos. cbn [chainWalk].
  replace (u64 (idx - pos) <=? WINDOW_SIZE) with false; [now rewrite andb_false_r|].
  symmetry. apply Z.leb_gt. unfold u64, WINDOW_SIZE.
  replace (idx - pos) with (-(pos - idx)) by lia.
  rewrite Z.mod_opp_l_nz; rewrite ?(Z.mod_small (pos - idx)); lia.
Qed.

(** The head [idx] itself records the run of [idx] against itself. *)
Lemma chainWalk_head_self limit prev idx :
  0 <= idx -> idx + 2 < size ->
  chainWalk (S limit) input prev size idx idx 0 0 = (0, Z.min MAX_MATCH (size - idx)).
Proof.
  intros Hidx Hsz. cbn [chainWalk]. rewrite Z.sub_diag.
  replace ((0 <=? idx) && (u64 0 <=? WINDOW_SIZE)) with true
    by (symmetry; apply andb_true_intro; split; [apply Z.leb_le; lia|reflexivity]).
  rewrite (matchRun_self (Z.to_nat MAX_MATCH) idx 0) by (unfold MAX_MATCH; lia).
  replace ((MIN_MATCH <=? Z.min MAX_MATCH (size - idx))
           && (0 <? Z.min MAX_MATCH (size - idx))) with true
    by (symmetry; apply andb_true_intro; unfold MIN_MATCH, MAX_MATCH;
        split; [apply Z.leb_le|apply Z.ltb_lt]; lia).
  change (to_int 0) with 0. apply chainWalk_saturated.
Qed.

Lemma findMatchAt_unfold (idx : nat) :
  (idx + 2 < length input)%nat ->
  findMatchAt input (buildHashTable input prev0 evs) idx
  = chainWalk 64 input (hashPrev (buildHashTable input prev0 evs)) size (Z.of_nat idx)
      (rd (hashHead (buildHashTable input prev0 evs)) (hashAt input (Z.of_nat idx))) 0 0.
Proof.
  intros Hidx. unfold findMatchAt. fold size.
  destruct (size <=? Z.of_nat idx + 2) eqn:E; [zbool; unfold size in E; lia|reflexivity].
Qed.

(** What a position records: nothing, or the run against itself. *)
Lemma findMatchAt_spec (idx : nat) :
  findMatchAt input (buildHashTable input prev0 evs) idx = (0, 0)
  \/ (Z.of_nat idx + 2 < size
      /\ findMatchAt input (buildHashTable input prev0 evs) idx
         = (0, Z.min MAX_MATCH (size - Z.of_nat idx))).
Proof.
  destruct (decide (idx + 2 < length input)%nat) as [Hidx|Hidx].
  - rewrite findMatchAt_unfold by exact Hidx.
    destruct (head_not_before idx Hidx) as [Hlt [[_ ->]|Hge]].
    + left. apply chainWalk_no_head.
    + set (pos := rd _ _) in *. destruct (decide (pos = Z.of_nat idx)) as [->|Hne].
      * right. split; [unfold size; lia|]. apply chainWalk_head_self; unfold size; lia.
      * left. apply chainWalk_head_after; lia.
  - left. unfold findMatchAt. fold size.
    destruct (size <=? Z.of_nat idx + 2) eqn:E; [reflexivity|zbool; unfold size in E; lia].
Qed.

(** A position whose hash occurs again later in the input records nothing:
    the head of its chain is -1, or that later position, or one after it. *)
Lemma findMatchAt_shadowed (idx j : nat) :
  (idx < j)%nat -> (j + 2 < length input)%nat ->
  hashAt input (Z.of_nat j) = hashAt input (Z.of_nat idx) ->
  findMatchAt input (buildHashTable input prev0 evs) idx = (0, 0).
Proof.
  intros Hij Hj Hhash. rewrite findMatchAt_unfold by lia.
  destruct (head_not_before j Hj) as [Hlt Hhead]. rewrite Hhash in Hlt, Hhead.
  destruct Hhead as [[_ ->]|Hge]; [apply chainWalk_no_head|].
  apply chainWalk_head_after; lia.
Qed.

(** The last inserted position with a hash below 256, a head that no other
    block stores to, records the run against itself. *)
Lemma findMatchAt_last (idx : nat) :
  (idx + 3 = length input)%nat -> hashAt input (Z.of_nat idx) < 256 ->
  findMatchAt input (buildHashTable input prev0 evs) idx = (0, 3).
Proof.
  intros Hidx Hlow. rewrite findMatchAt_unfold by lia.
  destruct (head_not_before idx ltac:(lia)) as [_ [[Hh _]|Hge]]; [lia|].
  destruct built_inv as [Hhl _ Hh _ _].
  pose proof (hashAt_range input (Z.of_nat idx)) as Hr.
  pose proof (rd_Forall (fun v => -1 <= v < Z.of_nat (length input - 2)) _
                (hashAt input (Z.of_nat idx)) Hh ltac:(rewrite Hhl; lia)) as Hv.
  simpl in Hv.
  replace (rd (hashHead (buildHashTable input prev0 evs)) (hashAt input (Z.of_nat idx)))
    with (Z.of_nat idx) by lia.
  rewrite chainWalk_head_self by (unfold size; lia).
  f_equal. unfold size, MAX_MATCH. lia.
Qed.

(** The match finder never records a backward match: the offset stored at
    every position is 0. *)
Lemma findMatches_offsets_zero :
  fst (findMatches input (buildHashTable input prev0 evs)) = replicate (length input) 0.
Proof.
  unfold findMatches. cbn [fst]. rewrite map_map.
  assert (H : forall l : list nat,
             map (fun x => fst (findMatchAt input (buildHashTable input prev0 evs) x)) l
             = replicate (length l) 0).
  { induction l as [|x l IH]; [reflexivity|]. cbn [map length replicate]. rewrite IH. f_equal.
    destruct (findMatchAt_spec x) as [->|[_ ->]]; reflexivity. }
  rewrite H. now rewrite length_seq.
Qed.

Lemma findMatches_lengths :
  length (snd (findMatches input (buildHashTable input prev0 evs))) = length input
  /\ validLengths (snd (findMatches input (buildHashTable input prev0 evs))).
Proof.
  unfold findMatches. cbn [snd]. rewrite map_map. split.
  - now rewrite length_map, length_seq.
  - unfold validLengths. apply Forall_forall. intros len Hin.
    apply in_map_iff in Hin as (idx & <- & _).
    destruct (findMatchAt_spec idx) as [->|[Hidx ->]]; cbn [snd];
      unfold MIN_MATCH, MAX_MATCH; lia.
Qed.

Lemma lz77Tokens_tables :
  lz77Tokens input prev0 evs
  = encodeTokens input (fst (findMatches input (buildHashTable input prev0 evs)))
                 (snd (findMatches input (buildHashTable input prev0 evs))).
Proof.
  unfold lz77Tokens. now destruct (findMatches input (buildHashTable input prev0 evs)).
Qed.

(** The device stage of [lz77Compress] produces a token stream for every
    input, of at most one word per input byte. *)
Lemma lz77Tokens_total :
  exists tokens, lz77Tokens input prev0 evs = Some tokens
                 /\ (length tokens <= length input)%nat.
Proof.
  rewrite lz77Tokens_tables.
  pose proof findMatches_lengths as [Hlen Hok].
  destruct (encodeLoop_spec input (fst (findMatches input (buildHashTable input prev0 evs)))
              _ size_int Hlen Hok (length input) 0)
    as (steps & Hs & _ & Hle & _); [lia|lia|].
  exists (map word steps). unfold encodeTokens, encodeSteps. rewrite Hs, length_map.
  split; [reflexivity|lia].
Qed.

End MatchFinder.

(** C1. The round trip fails. On the three bytes "abc", with the loop
    running after the other blocks, position 0 is the head of its own hash
    chain, [findMatches] records the run of position 0 against itself
    (length 3, offset 0), [encodeTokens] emits the single match word
    0x80000000, and a copy from 0 bytes back has nothing to copy from. On
    three zero bytes, whose hash 0 is a head of block 0, this is so in every
    execution order. And on every input and in every order the offset
    recorded at every position is 0. *)
Theorem lz77_roundtrip_fails :
  (forall prev0 : list Z,
      lz77Tokens ["a"; "b"; "c"]%byte prev0 (loopOrder 3) = Some [2147483648]
      /\ (tokens ← lz77Tokens ["a"; "b"; "c"]%byte prev0 (loopOrder 3); decodeTokens tokens)
         <> Some ["a"; "b"; "c"]%byte)
  /\ (forall (prev0 : list Z) (evs : list HashEvent),
        hashOrder 3 evs ->
        lz77Tokens ["000"; "000"; "000"]%byte prev0 evs = Some [2147483648])
  /\ decodeTokens [2147483648] = None
  /\ (forall (input : list byte) (prev0 : list Z) (evs : list HashEvent),
        Z.of_nat (length input) <= INT_MAX -> hashOrder (length input) evs ->
        fst (findMatches input (buildHashTable input prev0 evs))
        = replicate (length input) 0).
Proof.
  split; [|split; [|split]].
  - intros prev0.
    assert (H : lz77Tokens ["a"; "b"; "c"]%byte prev0 (loopOrder 3) = Some [2147483648]).
    { destruct prev0 as [|z l]; vm_compute; reflexivity. }
    rewrite H. split; [reflexivity|]. vm_compute. discriminate.
  - intros prev0 evs Hord.
    assert (Hsize : Z.of_nat (length ["000"; "000"; "000"]%byte) <= INT_MAX)
      by (vm_compute; discriminate).
    rewrite (lz77Tokens_tables _ prev0 evs). unfold findMatches. cbn [length seq map fst snd].
    rewrite (findMatchAt_last _ prev0 evs Hsize Hord 0) by (try reflexivity; vm_compute; reflexivity).
    unfold findMatchAt. cbn [length]. vm_compute. reflexivity.
  - vm_compute. reflexivity.
  - intros input prev0 evs Hsize Hord. now apply findMatches_offsets_zero.
Qed.

Lemma lz77_roundtrip_fails_witness :
  lz77Tokens ["000"; "000"; "000"]%byte [0; 0; 0] [Insert 0; Reset 300] = Some [2147483648]
  /\ fst (findMatches ["a"; "b"; "c"; "a"; "b"; "c"]%byte
            (buildHashTable ["a"; "b"; "c"; "a"; "b"; "c"]%byte [] (loopOrder 6)))
     = [0; 0; 0; 0; 0; 0].
Proof.
  destruct lz77_roundtrip_fails as (_ & Hzero & _ & Hoff). split.
  - apply Hzero. split; [reflexivity|]. unfold lateReset. repeat constructor; vm_compute; discriminate.
  - apply (Hoff ["a"; "b"; "c"; "a"; "b"; "c"]%byte [] (loopOrder 6)).
    + vm_compute. discriminate.
    + apply loopOrder_ok.
Defined.

(** *** The repetition scenario *)

Lemma length_abcd n : length (abcd n) = (4 * n)%nat.
Proof.
  induction n as [|n IH]; [reflexivity|].
  change (abcd (S n)) with (["A"; "B"; "C"; "D"]%byte ++ abcd n).
  rewrite length_app, IH. cbn [length]. lia.
Qed.

Lemma abcd_period n k : (k + 4 < 4 * n)%nat -> abcd n !! (k + 4)%nat = abcd n !! k.
Proof.
  revert k. induction n as [|n IH]; intros k Hk; [lia|].
  change (abcd (S n)) with (["A"; "B"; "C"; "D"]%byte ++ abcd n).
  rewrite (lookup_app_r _ _ (k + 4)) by (cbn [length]; lia).
  replace (k + 4 - length ["A"; "B"; "C"; "D"]%byte)%nat with k by (cbn [length]; lia).
  destruct (decide (k < 4)%nat) as [Hlt|Hge].
  - destruct n as [|n]; [lia|].
    change (abcd (S n)) with (["A"; "B"; "C"; "D"]%byte ++ abcd n).
    rewrite !(lookup_app_l _ _ k) by (cbn [length]; lia). reflexivity.
  - rewrite (lookup_app_r _ _ k) by (cbn [length]; lia).
    cbn [length]. rewrite <- (IH (k - 4)%nat) by lia. f_equal. lia.
Qed.

Lemma byte_at_abcd_period n i :
  0 <= i -> i + 4 < Z.of_nat (4 * n) -> byte_at (abcd n) (i + 4) = byte_at (abcd n) i.
Proof.
  intros Hi Hn. unfold byte_at.
  replace (Z.to_nat (i + 4)) with (Z.to_nat i + 4)%nat by lia.
  rewrite abcd_period by lia. reflexivity.
Qed.

(** The greedy loop emits one literal for each position of a prefix on
    which no match is recorded. *)
Lemma encodeLoop_literals input mo ml size m :
  (forall i, 0 <= i < m -> rd ml i < MIN_MATCH) -> m <= size -> size <= INT_MAX ->
  forall fuel c steps,
    0 <= c <= m -> encodeLoop fuel input mo ml size c = Some steps ->
    m - c <= Z.of_nat (length steps).
Proof.
  intros Hlit Hm Hsize fuel. induction fuel as [|fuel IH]; intros c steps Hc Hrun.
  - cbn [encodeLoop] in Hrun. destruct (size <=? c) eqn:E; [|discriminate].
    inversion Hrun; subst. zbool. simpl. lia.
  - cbn [encodeLoop] in Hrun. destruct (size <=? c) eqn:E.
    { inversion Hrun; subst. zbool. simpl. lia. }
    destruct (decide (c = m)) as [->|Hne]; [lia|].
    unfold tokenAt in Hrun. specialize (Hlit c ltac:(lia)).
    replace (MIN_MATCH <=? rd ml c) with false in Hrun by (symmetry; apply Z.leb_gt; lia).
    unfold INT_MAX in Hsize. rewrite u64_small in Hrun by lia.
    destruct (encodeLoop fuel input mo ml size (c + 1)) as [rest|] eqn:Er; [|discriminate].
    simpl in Hrun. inversion Hrun; subst. specialize (IH (c + 1) rest ltac:(lia) Er).
    cbn [length]. lia.
Qed.

Lemma rd_findMatches input t (i : nat) :
  (i < length input)%nat ->
  (rd (fst (findMatches input t)) (Z.of_nat i), rd (snd (findMatches input t)) (Z.of_nat i))
  = findMatchAt input t i.
Proof.
  intros Hi. unfold findMatches, rd. cbn [fst snd]. rewrite Nat2Z.id.
  rewrite !list_lookup_fmap, lookup_seq_lt by exact Hi. simpl.
  now destruct (findMatchAt input t i).
Qed.

Section Repetition.

Variable n : nat.
Variable prev0 : list Z.
Variable evs : list HashEvent.

Hypothesis n_int : Z.of_nat (4 * n) <= INT_MAX.
Hypothesis evs_order : hashOrder (4 * n) evs.

Let input := abcd n.
Let tables := findMatches input (buildHashTable input prev0 evs).

Lemma abcd_size : Z.of_nat (length input) <= INT_MAX.
Proof. unfold input. rewrite length_abcd. exact n_int. Qed.

Lemma abcd_order : hashOrder (length input) evs.
Proof. unfold input. rewrite length_abcd. exact evs_order. Qed.

(** No position that has a full repetition after it records a match. *)
Lemma abcd_no_match (idx : nat) :
  (idx + 6 < 4 * n)%nat -> findMatchAt input (buildHashTable input prev0 evs) idx = (0, 0).
Proof.
  intros Hidx. apply (findMatchAt_shadowed input prev0 evs abcd_size abcd_order idx (idx + 4)).
  - lia.
  - unfold input. rewrite length_abcd. lia.
  - unfold hashAt. replace (Z.of_nat (idx + 4)) with (Z.of_nat idx + 4) by lia.
    replace (Z.of_nat idx + 4 + 1) with (Z.of_nat idx + 1 + 4) by lia.
    replace (Z.of_nat idx + 4 + 2) with (Z.of_nat idx + 2 + 4) by lia.
    unfold input. rewrite !byte_at_abcd_period by lia. reflexivity.
Qed.

Lemma abcd_tables (i : Z) :
  0 <= i < Z.of_nat (4 * n) - 6 -> (rd (fst tables) i, rd (snd tables) i) = (0, 0).
Proof.
  intros Hi. rewrite <- (Z2Nat.id i) by lia. unfold tables.
  rewrite rd_findMatches by (unfold input; rewrite length_abcd; lia).
  apply abcd_no_match. lia.
Qed.

(** The token stream has a literal word for each of these positions, so it
    takes four bytes for each of them. *)
Lemma abcd_compressed (dst : Dest) :
  exists r dst',
    lz77Compress input prev0 evs dst = Some (r, dst')
    /\ originalSize r = Z.of_nat (4 * n)
    /\ 4 * (Z.of_nat (4 * n) - 6) <= compressedSize r.
Proof.
  assert (Hlen : length input = (4 * n)%nat) by apply length_abcd.
  pose proof abcd_size as Hsize.
  unfold lz77Compress. rewrite lz77Tokens_tables. fold input tables.
  set (mo := fst tables). set (ml := snd tables).
  pose proof (findMatches_lengths input prev0 evs Hsize abcd_order) as [Hl Hok].
  fold tables ml in Hl, Hok.
  destruct (encodeLoop_spec input mo ml Hsize Hl Hok (length input) 0)
    as (steps & Hs & _ & Hle & _); [lia|lia|].
  assert (Hge : Z.of_nat (4 * n) - 6 - 0 <= Z.of_nat (length steps)).
  { destruct (decide (Z.of_nat (4 * n) - 6 <= 0)) as [|Hpos]; [lia|].
    apply (encodeLoop_literals input mo ml (Z.of_nat (length input)) (Z.of_nat (4 * n) - 6))
      with (fuel := length input); [|lia|exact Hsize|lia|exact Hs].
    intros i Hi. pose proof (abcd_tables i ltac:(lia)) as Ht.
    change (rd ml i) with (snd (rd (fst tables) i, rd (snd tables) i)).
    rewrite Ht. unfold MIN_MATCH. simpl. lia. }
  unfold encodeTokens, encodeSteps. rewrite Hs. simpl.
  eexists _, _. split; [reflexivity|]. unfold lz77Finish. cbn [fst originalSize compressedSize
    setCompressedSize initResult]. rewrite length_map.
  unfold INT_MAX in *. rewrite u32_small, u64_small by lia. lia.
Qed.

End Repetition.

(** C3. On "ABCD" repeated 1000 times, in every execution order, the match
    finder records no match (offset 0, length 0) at any position of the
    second and later repetitions up to 3993, and the token stream takes at
    least 15976 bytes for the 4000 bytes of input. *)
Theorem lz77_abcd_1000 (prev0 : list Z) (evs : list HashEvent) (dst : Dest) :
  hashOrder 4000 evs ->
  let input := abcd 1000 in
  let tables := findMatches input (buildHashTable input prev0 evs) in
  (forall i, 4 <= i < 3994 -> (rd (fst tables) i, rd (snd tables) i) = (0, 0))
  /\ exists r dst',
       lz77Compress input prev0 evs dst = Some (r, dst')
       /\ originalSize r = 4000 /\ 15976 <= compressedSize r.
Proof.
  intros Hord.
  assert (Hn : Z.of_nat (4 * 1000) <= INT_MAX) by (unfold INT_MAX; lia).
  split.
  - intros i Hi. apply (abcd_tables 1000 prev0 evs Hn Hord). lia.
  - destruct (abcd_compressed 1000 prev0 evs Hn Hord dst) as (r & dst' & H1 & H2 & H3).
    exists r, dst'. split; [exact H1|]. split; lia.
Qed.

Lemma lz77_abcd_1000_witness :
  let tables := findMatches (abcd 1000) (buildHashTable (abcd 1000) [] (loopOrder 4000)) in
  (rd (fst tables) 4, rd (snd tables) 4) = (0, 0).
Proof.
  apply (lz77_abcd_1000 [] (loopOrder 4000) (mkDest [] 0 []) (loopOrder_ok 4000)). lia.
Defined.

(** ** E8: the root table *)

Section RootStores.

Lemma length_store roots w : length (store roots w) = length roots.
Proof. unfold store. apply length_insert. Qed.

Lemma length_foldl_store ws roots : length (foldl store roots ws) = length roots.
Proof.
  revert roots. induction ws as [|w ws IH]; intros roots; [reflexivity|].
  cbn [foldl]. now rewrite IH, length_store.
Qed.

Lemma lookup_foldl_store ws : forall roots (k : nat),
  Forall (fun w => (Z.to_nat (fst w) < length roots)%nat) ws ->
  foldl store roots ws !! k
  = match lastWrite k ws with Some v => Some v | None => roots !! k end.
Proof.
  induction ws as [|w ws IH]; intros roots k Hin; [reflexivity|].
  inversion Hin as [|? ? Hw Hws]; subst. cbn [foldl lastWrite].
  rewrite IH by (eapply Forall_impl; [|exact Hws]; simpl; intros; now rewrite length_store).
  destruct (lastWrite k ws); [reflexivity|]. unfold store.
  destruct (Nat.eqb_spec (Z.to_nat (fst w)) k) as [Heq|Hne].
  - subst k. now rewrite list_lookup_insert_eq by exact Hw.
  - now rewrite list_lookup_insert_ne by exact Hne.
Qed.

Lemma lastWrite_app k a b :
  lastWrite k (a ++ b)
  = match lastWrite k b with Some v => Some v | None => lastWrite k a end.
Proof.
  induction a as [|w a IH]; cbn [app lastWrite].
  - now destruct (lastWrite k b).
  - rewrite IH. now destruct (lastWrite k b).
Qed.

Lemma lastWrite_other k ws :
  Forall (fun w => Z.to_nat (fst w) <> k) ws -> lastWrite k ws = None.
Proof.
  induction ws as [|w ws IH]; intros H; [reflexivity|].
  inversion H as [|? ? Hw Hws]; subst. cbn [lastWrite]. rewrite (IH Hws).
  now destruct (Nat.eqb_spec (Z.to_nat (fst w)) k).
Qed.

Lemma initE8Roots_stores sched : forall roots,
  initE8Roots sched roots = foldl store roots (allWrites sched).
Proof.
  induction sched as [|tid sched IH]; intros roots; [reflexivity|].
  unfold initE8Roots, allWrites in *. cbn [foldl map concat].
  rewrite IH. unfold runThread. now rewrite foldl_app.
Qed.

(** Every store of a thread goes to one of the eight slots of its own
    vector, and every slot of the table is stored to by its thread. *)
Lemma threads_own_slots : forallb ownSlots threadIds = true.
Proof. vm_compute. reflexivity. Qed.

Lemma slots_all_stored : forallb (fun k => bool_decide (is_Some (slotValue k))) (seq 0 1920) = true.
Proof. vm_compute. reflexivity. Qed.

Lemma own_slots tid w :
  In tid threadIds -> In w (threadWrites tid) ->
  0 <= fst w < 1920 /\ fst w / 8 = tid.
Proof.
  intros Ht Hw. pose proof threads_own_slots as H.
  rewrite forallb_forall in H. specialize (H tid Ht). unfold ownSlots in H.
  rewrite forallb_forall in H. specialize (H w Hw).
  apply andb_prop in H as [H H3]. apply andb_prop in H as [H1 H2]. lia.
Qed.

Lemma lastWrite_foreign (k : nat) tid :
  In tid threadIds -> tid <> Z.of_nat (k / 8) -> lastWrite k (threadWrites tid) = None.
Proof.
  intros Ht Hne. apply lastWrite_other. apply Forall_forall. intros w Hw.
  destruct (own_slots tid w Ht Hw) as [Hr Hq]. intros <-. apply Hne.
  rewrite <- Hq. rewrite Nat2Z.inj_div, Z2Nat.id by lia. reflexivity.
Qed.

Lemma lastWrite_schedule (k : nat) sched :
  (forall tid, tid ∈ sched -> In tid threadIds) ->
  lastWrite k (allWrites sched)
  = if bool_decide (Z.of_nat (k / 8) ∈ sched) then slotValue k else None.
Proof.
  induction sched as [|tid sched IH]; intros Hin; [reflexivity|].
  unfold allWrites in *. cbn [map concat]. rewrite lastWrite_app.
  rewrite IH by (intros t Ht; apply Hin; apply elem_of_cons; now right).
  destruct (decide (tid = Z.of_nat (k / 8))) as [->|Hne].
  - rewrite (bool_decide_eq_true_2 (_ ∈ _ :: sched)) by (apply elem_of_cons; now left).
    fold (slotValue k). case_bool_decide; [|reflexivity]. now destruct (slotValue k).
  - rewrite (lastWrite_foreign k tid)
      by (try exact Hne; apply Hin; apply elem_of_cons; now left).
    case_bool_decide as H1; case_bool_decide as H2.
    + now destruct (slotValue k).
    + exfalso. apply H2. apply elem_of_cons. now right.
    + exfalso. apply H1. apply elem_of_cons in H2 as [H2|H2]; [congruence|exact H2].
    + reflexivity.
Qed.

(** Whatever the order of the threads and whatever the buffer held before,
    the launch leaves the same table. *)
Lemma initE8Roots_table sched roots :
  sched ≡ₚ threadIds -> length roots = 1920%nat -> initE8Roots sched roots = rootTable.
Proof.
  intros Hperm Hlen. rewrite initE8Roots_stores.
  assert (Hmem : forall tid, tid ∈ sched <-> In tid threadIds).
  { intros tid. rewrite <- list_elem_of_In. now rewrite Hperm. }
  assert (Hall : Forall (fun w => (Z.to_nat (fst w) < length roots)%nat) (allWrites sched)).
  { apply Forall_forall. intros w Hw. unfold allWrites in Hw.
    apply in_concat in Hw as (ws & Hws & Hw). apply in_map_iff in Hws as (tid & <- & Ht).
    apply list_elem_of_In in Ht.
    destruct (own_slots tid w (proj1 (Hmem tid) Ht) Hw) as [Hr _]. lia. }
  apply list_eq. intros k.
  destruct (decide (k < 1920)%nat) as [Hk|Hk].
  - rewrite (lookup_foldl_store _ _ _ Hall).
    rewrite lastWrite_schedule by (intros tid; apply Hmem).
    rewrite bool_decide_eq_true_2.
    + pose proof slots_all_stored as Hs. rewrite forallb_forall in Hs.
      specialize (Hs k ltac:(apply in_seq; lia)). apply bool_decide_eq_true_1 in Hs as [v Hv].
      rewrite Hv. unfold rootTable. rewrite list_lookup_fmap, lookup_seq_lt by exact Hk.
      simpl. now rewrite Hv.
    + apply Hmem. unfold threadIds. apply in_map. apply in_seq.
      pose proof (Nat.Div0.div_lt_upper_bound k 8 240). lia.
  - rewrite !lookup_ge_None_2; [reflexivity| |].
    + unfold rootTable. rewrite length_map, length_seq. lia.
    + rewrite length_foldl_store. lia.
Qed.

End RootStores.

(** C9. Two runs of the generator, with any two thread orders and any two
    initial contents of the buffer, produce the same 240-by-8 array, and
    the value in each slot is [slotValue] of the slot index. *)
Theorem initE8Roots_deterministic (sched1 sched2 : list Z) (roots1 roots2 : list Q) :
  sched1 ≡ₚ threadIds -> sched2 ≡ₚ threadIds ->
  length roots1 = 1920%nat -> length roots2 = 1920%nat ->
  initE8Roots sched1 roots1 = initE8Roots sched2 roots2
  /\ length (initE8Roots sched1 roots1) = 1920%nat
  /\ forall k, (k < 1920)%nat -> initE8Roots sched1 roots1 !! k = slotValue k.
Proof.
  intros H1 H2 L1 L2.
  rewrite (initE8Roots_table sched1 roots1 H1 L1), (initE8Roots_table sched2 roots2 H2 L2).
  split; [reflexivity|]. split; [reflexivity|].
  intros k Hk. unfold rootTable. rewrite list_lookup_fmap, lookup_seq_lt by exact Hk. simpl.
  pose proof slots_all_stored as Hs. rewrite forallb_forall in Hs.
  specialize (Hs k ltac:(apply in_seq; lia)). apply bool_decide_eq_true_1 in Hs as [v Hv].
  now rewrite Hv.
Qed.

Lemma initE8Roots_deterministic_witness :
  initE8Roots threadIds (replicate 1920 0%Q) = initE8Roots (reverse threadIds) (replicate 1920 1%Q)
  /\ length (initE8Roots threadIds (replicate 1920 0%Q)) = 1920%nat
  /\ forall k, (k < 1920)%nat -> initE8Roots threadIds (replicate 1920 0%Q) !! k = slotValue k.
Proof.
  apply (initE8Roots_deterministic threadIds (reverse threadIds)
           (replicate 1920 0%Q) (replicate 1920 1%Q)).
  - reflexivity.
  - apply reverse_Permutation.
  - apply length_replicate.
  - apply length_replicate.
Defined.

(** C2. The table is not the E8 root system. Slot 0 holds (-1,0,...,0),
    which has one non-zero entry; slots 0 and 1 hold the same vector, and so
    do slots 112 and 113; slot 114 holds a vector with one minus sign; no
    slot below 112 holds a type-A root, and 64 of the 240 slots hold a
    vector of their family. *)
Theorem initE8Roots_not_root_system (sched : list Z) (roots0 : list Q) :
  sched ≡ₚ threadIds -> length roots0 = 1920%nat ->
  let roots := initE8Roots sched roots0 in
  rootAt roots 0 = [(-1)%Q; 0%Q; 0%Q; 0%Q; 0%Q; 0%Q; 0%Q; 0%Q]
  /\ inFamily 0 (rootAt roots 0) = false
  /\ rootAt roots 1 = rootAt roots 0
  /\ rootAt roots 113 = rootAt roots 112
  /\ rootAt roots 114 = [(-1 # 2)%Q; (1 # 2)%Q; (1 # 2)%Q; (1 # 2)%Q;
                         (1 # 2)%Q; (1 # 2)%Q; (1 # 2)%Q; (1 # 2)%Q]
  /\ inFamily 114 (rootAt roots 114) = false
  /\ existsb (fun tid => isTypeA (rootAt roots tid)) (seq 0 112) = false
  /\ length (filter (fun tid => inFamily tid (rootAt roots tid) = true) (seq 0 240)) = 64%nat.
Proof.
  intros Hperm Hlen roots. unfold roots. rewrite (initE8Roots_table sched roots0 Hperm Hlen).
  vm_compute. repeat split; reflexivity.
Qed.

Lemma initE8Roots_not_root_system_witness :
  let roots := initE8Roots threadIds (replicate 1920 0%Q) in
  rootAt roots 0 = [(-1)%Q; 0%Q; 0%Q; 0%Q; 0%Q; 0%Q; 0%Q; 0%Q]
  /\ inFamily 0 (rootAt roots 0) = false
  /\ rootAt roots 1 = rootAt roots 0
  /\ rootAt roots 113 = rootAt roots 112
  /\ rootAt roots 114 = [(-1 # 2)%Q; (1 # 2)%Q; (1 # 2)%Q; (1 # 2)%Q;
                         (1 # 2)%Q; (1 # 2)%Q; (1 # 2)%Q; (1 # 2)%Q]
  /\ inFamily 114 (rootAt roots 114) = false
  /\ existsb (fun tid => isTypeA (rootAt roots tid)) (seq 0 112) = false
  /\ length (filter (fun tid => inFamily tid (rootAt roots tid) = true) (seq 0 240)) = 64%nat.
Proof.
  apply (initE8Roots_not_root_system threadIds (replicate 1920 0%Q)).
  - reflexivity.
  - apply length_replicate.
Defined.

(** ** Range coder: the histogram *)

Lemma byteZ_range b : 0 <= byteZ b < 256.
Proof. unfold byteZ. pose proof (Byte.to_N_bounded b). lia. Qed.

Lemma byte_at_range input i : 0 <= byte_at input i < 256.
Proof. unfold byte_at. destruct (input !! Z.to_nat i); [apply byteZ_range|lia]. Qed.

Lemma u32_range x : 0 <= u32 x < 2 ^ 32.
Proof. unfold u32. apply Z.mod_pos_bound. lia. Qed.

Lemma u32_add_l x y : u32 (u32 x + y) = u32 (x + y).
Proof. unfold u32. apply Zplus_mod_idemp_l. Qed.

Lemma u32_add_r x y : u32 (x + u32 y) = u32 (x + y).
Proof. unfold u32. apply Zplus_mod_idemp_r. Qed.

Lemma sumZ_app a b : sumZ (a ++ b) = sumZ a + sumZ b.
Proof. unfold sumZ. induction a as [|x a IH]; cbn [app foldr]; lia. Qed.

Lemma sumZ_perm a b : a ≡ₚ b -> sumZ a = sumZ b.
Proof. unfold sumZ. induction 1; cbn [foldr]; lia. Qed.

Lemma sumZ_map_u32 {A} (f : A -> Z) l : u32 (sumZ (map (fun x => u32 (f x)) l)) = u32 (sumZ (map f l)).
Proof.
  unfold sumZ. induction l as [|x l IH]; [reflexivity|]. cbn [map foldr].
  rewrite u32_add_l, <- u32_add_r, IH, u32_add_r. reflexivity.
Qed.

Lemma counters_zero : counters (replicate 256 0).
Proof. split; [apply length_replicate|apply Forall_replicate; lia]. Qed.

Lemma counters_wr h i v : counters h -> counters (wr h i (u32 v)).
Proof.
  intros [Hl Hr]. split; [now rewrite length_wr|].
  unfold wr. apply Forall_insert; [exact Hr|apply u32_range].
Qed.

Lemma counters_rd h i : counters h -> 0 <= rd h i < 2 ^ 32.
Proof.
  intros [Hl Hr]. unfold rd. destruct (h !! Z.to_nat i) as [v|] eqn:E; simpl; [|lia].
  eapply Forall_lookup_1 in Hr; [exact Hr|exact E].
Qed.

Lemma rd_wr h i v s :
  counters h -> 0 <= i < 256 -> 0 <= s ->
  rd (wr h i v) s = if i =? s then v else rd h s.
Proof.
  intros [Hl _] Hi Hs. destruct (Z.eqb_spec i s) as [->|Hne].
  - apply rd_wr_eq. lia.
  - apply rd_wr_ne; lia.
Qed.

Section Histogram.

Variable input : list byte.

Lemma counters_foldl_bump order : forall h, counters h -> counters (foldl (bump input) h order).
Proof.
  induction order as [|p order IH]; intros h Hh; [exact Hh|].
  cbn [foldl]. apply IH. unfold bump. now apply counters_wr.
Qed.

(** A block's shared histogram counts, modulo 2^32, the positions its
    threads visited, in whatever order the increments arrived. *)
Lemma rd_foldl_bump order : forall h s,
  counters h -> 0 <= s < 256 ->
  rd (foldl (bump input) h order) s = u32 (rd h s + hits input s order).
Proof.
  induction order as [|p order IH]; intros h s Hh Hs.
  - cbn [foldl]. unfold hits. cbn [map sumZ foldr]. rewrite Z.add_0_r.
    symmetry. apply u32_small. now apply counters_rd.
  - cbn [foldl]. rewrite IH by (try exact Hs; unfold bump; now apply counters_wr).
    unfold bump. rewrite rd_wr by (try exact Hh; try apply byte_at_range; lia).
    unfold hits. cbn [map]. change (sumZ (?x :: ?l)) with (x + sumZ l).
    destruct (byte_at input p =? s) eqn:E.
    + apply Z.eqb_eq in E. rewrite E, u32_add_l. f_equal; lia.
    + f_equal; lia.
Qed.

Lemma rd_localCount order order' s :
  order ≡ₚ order' -> 0 <= s < 256 ->
  rd (localCount input order) s = u32 (hits input s order').
Proof.
  intros Hperm Hs. unfold localCount.
  rewrite rd_foldl_bump by (try exact Hs; apply counters_zero).
  rewrite (rd_Forall (fun v => v = 0) (replicate 256 0) s)
    by (try apply Forall_replicate; try reflexivity; rewrite length_replicate; lia).
  unfold hits. rewrite Z.add_0_l. f_equal. apply sumZ_perm. now apply Permutation_map.
Qed.

End Histogram.

Section Merge.

Variable locals : list (list Z).
Hypothesis locals_ok : Forall counters locals.

Lemma local_rd b i : 0 <= rd (default [] (locals !! b)) i < 2 ^ 32.
Proof.
  destruct (locals !! b) as [h|] eqn:E; simpl.
  - apply counters_rd. eapply Forall_lookup_1 in locals_ok; [exact locals_ok|exact E].
  - unfold rd. rewrite lookup_nil. simpl. lia.
Qed.

Lemma counters_mergeOne g ev : counters g -> counters (mergeOne locals g ev).
Proof.
  intros Hg. unfold mergeOne. destruct (0 <? _); [now apply counters_wr|exact Hg].
Qed.

(** The global table adds up, modulo 2^32, what the merge events
    contribute, in whatever order they arrive. *)
Lemma rd_foldl_merge events : forall g s,
  counters g -> 0 <= s < 256 ->
  Forall (fun ev => 0 <= snd ev < 256) events ->
  rd (foldl (mergeOne locals) g events) s
  = u32 (rd g s + sumZ (map (contrib locals s) events)).
Proof.
  induction events as [|ev events IH]; intros g s Hg Hs Hev.
  - cbn [foldl map sumZ foldr]. rewrite Z.add_0_r. symmetry. apply u32_small.
    now apply counters_rd.
  - inversion Hev as [|? ? He Hevs]; subst. cbn [foldl map].
    change (sumZ (?x :: ?l)) with (x + sumZ l).
    rewrite IH by (try exact Hs; try exact Hevs; now apply counters_mergeOne).
    unfold mergeOne, contrib. pose proof (local_rd (fst ev) (snd ev)) as Hc.
    destruct (0 <? rd (default [] (locals !! fst ev)) (snd ev)) eqn:E.
    + rewrite rd_wr by (try exact Hg; lia).
      destruct (Z.eqb_spec (snd ev) s) as [Heq|Hne].
      * rewrite Heq, u32_add_l. f_equal; lia.
      * f_equal; lia.
    + destruct (Z.eqb_spec (snd ev) s) as [Heq|Hne]; [rewrite Heq in *|]; f_equal; lia.
Qed.

End Merge.

Lemma sum_indicator s c a n :
  sumZ (map (fun i => if i =? s then c else 0) (map Z.of_nat (seq a n)))
  = if (Z.of_nat a <=? s) && (s <? Z.of_nat (a + n)) then c else 0.
Proof.
  revert a. induction n as [|n IH]; intros a.
  - cbn [seq map sumZ foldr]. destruct (Z.of_nat a <=? s) eqn:E1; cbn [andb]; [|reflexivity].
    destruct (s <? Z.of_nat (a + 0)) eqn:E2; [zbool; lia|reflexivity].
  - cbn [seq map]. change (sumZ (?x :: ?l)) with (x + sumZ l). rewrite IH.
    destruct (Z.of_nat a =? s) eqn:E0;
      destruct (Z.of_nat (S a) <=? s) eqn:E1; destruct (s <? Z.of_nat (S a + n)) eqn:E2;
      destruct (Z.of_nat a <=? s) eqn:E3; destruct (s <? Z.of_nat (a + S n)) eqn:E4;
      cbn [andb]; zbool; lia.
Qed.

Lemma sum_contrib locals s (bs : list nat) :
  0 <= s < 256 ->
  sumZ (map (contrib locals s) (b ← bs; map (fun i => (b, i)) symbols))
  = sumZ (map (fun b => rd (default [] (locals !! b)) s) bs).
Proof.
  intros Hs. induction bs as [|b bs IH]; [reflexivity|].
  rewrite bind_cons, map_app, sumZ_app, IH. cbn [map].
  change (sumZ (?x :: ?l)) with (x + sumZ l). f_equal.
  rewrite map_map. unfold contrib. cbn [fst snd]. unfold symbols.
  rewrite (sum_indicator s (rd (default [] (locals !! b)) s) 0 256).
  now replace ((Z.of_nat 0 <=? s) && (s <? Z.of_nat (0 + 256))) with true
    by (symmetry; apply andb_true_intro; split; [apply Z.leb_le|apply Z.ltb_lt]; lia).
Qed.

Lemma hits_concat input s (pss : list (list Z)) :
  hits input s (concat pss) = sumZ (map (hits input s) pss).
Proof.
  induction pss as [|ps pss IH]; [reflexivity|].
  cbn [concat map]. change (sumZ (?x :: ?l)) with (x + sumZ l). rewrite <- IH.
  unfold hits. now rewrite map_app, sumZ_app.
Qed.

Lemma hits_positions pre l s :
  hits (pre ++ l) s (map Z.of_nat (seq (length pre) (length l))) = occurrences s l.
Proof.
  revert pre. induction l as [|b l IH]; intros pre; [reflexivity|].
  cbn [length seq map]. unfold hits in *. cbn [map].
  change (sumZ (?x :: ?l)) with (x + sumZ l).
  replace (pre ++ b :: l) with ((pre ++ [b]) ++ l) by now rewrite <- app_assoc.
  replace (S (length pre)) with (length (pre ++ [b])) by (rewrite length_app; simpl; lia).
  rewrite IH. unfold byte_at. rewrite Nat2Z.id, <- app_assoc.
  rewrite lookup_app_r, Nat.sub_diag by lia. cbn [app lookup list_lookup].
  unfold occurrences. rewrite filter_cons.
  destruct (Z.eqb_spec (byteZ b) s) as [Heq|Hne]; destruct (decide (byteZ b = s));
    try contradiction; cbn [length]; lia.
Qed.

Section Launch.

Variable input : list byte.

Let size := Z.of_nat (length input).

Hypothesis size_int : size <= inputLimit.

Let grid := Z.to_nat (freqBlocks size).

Lemma freqBlocks_value : freqBlocks size = (size + 255) / 256.
Proof.
  unfold freqBlocks, BLOCK_SIZE, inputLimit in *.
  replace (size + 256 - 1) with (size + 255) by lia.
  rewrite u64_small by lia. apply to_int_small.
  pose proof (Z.div_mod (size + 255) 256). pose proof (Z.mod_pos_bound (size + 255) 256).
  lia.
Qed.

Lemma grid_covers : size <= 256 * Z.of_nat grid < 2 ^ 32.
Proof.
  unfold grid. rewrite freqBlocks_value. unfold inputLimit in *.
  pose proof (Z.div_mod (size + 255) 256). pose proof (Z.mod_pos_bound (size + 255) 256).
  lia.
Qed.

Lemma stridedPositions_done n i stride : size <= i -> stridedPositions n i stride size = [].
Proof.
  intros H. destruct n; cbn [stridedPositions]; [reflexivity|].
  destruct (i <? size) eqn:E; [zbool; lia|reflexivity].
Qed.

(** With [stride >= size] every thread visits at most its own index. *)
Lemma threadPositions_one (b t : nat) :
  (b < grid)%nat -> (t < 256)%nat ->
  threadPositions size (Z.of_nat grid) b t
  = if Z.of_nat (b * 256 + t) <? size then [Z.of_nat (b * 256 + t)] else [].
Proof.
  intros Hb Ht. pose proof grid_covers as Hg. unfold inputLimit in *.
  unfold threadPositions, BLOCK_SIZE. cbn [stridedPositions].
  rewrite !u32_small by lia.
  replace (Z.of_nat b * 256 + Z.of_nat t) with (Z.of_nat (b * 256 + t)) by lia.
  destruct (Z.of_nat (b * 256 + t) <? size) eqn:E; [|reflexivity]. zbool.
  rewrite u64_small by lia. rewrite stridedPositions_done by lia. reflexivity.
Qed.

Lemma blockPositions_visit (b : nat) :
  (b < grid)%nat ->
  blockPositions size (Z.of_nat grid) b = concat (map (visit size) (seq (b * 256) 256)).
Proof.
  intros Hb. unfold blockPositions. f_equal.
  replace (seq (b * 256) 256) with (map (Nat.add (b * 256)) (seq 0 256))
    by (rewrite <- (Nat.add_0_r (b * 256)) at 2; apply (fmap_add_seq (b * 256) 0 256)).
  rewrite map_map. apply map_ext_in. intros t Ht. apply in_seq in Ht.
  apply threadPositions_one; [exact Hb|lia].
Qed.

Lemma visit_blocks (g : nat) :
  concat (map (fun b => concat (map (visit size) (seq (b * 256) 256))) (seq 0 g))
  = concat (map (visit size) (seq 0 (g * 256))).
Proof.
  induction g as [|g IH]; [reflexivity|].
  rewrite seq_S, map_app, concat_app, IH. cbn [map concat]. rewrite app_nil_r.
  replace (S g * 256)%nat with (g * 256 + 256)%nat by lia.
  rewrite seq_app, map_app, concat_app. reflexivity.
Qed.

Lemma visit_prefix (m : nat) :
  concat (map (visit size) (seq 0 m)) = map Z.of_nat (seq 0 (Nat.min m (length input))).
Proof.
  induction m as [|m IH]; [reflexivity|].
  rewrite seq_S, map_app, concat_app, IH. cbn [map concat]. rewrite app_nil_r.
  unfold visit. fold size. destruct (Z.of_nat (0 + m) <? size) eqn:E; zbool; unfold size in E.
  - replace (Nat.min (S m) (length input)) with (S (Nat.min m (length input))) by lia.
    rewrite seq_S, map_app. cbn [map]. do 3 f_equal. lia.
  - rewrite app_nil_r. do 2 f_equal. lia.
Qed.

(** The blocks of the launch visit every position of the input once. *)
Lemma launch_positions :
  concat (map (blockPositions size (Z.of_nat grid)) (seq 0 grid))
  = map Z.of_nat (seq 0 (length input)).
Proof.
  rewrite (map_ext_in _ (fun b => concat (map (visit size) (seq (b * 256) 256))))
    by (intros b Hb; apply in_seq in Hb; apply blockPositions_visit; lia).
  rewrite visit_blocks, visit_prefix. do 2 f_equal.
  pose proof grid_covers. unfold size in *. lia.
Qed.

Variable sched : Schedule.
Hypothesis sched_fair : fair size grid sched.

Let locals := map (fun b => localCount input (countOrder sched b)) (seq 0 grid).

Lemma locals_counters : Forall counters locals.
Proof.
  unfold locals. apply Forall_forall. intros h Hh. apply in_map_iff in Hh as (b & <- & _).
  apply counters_foldl_bump, counters_zero.
Qed.

Lemma locals_rd (b : nat) s :
  In b (seq 0 grid) -> 0 <= s < 256 ->
  rd (default [] (locals !! b)) s = u32 (hits input s (blockPositions size (Z.of_nat grid) b)).
Proof.
  intros Hb Hs. apply in_seq in Hb. unfold locals.
  rewrite list_lookup_fmap, lookup_seq_lt by lia. simpl.
  apply rd_localCount; [|exact Hs]. apply (proj1 sched_fair). lia.
Qed.

Lemma mergeEvents_symbols g : Forall (fun ev : nat * Z => 0 <= snd ev < 256) (mergeEvents g).
Proof.
  unfold mergeEvents. apply Forall_forall. intros ev Hev.
  apply list_elem_of_In, list_elem_of_bind in Hev as (b & Hev & _).
  apply list_elem_of_In, in_map_iff in Hev as (i & <- & Hi). cbn [snd].
  unfold symbols in Hi. apply in_map_iff in Hi as (k & <- & Hk). apply in_seq in Hk. lia.
Qed.

(** Every entry of the global table is the number of occurrences of its
    symbol. *)
Lemma rd_countFrequencies s :
  0 <= s < 256 -> rd (countFrequencies input grid sched) s = occurrences s input.
Proof.
  intros Hs. unfold countFrequencies. fold locals.
  rewrite (rd_foldl_merge locals locals_counters) by
    (try exact Hs; try apply counters_zero;
     rewrite (proj2 sched_fair); apply mergeEvents_symbols).
  rewrite (rd_Forall (fun v => v = 0) (replicate 256 0) s)
    by (try apply Forall_replicate; try reflexivity; rewrite length_replicate; lia).
  rewrite Z.add_0_l.
  rewrite (sumZ_perm _ (map (contrib locals s) (mergeEvents grid)))
    by (apply Permutation_map, (proj2 sched_fair)).
  unfold mergeEvents. rewrite sum_contrib by exact Hs.
  rewrite (map_ext_in _ (fun b => u32 (hits input s (blockPositions size (Z.of_nat grid) b))))
    by (intros b Hb; now apply locals_rd).
  rewrite sumZ_map_u32, <- (map_map (blockPositions size (Z.of_nat grid)) (hits input s)).
  rewrite <- hits_concat, launch_positions.
  pose proof (hits_positions [] input s) as Hocc. cbn [app length] in Hocc.
  rewrite Hocc. apply u32_small.
  unfold occurrences. pose proof (length_filter (fun b => byteZ b = s) input) as Hle.
  unfold size, inputLimit in *. lia.
Qed.

Lemma countFrequencies_counters : counters (countFrequencies input grid sched).
Proof.
  unfold countFrequencies. fold locals. generalize (mergeOrder sched).
  intros evs. generalize counters_zero. generalize (replicate 256 0).
  induction evs as [|ev evs IH]; intros g Hg; [exact Hg|].
  cbn [foldl]. apply IH. apply counters_mergeOne. exact Hg.
Qed.

Lemma countFrequencies_is_histogram : countFrequencies input grid sched = histogram input.
Proof.
  pose proof countFrequencies_counters as [Hlen _].
  apply list_eq. intros k. unfold histogram, symbols. rewrite !list_lookup_fmap.
  destruct (decide (k < 256)%nat) as [Hk|Hk].
  - rewrite lookup_seq_lt by exact Hk. simpl.
    destruct (lookup_lt_is_Some_2 (countFrequencies input grid sched) k) as [v Hv]; [lia|].
    rewrite Hv. f_equal. rewrite <- (rd_lookup _ _ _ Hv). apply rd_countFrequencies. lia.
  - rewrite lookup_ge_None_2 by lia. rewrite lookup_ge_None_2 by (rewrite length_seq; lia).
    reflexivity.
Qed.

End Launch.

Lemma occurrences_replicate s n b :
  occurrences s (replicate n b) = if byteZ b =? s then Z.of_nat n else 0.
Proof.
  unfold occurrences. induction n as [|n IH]; cbn [replicate].
  - now destruct (byteZ b =? s).
  - rewrite filter_cons. destruct (Z.eqb_spec (byteZ b) s) as [Heq|Hne];
      destruct (decide (byteZ b = s)); try contradiction; cbn [length]; lia.
Qed.

(** C5. For every input of at most [inputLimit] bytes, the range of the
    32-bit launch arithmetic, and every order in which the atomic increments
    and merges are performed, the global table after [countFrequencies] is the
    sequential histogram of the input; for 4096 zero bytes it is 4096 at
    symbol 0 and 0 elsewhere. *)
Theorem countFrequencies_histogram :
  (forall (input : list byte) (sched : Schedule),
      Z.of_nat (length input) <= inputLimit ->
      fair (Z.of_nat (length input)) (Z.to_nat (freqBlocks (Z.of_nat (length input)))) sched ->
      countFrequencies input (Z.to_nat (freqBlocks (Z.of_nat (length input)))) sched
      = histogram input
      /\ forall s, 0 <= s < 256 ->
           rd (countFrequencies input (Z.to_nat (freqBlocks (Z.of_nat (length input)))) sched) s
           = occurrences s input)
  /\ (forall sched : Schedule,
        fair 4096 16 sched ->
        countFrequencies (replicate 4096 "000"%byte) 16 sched = 4096 :: replicate 255 0).
Proof.
  split.
  - intros input sched Hsize Hfair. split.
    + now apply countFrequencies_is_histogram.
    + intros s Hs. now apply rd_countFrequencies.
  - intros sched Hfair.
    pose proof (countFrequencies_is_histogram (replicate 4096 "000"%byte)) as H.
    rewrite length_replicate in H. change (Z.to_nat (freqBlocks (Z.of_nat 4096))) with 16%nat in H.
    rewrite H; [|unfold inputLimit; lia|exact Hfair].
    unfold histogram.
    rewrite (map_ext _ (fun s => if 0 =? s then 4096 else 0))
      by (intros s; apply (occurrences_replicate s 4096 "000"%byte)).
    vm_compute. reflexivity.
Qed.

Lemma countFrequencies_histogram_witness :
  countFrequencies ["a"; "b"; "a"]%byte 1 (inOrder 3 1) = histogram ["a"; "b"; "a"]%byte
  /\ rd (countFrequencies ["a"; "b"; "a"]%byte 1 (inOrder 3 1)) 97 = 2
  /\ countFrequencies (replicate 4096 "000"%byte) 16 (inOrder 4096 16) = 4096 :: replicate 255 0.
Proof.
  destruct countFrequencies_histogram as [Hall Hzero].
  destruct (Hall ["a"; "b"; "a"]%byte (inOrder 3 1)) as [H1 H2].
  - vm_compute. discriminate.
  - split; [intros b Hb; reflexivity|reflexivity].
  - split; [exact H1|]. split.
    + apply (H2 97). lia.
    + apply Hzero. split; [intros b Hb; reflexivity|reflexivity].
Defined.

(** ** Range coder: the cumulative table *)

Lemma u32_to_int a b : u32 (a + to_int b) = u32 (a + b).
Proof.
  unfold u32, to_int.
  replace (a + ((b + 2 ^ 31) mod 2 ^ 32 - 2 ^ 31)) with (a - 2 ^ 31 + (b + 2 ^ 31) mod 2 ^ 32) by lia.
  rewrite Zplus_mod_idemp_r. f_equal. lia.
Qed.

Lemma rd_map_symbols (f : Z -> Z) t : 0 <= t < 256 -> rd (map f symbols) t = f t.
Proof.
  intros Ht. unfold rd, symbols. rewrite !list_lookup_fmap, lookup_seq_lt by lia.
  simpl. f_equal. lia.
Qed.

Section Scan.

Variable freq : list Z.
Hypothesis freq_ok : counters freq.

Lemma prefixSum_nonpos z : z <= 0 -> prefixSum freq z = 0.
Proof. intros Hz. unfold prefixSum. now replace (Z.to_nat z) with 0%nat by lia. Qed.

Lemma prefixSum_succ z : 0 <= z < 256 -> prefixSum freq (z + 1) = prefixSum freq z + rd freq z.
Proof.
  intros Hz. unfold prefixSum, rd. destruct freq_ok as [Hlen _].
  destruct (lookup_lt_is_Some_2 freq (Z.to_nat z)) as [v Hv]; [lia|].
  replace (Z.to_nat (z + 1)) with (S (Z.to_nat z)) by lia.
  rewrite (take_S_r _ _ _ Hv), sumZ_app, Hv. simpl. lia.
Qed.

Lemma window_load : window freq 1 (map (rd freq) symbols).
Proof.
  intros t Ht. rewrite rd_map_symbols by exact Ht.
  replace (t + 1 - 1) with t by lia. rewrite prefixSum_succ by exact Ht.
  replace (prefixSum freq t + rd freq t - prefixSum freq t) with (rd freq t) by lia.
  symmetry. apply u32_small. now apply counters_rd.
Qed.

Lemma window_step w temp : 0 < w -> window freq w temp -> window freq (w * 2) (scanStep w temp).
Proof.
  intros Hw Hwin t Ht. unfold scanStep. rewrite rd_map_symbols by exact Ht.
  rewrite (Hwin t Ht). destruct (w <=? t) eqn:E; zbool.
  - rewrite u32_to_int, (Hwin (t - w)) by lia. rewrite u32_add_l, u32_add_r.
    replace (t - w + 1) with (t + 1 - w) by lia.
    replace (t + 1 - w - w) with (t + 1 - w * 2) by lia. f_equal. lia.
  - rewrite Z.add_0_r. unfold u32. rewrite Z.mod_mod by lia.
    rewrite (prefixSum_nonpos (t + 1 - w)), (prefixSum_nonpos (t + 1 - w * 2)) by lia.
    reflexivity.
Qed.

Lemma window_loop fuel : forall w temp,
  0 < w -> 256 <= w + Z.of_nat fuel -> window freq w temp ->
  exists w', 256 <= w' /\ window freq w' (scanLoop fuel w temp).
Proof.
  induction fuel as [|fuel IH]; intros w temp Hw Hfuel Hwin.
  - exists w. split; [lia|exact Hwin].
  - cbn [scanLoop]. unfold ALPHABET_SIZE. destruct (w <? 256) eqn:E; zbool.
    + apply IH; [lia|lia|]. now apply window_step.
    + exists w. split; [lia|exact Hwin].
Qed.

(** [cdf[s]] is the sum, modulo 2^32, of the entries below [s]. *)
Lemma rd_buildCDF s : 0 <= s < 256 -> rd (buildCDF freq) s = u32 (prefixSum freq s).
Proof.
  intros Hs. unfold buildCDF. rewrite rd_map_symbols by exact Hs.
  destruct (s =? 0) eqn:E; zbool.
  - subst s. reflexivity.
  - destruct (window_loop 256 1 (map (rd freq) symbols)) as (w' & Hw' & Hwin);
      [lia|lia|apply window_load|].
    rewrite (Hwin (s - 1)) by lia. replace (s - 1 + 1) with s by lia.
    rewrite (prefixSum_nonpos (s - w')) by lia. f_equal. lia.
Qed.

Lemma length_buildCDF : length (buildCDF freq) = 256%nat.
Proof. unfold buildCDF, symbols. now rewrite !length_map, length_seq. Qed.

Lemma prefixSum_mono a b : a <= b -> prefixSum freq a <= prefixSum freq b.
Proof.
  intros Hab. unfold prefixSum.
  replace (Z.to_nat b) with (Z.to_nat a + (Z.to_nat b - Z.to_nat a))%nat by lia.
  rewrite <- take_take_drop, sumZ_app.
  assert (H : forall l, Forall (fun v => 0 <= v < 2 ^ 32) l -> 0 <= sumZ l).
  { induction 1 as [|v l Hv _ IHl]; [reflexivity|]. change (sumZ (v :: l)) with (v + sumZ l). lia. }
  destruct freq_ok as [_ Hr].
  pose proof (H (take (Z.to_nat b - Z.to_nat a) (drop (Z.to_nat a) freq))) as Hrest.
  specialize (Hrest ltac:(now apply Forall_take, Forall_drop)). lia.
Qed.

Lemma prefixSum_all : prefixSum freq 256 = sumZ freq.
Proof. unfold prefixSum. destruct freq_ok as [Hlen _]. now rewrite take_ge by lia. Qed.

End Scan.

Lemma sumZ_map_add {A} (f g : A -> Z) l :
  sumZ (map (fun x => f x + g x) l) = sumZ (map f l) + sumZ (map g l).
Proof.
  induction l as [|x l IH]; [reflexivity|]. cbn [map].
  change (sumZ (?x :: ?l)) with (x + sumZ l) in *. lia.
Qed.

Lemma occurrences_cons s b l :
  occurrences s (b :: l) = (if byteZ b =? s then 1 else 0) + occurrences s l.
Proof.
  unfold occurrences. rewrite filter_cons.
  destruct (Z.eqb_spec (byteZ b) s); destruct (decide (byteZ b = s));
    try contradiction; cbn [length]; lia.
Qed.

Lemma occurrences_range s input : 0 <= occurrences s input <= Z.of_nat (length input).
Proof.
  unfold occurrences. pose proof (length_filter (fun b => byteZ b = s) input). lia.
Qed.

(** Every byte is counted under exactly one symbol. *)
Lemma histogram_total input : sumZ (histogram input) = Z.of_nat (length input).
Proof.
  unfold histogram. induction input as [|b l IH]; [vm_compute; reflexivity|].
  rewrite (map_ext _ (fun s => (if s =? byteZ b then 1 else 0) + occurrences s l))
    by (intros s; rewrite occurrences_cons, Z.eqb_sym; reflexivity).
  rewrite (sumZ_map_add (fun s => if s =? byteZ b then 1 else 0) (fun s => occurrences s l)), IH.
  unfold symbols at 1. rewrite (sum_indicator (byteZ b) 1 0 256).
  pose proof (byteZ_range b).
  replace ((Z.of_nat 0 <=? byteZ b) && (byteZ b <? Z.of_nat (0 + 256))) with true
    by (symmetry; apply andb_true_intro; split; [apply Z.leb_le|apply Z.ltb_lt]; lia).
  cbn [length]. lia.
Qed.

Lemma histogram_counters input : Z.of_nat (length input) <= inputLimit -> counters (histogram input).
Proof.
  intros Hsize. unfold histogram, symbols. split.
  - now rewrite !length_map, length_seq.
  - apply Forall_forall. intros v Hv. apply in_map_iff in Hv as (s & <- & _).
    pose proof (occurrences_range s input). unfold inputLimit in Hsize. lia.
Qed.

(** C4. For every input of at most [inputLimit] bytes and every order of
    the counting kernel, the table built by [buildCDF] is the exclusive prefix
    sum of the frequency table: [cdf[0] = 0], [cdf[s]] is the sum of the
    entries below [s], the table is non-decreasing, and the upper bound used
    for symbol 255, [total], is the input length and the sum of all
    entries. *)
Theorem buildCDF_prefix_sums (input : list byte) (sched : Schedule) :
  Z.of_nat (length input) <= inputLimit ->
  fair (Z.of_nat (length input)) (Z.to_nat (freqBlocks (Z.of_nat (length input)))) sched ->
  let freq := countFrequencies input (Z.to_nat (freqBlocks (Z.of_nat (length input)))) sched in
  let cdf := buildCDF freq in
  length cdf = 256%nat
  /\ rd cdf 0 = 0
  /\ (forall s, 0 <= s < 256 -> rd cdf s = sumZ (take (Z.to_nat s) freq))
  /\ (forall s t, 0 <= s -> s <= t -> t < 256 -> rd cdf s <= rd cdf t)
  /\ totalOf input = Z.of_nat (length input)
  /\ symHighOf cdf (totalOf input) 255 = sumZ freq
  /\ rd cdf 255 <= totalOf input.
Proof.
  intros Hsize Hfair freq cdf.
  assert (Hfreq : freq = histogram input) by now apply countFrequencies_is_histogram.
  assert (Hc : counters freq) by (rewrite Hfreq; now apply histogram_counters).
  assert (Hsum : sumZ freq = Z.of_nat (length input)) by (rewrite Hfreq; apply histogram_total).
  assert (Hbound : forall s, 0 <= prefixSum freq s <= Z.of_nat (length input)).
  { intros s. split.
    - rewrite <- (prefixSum_nonpos freq 0) by lia.
      destruct (decide (0 <= s)); [now apply prefixSum_mono|].
      rewrite (prefixSum_nonpos freq s) by lia. now rewrite (prefixSum_nonpos freq 0) by lia.
    - rewrite <- Hsum, <- (prefixSum_all freq Hc).
      destruct (decide (s <= 256)); [now apply prefixSum_mono|].
      unfold prefixSum. destruct Hc as [Hlen _]. rewrite !take_ge by lia. lia. }
  assert (Hrd : forall s, 0 <= s < 256 -> rd cdf s = prefixSum freq s).
  { intros s Hs. unfold cdf. rewrite (rd_buildCDF freq Hc s Hs). apply u32_small.
    specialize (Hbound s). unfold inputLimit in Hsize. lia. }
  assert (Htotal : totalOf input = Z.of_nat (length input)).
  { unfold totalOf. apply u32_small. unfold inputLimit in Hsize. lia. }
  split; [apply length_buildCDF|]. split; [rewrite Hrd by lia; now apply prefixSum_nonpos|].
  split; [exact Hrd|]. split.
  - intros s t H0 Hst Ht. rewrite !Hrd by lia. apply prefixSum_mono; [exact Hc|lia].
  - split; [exact Htotal|]. split.
    + unfold symHighOf. cbn [Z.ltb Z.compare Pos.compare Pos.compare_cont]. lia.
    + rewrite Hrd, Htotal by lia. apply Hbound.
Qed.

Lemma buildCDF_prefix_sums_witness :
  let input := ["a"; "b"; "a"]%byte in
  let freq := countFrequencies input 1 (inOrder 3 1) in
  let cdf := buildCDF freq in
  length cdf = 256%nat
  /\ rd cdf 0 = 0
  /\ (forall s, 0 <= s < 256 -> rd cdf s = sumZ (take (Z.to_nat s) freq))
  /\ (forall s t, 0 <= s -> s <= t -> t < 256 -> rd cdf s <= rd cdf t)
  /\ totalOf input = 3
  /\ symHighOf cdf (totalOf input) 255 = sumZ freq
  /\ rd cdf 255 <= totalOf input.
Proof.
  apply (buildCDF_prefix_sums ["a"; "b"; "a"]%byte (inOrder 3 1)).
  - vm_compute. discriminate.
  - split; [intros b Hb; reflexivity|reflexivity].
Defined.

(** ** Range coder: the chunks *)

(** The clip of the chunk end never takes effect: for every launched block
    the loop runs over a full chunk. *)
Lemma chunkEnd_full numChunks blockId :
  0 <= blockId < numChunks -> numChunks * CHUNK_SIZE < 2 ^ 64 ->
  chunkEnd CHUNK_SIZE numChunks blockId = chunkStart CHUNK_SIZE blockId + CHUNK_SIZE.
Proof.
  intros Hb Hn. unfold chunkEnd, chunkStart, CHUNK_SIZE in *.
  rewrite (u64_small (blockId * 4096)) by lia. rewrite !u64_small by lia. lia.
Qed.

Lemma numChunksOf_value size :
  0 <= size <= INT_MAX -> numChunksOf size = (size + 4095) / 4096.
Proof.
  intros Hs. unfold numChunksOf, CHUNK_SIZE, INT_MAX in *.
  replace (size + 4096 - 1) with (size + 4095) by lia. now rewrite u64_small by lia.
Qed.

(** When the input length is not a multiple of the chunk size, the last
    block reads [input[size]], one past the last byte. *)
Lemma last_chunk_reads_past_end size :
  0 < size <= INT_MAX -> size mod CHUNK_SIZE <> 0 ->
  In size (chunkReads CHUNK_SIZE (numChunksOf size) (numChunksOf size - 1)).
Proof.
  intros Hs Hmod. rewrite numChunksOf_value by lia. unfold INT_MAX, CHUNK_SIZE in *.
  set (n := (size + 4095) / 4096).
  assert (Hn : 4096 * (n - 1) < size < 4096 * n).
  { unfold n. pose proof (Z.div_mod (size + 4095) 4096 ltac:(lia)).
    pose proof (Z.mod_pos_bound (size + 4095) 4096 ltac:(lia)).
    pose proof (Z.div_mod size 4096 ltac:(lia)).
    pose proof (Z.mod_pos_bound size 4096 ltac:(lia)).
    assert ((size + 4095) / 4096 = size / 4096 + 1); [|lia].
    symmetry. apply (Z.div_unique (size + 4095) 4096 (size / 4096 + 1) (size mod 4096 - 1)); lia. }
  unfold chunkReads. fold CHUNK_SIZE. rewrite chunkEnd_full by (unfold CHUNK_SIZE; lia).
  unfold chunkStart, CHUNK_SIZE. rewrite u64_small by lia.
  apply in_map_iff. exists (Z.to_nat (size - (n - 1) * 4096)). split; [lia|].
  apply in_seq. lia.
Qed.

(** A chunk loop that completes has read in bounds only. *)
Lemma encodeRange_in_bounds n input cdf total blockId chunkSize : forall e i e',
  0 <= i ->
  encodeRange n input cdf total blockId chunkSize e i = Ok e' ->
  n = 0%nat \/ i + Z.of_nat n <= Z.of_nat (length input).
Proof.
  induction n as [|n IH]; intros e i e' Hi Hrun; [now left|]. right.
  cbn [encodeRange] in Hrun.
  destruct (encodeSymbol input cdf total blockId chunkSize e i) as [e1| |] eqn:Es;
    cbn [bind] in Hrun; try discriminate.
  assert (Hin : (Z.to_nat i < length input)%nat).
  { unfold encodeSymbol in Es. destruct (input !! Z.to_nat i) eqn:El; [|discriminate].
    now apply lookup_lt_Some in El. }
  apply IH in Hrun as [->|Hrun]; lia.
Qed.

Lemma encodeBlock_in_bounds input cdf total numChunks arrays blockId arrays' :
  0 <= blockId < numChunks -> numChunks * CHUNK_SIZE < 2 ^ 64 ->
  encodeBlock input cdf total CHUNK_SIZE numChunks arrays blockId = Ok arrays' ->
  (blockId + 1) * CHUNK_SIZE <= Z.of_nat (length input).
Proof.
  intros Hb Hn Hrun. unfold encodeBlock in Hrun.
  rewrite chunkEnd_full in Hrun by assumption.
  destruct (encodeRange _ input cdf total blockId CHUNK_SIZE _ _) as [e| |] eqn:Er;
    cbn [bind] in Hrun; try discriminate.
  apply encodeRange_in_bounds in Er.
  - unfold chunkStart, CHUNK_SIZE in *. rewrite u64_small in Er by lia. lia.
  - unfold chunkStart, CHUNK_SIZE in *. rewrite u64_small by lia. lia.
Qed.

Lemma encodeBlocks_snoc input cdf total numChunks arrays (bs : list Z) b r :
  foldl (fun acc b => bind acc (fun a => encodeBlock input cdf total CHUNK_SIZE numChunks a b))
        (Ok arrays) (bs ++ [b]) = Ok r ->
  exists a, encodeBlock input cdf total CHUNK_SIZE numChunks a b = Ok r.
Proof.
  rewrite foldl_app. cbn [foldl].
  destruct (foldl _ (Ok arrays) bs) as [a| |]; cbn [bind]; try discriminate. eauto.
Qed.

(** When the input length is not a multiple of the chunk size, the launch
    of [encodeBlocks] does not complete: its last block would have to read
    in bounds up to the padded end. *)
Lemma encodeBlocks_incomplete input cdf total arrays r :
  0 < Z.of_nat (length input) <= INT_MAX ->
  Z.of_nat (length input) mod CHUNK_SIZE <> 0 ->
  encodeBlocks input cdf total CHUNK_SIZE (numChunksOf (Z.of_nat (length input))) arrays
  <> Ok r.
Proof.
  intros Hs Hmod Hrun. set (size := Z.of_nat (length input)) in *.
  rewrite numChunksOf_value in Hrun by lia. unfold INT_MAX, CHUNK_SIZE in Hs, Hmod.
  set (n := (size + 4095) / 4096) in *.
  assert (Hn : 4096 * (n - 1) < size < 4096 * n).
  { unfold n. pose proof (Z.div_mod (size + 4095) 4096 ltac:(lia)).
    pose proof (Z.mod_pos_bound (size + 4095) 4096 ltac:(lia)).
    pose proof (Z.div_mod size 4096 ltac:(lia)).
    pose proof (Z.mod_pos_bound size 4096 ltac:(lia)).
    assert ((size + 4095) / 4096 = size / 4096 + 1); [|lia].
    symmetry. apply (Z.div_unique (size + 4095) 4096 (size / 4096 + 1) (size mod 4096 - 1)); lia. }
  unfold encodeBlocks in Hrun.
  replace (Z.to_nat n) with (S (Z.to_nat (n - 1))) in Hrun by lia.
  rewrite seq_S, map_app in Hrun. cbn [map] in Hrun.
  apply encodeBlocks_snoc in Hrun as [a Hlast].
  apply encodeBlock_in_bounds in Hlast; unfold CHUNK_SIZE in *; lia.
Qed.

(** C6. The chunk loop does not stop at the end of the input. On the
    one-byte input "a" block 0 reads [input[1]]; whenever the length is not
    a multiple of 4096 the index [size] is among the reads of the last
    block, and [arithmeticCompress] cannot complete without a read past the
    end. *)
Theorem encodeBlocks_reads_past_end :
  (forall (sched : Schedule) (out0 lens0 : list Z) (dst : Dest),
      fair 1 1 sched ->
      arithmeticCompress ["a"]%byte sched out0 lens0 dst = OobRead 1)
  /\ (forall input : list byte,
        0 < Z.of_nat (length input) <= INT_MAX ->
        Z.of_nat (length input) mod CHUNK_SIZE <> 0 ->
        In (Z.of_nat (length input))
           (chunkReads CHUNK_SIZE (numChunksOf (Z.of_nat (length input)))
              (numChunksOf (Z.of_nat (length input)) - 1))
        /\ forall sched out0 lens0 dst r,
             arithmeticCompress input sched out0 lens0 dst <> Ok r).
Proof.
  split.
  - intros sched out0 lens0 dst Hfair.
    pose proof (countFrequencies_is_histogram ["a"]%byte) as Hh.
    change (Z.of_nat (length ["a"]%byte)) with 1 in Hh.
    change (Z.to_nat (freqBlocks 1)) with 1%nat in Hh.
    specialize (Hh ltac:(unfold inputLimit; lia) sched Hfair).
    unfold arithmeticCompress.
    change (Z.of_nat (length ["a"]%byte)) with 1.
    change (Z.to_nat (freqBlocks 1)) with 1%nat. rewrite Hh.
    vm_compute. reflexivity.
  - intros input Hs Hmod. split; [now apply last_chunk_reads_past_end|].
    intros sched out0 lens0 dst r Hrun. unfold arithmeticCompress in Hrun.
    destruct (encodeBlocks input _ _ CHUNK_SIZE _ (out0, lens0)) as [arrays| |] eqn:Eb;
      cbn [bind] in Hrun; try discriminate.
    now apply encodeBlocks_incomplete in Eb.
Qed.

Lemma encodeBlocks_reads_past_end_witness :
  arithmeticCompress ["a"]%byte (inOrder 1 1) [] [] (mkDest [] 0 []) = OobRead 1
  /\ In 3 (chunkReads CHUNK_SIZE 1 0)
  /\ forall r, arithmeticCompress ["a"; "b"; "c"]%byte (inOrder 3 1) [] [] (mkDest [] 0 [])
               <> Ok r.
Proof.
  destruct encodeBlocks_reads_past_end as [H1 H2]. split.
  - apply H1. split; [intros b Hb; reflexivity|reflexivity].
  - destruct (H2 ["a"; "b"; "c"]%byte) as [Hin Hno].
    + vm_compute. split; [reflexivity|discriminate].
    + vm_compute. discriminate.
    + split; [exact Hin|]. intros r. apply Hno.
Defined.

(** * Further properties

    Properties of the kernels and host functions beyond the ones above. *)

(** ** LZ77: the hash function *)
Lemma hashFunc_low5 a b c : hashFunc a b c = hashFunc (a mod 32) b c.
Proof.
  unfold hashFunc. change (HASH_SIZE - 1) with (Z.ones 15).
  apply Z.bits_inj'. intros n Hn.
  rewrite !Z.land_spec, !Z.lxor_spec.
  destruct (Z.ltb_spec n 15) as [Hlt|Hge].
  - f_equal. f_equal. f_equal.
    destruct (Z.ltb_spec n 10) as [Hl|Hg].
    + rewrite !Z.shiftl_spec_low by lia. reflexivity.
    + rewrite !Z.shiftl_spec by lia. change 32 with (2 ^ 5).
      rewrite Z.mod_pow2_bits_low by lia. reflexivity.
  - rewrite Z.ones_spec_high by lia. now rewrite !andb_false_r.
Qed.

(** X1. [hashFunc] always yields an index into the table of [HASH_SIZE]
    heads, and it keeps only the low five bits of the first byte: two
    windows whose first bytes differ by a multiple of 32 and whose other
    bytes agree have the same hash. *)
Theorem hashFunc_table_index (a b c : Z) :
  0 <= hashFunc a b c < HASH_SIZE
  /\ hashFunc a b c = hashFunc (a mod 32) b c.
Proof. split; [apply hashFunc_range|apply hashFunc_low5]. Qed.

(** ** LZ77: the token words *)
Lemma land_shifted_low x y n : 0 <= n -> 0 <= y < 2 ^ n -> Z.land (x * 2 ^ n) y = 0.
Proof.
  intros Hn Hy. apply Z.bits_inj'. intros m Hm. rewrite Z.land_spec, Z.bits_0.
  destruct (Z.ltb_spec m n) as [Hlt|Hge].
  - rewrite Z.mul_pow2_bits_low by lia. reflexivity.
  - destruct (Z.eq_dec y 0) as [->|Hy0]; [now rewrite Z.bits_0, andb_false_r|].
    rewrite (Z.bits_above_log2 y m), andb_false_r; [reflexivity|lia|].
    apply Z.log2_lt_pow2; [lia|]. eapply Z.lt_le_trans; [apply Hy|].
    apply Z.pow_le_mono_r; lia.
Qed.

Lemma matchWord_value L off :
  0 <= L < 2 ^ 15 -> 0 <= off < 2 ^ 16 ->
  Z.lor (Z.lor 2147483648 (u32 (Z.shiftl L 16))) (u32 off) = 2 ^ 31 + L * 2 ^ 16 + off.
Proof.
  intros HL Hoff. rewrite Z.shiftl_mul_pow2 by lia.
  rewrite !u32_small by lia.
  assert (H1 : Z.land 2147483648 (L * 2 ^ 16) = 0)
    by (change 2147483648 with (1 * 2 ^ 31); apply land_shifted_low; lia).
  rewrite <- (Z.add_nocarry_lor _ _ H1).
  rewrite <- Z.add_nocarry_lor; [reflexivity|].
  replace (2147483648 + L * 2 ^ 16) with ((2 ^ 15 + L) * 2 ^ 16) by lia.
  apply land_shifted_low; lia.
Qed.

Lemma matchWord_fields L off :
  0 <= L < 2 ^ 15 -> 0 <= off < 2 ^ 16 ->
  let w := 2 ^ 31 + L * 2 ^ 16 + off in
  Z.testbit w 31 = true /\ Z.land (Z.shiftr w 16) 32767 = L /\ Z.land w 65535 = off.
Proof.
  intros HL Hoff w. split; [|split].
  - apply Z.testbit_true; [lia|].
    replace (w / 2 ^ 31) with 1; [reflexivity|].
    apply (Z.div_unique w (2 ^ 31) 1 (L * 2 ^ 16 + off)); unfold w; lia.
  - rewrite Z.shiftr_div_pow2 by lia. change 32767 with (Z.ones 15).
    rewrite Z.land_ones by lia.
    replace (w / 2 ^ 16) with (2 ^ 15 + L)
      by (apply (Z.div_unique w (2 ^ 16) (2 ^ 15 + L) off); unfold w; lia).
    symmetry. apply (Z.mod_unique (2 ^ 15 + L) (2 ^ 15) 1 L); lia.
  - change 65535 with (Z.ones 16). rewrite Z.land_ones by lia.
    symmetry. apply (Z.mod_unique w (2 ^ 16) (2 ^ 15 + L) off); unfold w; lia.
Qed.

(** X2. The word of a match of length 3 to 258 and offset below 65536 is
    2^31 + (length - 3) * 2^16 + offset: bit 31 is set, bits 30..16 give
    back [length - 3] and bits 15..0 the offset. The word of a literal is
    the byte, below 256, with bit 31 clear. *)
Theorem tokenAt_fields (input : list byte) (matchOffset matchLength : list Z) (i : Z) :
  let w := fst (tokenAt input matchOffset matchLength i) in
  (MIN_MATCH <= rd matchLength i <= MAX_MATCH -> 0 <= rd matchOffset i < 65536 ->
     w = 2 ^ 31 + (rd matchLength i - 3) * 2 ^ 16 + rd matchOffset i
     /\ Z.testbit w 31 = true
     /\ Z.land (Z.shiftr w 16) 32767 + 3 = rd matchLength i
     /\ Z.land w 65535 = rd matchOffset i)
  /\ (rd matchLength i < MIN_MATCH ->
        w = byte_at input i /\ 0 <= w < 256 /\ Z.testbit w 31 = false).
Proof.
  intros w. unfold w, tokenAt, MIN_MATCH, MAX_MATCH. split.
  - intros Hlen Hoff.
    replace (3 <=? rd matchLength i) with true by (symmetry; apply Z.leb_le; lia).
    cbn [fst].
    assert (HL : 0 <= rd matchLength i - 3 < 2 ^ 15) by lia.
    assert (Ho : 0 <= rd matchOffset i < 2 ^ 16) by lia.
    rewrite (matchWord_value _ _ HL Ho).
    destruct (matchWord_fields _ _ HL Ho) as (Hb & Hl & Hr).
    split; [reflexivity|]. split; [exact Hb|]. split; [|exact Hr]. rewrite Hl. lia.
  - intros Hlen.
    replace (3 <=? rd matchLength i) with false by (symmetry; apply Z.leb_gt; lia).
    cbn [fst]. pose proof (byte_at_range input i) as Hb.
    split; [reflexivity|]. split; [exact Hb|].
    apply Z.testbit_false; [lia|]. rewrite Z.div_small by lia. reflexivity.
Qed.

Lemma tokenAt_fields_witness :
  let input := ["a"; "b"; "c"; "a"; "b"; "c"; "a"; "b"]%byte in
  let matchOffset := [0; 0; 0; 3; 0; 0; 0; 0] in
  let matchLength := [0; 0; 0; 5; 0; 0; 0; 0] in
  fst (tokenAt input matchOffset matchLength 3) = 2 ^ 31 + (5 - 3) * 2 ^ 16 + 3
  /\ fst (tokenAt input matchOffset matchLength 1) = 98.
Proof.
  intros input matchOffset matchLength.
  destruct (tokenAt_fields input matchOffset matchLength 3) as [Hm _].
  destruct (tokenAt_fields input matchOffset matchLength 1) as [_ Hl].
  split.
  - apply Hm; vm_compute; split; congruence.
  - apply Hl. vm_compute. reflexivity.
Defined.

(** ** LZ77: what the match finder can record *)
Lemma matchRun_agree input size pos idx fuel : forall len k,
  len <= k < matchRun fuel input size pos idx len ->
  byte_at input (pos + k) = byte_at input (idx + k).
Proof.
  induction fuel as [|fuel IH]; intros len k Hk; cbn [matchRun] in Hk; [lia|].
  destruct ((len <? MAX_MATCH) && (idx + len <? size)
            && (byte_at input (pos + len) =? byte_at input (idx + len))) eqn:E; [|lia].
  apply andb_prop in E as [_ E]. apply Z.eqb_eq in E.
  destruct (decide (k = len)) as [->|Hne]; [exact E|]. apply (IH (len + 1)). lia.
Qed.

Lemma rd_isInt (a : list Z) i : Forall isInt a -> isInt (rd a i).
Proof.
  intros Ha. unfold rd. destruct (a !! Z.to_nat i) as [v|] eqn:E; simpl.
  - eapply Forall_lookup_1; eauto.
  - unfold isInt. lia.
Qed.

Section Contract.

Variable input : list byte.
Variable prev : list Z.
Variable idx : Z.

Let size := Z.of_nat (length input).

Hypothesis size_int : size <= INT_MAX.
Hypothesis prev_int : Forall isInt prev.
Hypothesis idx_in : 0 <= idx < size.

Lemma chainWalk_genuine limit : forall pos off len,
  isInt pos -> genuine input idx (off, len) ->
  genuine input idx (chainWalk limit input prev size idx pos off len).
Proof.
  induction limit as [|limit IH]; intros pos off len Hpos Hg; cbn [chainWalk]; [exact Hg|].
  destruct ((0 <=? pos) && (u64 (idx - pos) <=? WINDOW_SIZE)) eqn:E; [|exact Hg].
  apply andb_prop in E as [E1 E2]. zbool.
  unfold isInt in Hpos. unfold INT_MAX in size_int.
  assert (Hle : pos <= idx).
  { destruct (Z_le_gt_dec pos idx) as [H|H]; [exact H|exfalso].
    unfold u64, WINDOW_SIZE in E2.
    replace (idx - pos) with (-(pos - idx)) in E2 by lia.
    rewrite Z.mod_opp_l_nz in E2; rewrite ?(Z.mod_small (pos - idx)) in *; lia. }
  rewrite u64_small in E2 by lia.
  apply IH; [apply rd_isInt; exact prev_int|].
  set (len' := matchRun (Z.to_nat MAX_MATCH) input size pos idx 0).
  destruct ((MIN_MATCH <=? len') && (len <? len')) eqn:B; [|exact Hg].
  apply andb_prop in B as [B1 B2]. zbool.
  pose proof (matchRun_le input (Z.to_nat MAX_MATCH) pos idx 0) as Hmax. fold size len' in Hmax.
  right. cbn [fst snd]. unfold WINDOW_SIZE in *. rewrite to_int_small by lia.
  unfold MIN_MATCH, MAX_MATCH in *.
  split; [lia|]. split; [lia|]. split; [lia|]. split; [lia|].
  intros k Hk. replace (idx - (idx - pos) + k) with (pos + k) by lia.
  apply (matchRun_agree input size pos idx (Z.to_nat 258) 0 k). fold len'. lia.
Qed.

End Contract.

(** X3. Whatever [int] values the index arrays hold, what [findMatches]
    records at a position is nothing (0, 0) or a run that is in the input: a
    length from 3 to 258 that does not pass the end of the input, an offset
    from 0 to [WINDOW_SIZE] that does not pass its start, and [length] bytes
    at [idx - offset] equal to those at [idx]. *)
Theorem findMatches_genuine (input : list byte) (t : HashIndex) (idx : nat) :
  Z.of_nat (length input) <= INT_MAX ->
  Forall isInt (hashHead t) -> Forall isInt (hashPrev t) ->
  (idx < length input)%nat ->
  let off := rd (fst (findMatches input t)) (Z.of_nat idx) in
  let len := rd (snd (findMatches input t)) (Z.of_nat idx) in
  (off = 0 /\ len = 0)
  \/ (MIN_MATCH <= len <= MAX_MATCH
      /\ Z.of_nat idx + len <= Z.of_nat (length input)
      /\ 0 <= off <= WINDOW_SIZE /\ off <= Z.of_nat idx
      /\ forall k, 0 <= k < len ->
           byte_at input (Z.of_nat idx - off + k) = byte_at input (Z.of_nat idx + k)).
Proof.
  intros Hsize Hh Hp Hidx off len.
  pose proof (rd_findMatches input t idx Hidx) as Hrd. fold off len in Hrd.
  assert (Hg : genuine input (Z.of_nat idx) (off, len)).
  { rewrite Hrd. unfold findMatchAt.
    destruct (Z.of_nat (length input) <=? Z.of_nat idx + 2); [now left|].
    apply chainWalk_genuine; [exact Hsize|exact Hp|lia|apply rd_isInt; exact Hh|now left]. }
  destruct Hg as [Hz|Hm]; [left; split; congruence|right; exact Hm].
Qed.

Lemma findMatches_genuine_witness :
  let input := ["a"; "b"; "c"; "a"; "b"; "c"; "a"; "b"]%byte in
  let t := mkIndex (replicate (Z.to_nat HASH_SIZE) 0) [-1; 0; 1; 0; 1; 2; 3; 4] in
  let off := rd (fst (findMatches input t)) 3 in
  let len := rd (snd (findMatches input t)) 3 in
  (off = 0 /\ len = 0)
  \/ (MIN_MATCH <= len <= MAX_MATCH
      /\ 3 + len <= 8
      /\ 0 <= off <= WINDOW_SIZE /\ off <= 3
      /\ forall k, 0 <= k < len -> byte_at input (3 - off + k) = byte_at input (3 + k)).
Proof.
  apply (findMatches_genuine ["a"; "b"; "c"; "a"; "b"; "c"; "a"; "b"]%byte
           (mkIndex (replicate (Z.to_nat HASH_SIZE) 0) [-1; 0; 1; 0; 1; 2; 3; 4]) 3).
  - vm_compute. discriminate.
  - apply Forall_replicate. unfold isInt. lia.
  - repeat constructor; vm_compute; congruence.
  - simpl. lia.
Defined.

(** ** LZ77: the sizes reported *)
Section TokenCount.

Variable input : list byte.
Variables matchOffset matchLength : list Z.

Let size := Z.of_nat (length input).

Hypothesis size_int : size <= INT_MAX.
Hypothesis lengths_len : length matchLength = length input.
Hypothesis lengths_ok : validLengths matchLength.

(** A token spans at most [MAX_MATCH] bytes. *)
Lemma encodeLoop_span fuel : forall i steps,
  0 <= i -> encodeLoop fuel input matchOffset matchLength size i = Some steps ->
  size - i <= MAX_MATCH * Z.of_nat (length steps).
Proof.
  induction fuel as [|fuel IH]; intros i steps Hi Hrun; cbn [encodeLoop] in Hrun.
  - destruct (size <=? i) eqn:E; [|discriminate]. inversion Hrun; subst. zbool.
    unfold MAX_MATCH. simpl. lia.
  - destruct (size <=? i) eqn:E.
    { inversion Hrun; subst. zbool. unfold MAX_MATCH. simpl. lia. }
    zbool. assert (Hin : 0 <= i < size) by lia.
    pose proof (greedyAdvance_range input matchLength lengths_len lengths_ok i Hin) as Hadv.
    pose proof (tokenAt_advance input matchOffset matchLength i) as Hsnd.
    destruct (tokenAt input matchOffset matchLength i) as [w adv] eqn:Ht. simpl in Hsnd. subst adv.
    unfold MAX_MATCH, INT_MAX in *. rewrite u64_small in Hrun by lia.
    destruct (encodeLoop fuel input matchOffset matchLength size
                (i + greedyAdvance matchLength i)) as [rest|] eqn:Er; [|discriminate].
    simpl in Hrun. inversion Hrun; subst.
    assert (H0 : 0 <= i + greedyAdvance matchLength i) by lia.
    specialize (IH _ rest H0 Er). cbn [length]. lia.
Qed.

End TokenCount.

Lemma length_wordBytes (ws : list Z) : length (concat (map wordBytes ws)) = (4 * length ws)%nat.
Proof. induction ws as [|w ws IH]; [reflexivity|]. cbn [map concat]. rewrite length_app, IH. simpl. lia. Qed.

Lemma lz77Finish_sizes inputSize tokens dst :
  Z.of_nat (length tokens) <= INT_MAX ->
  let out := lz77Finish inputSize tokens dst in
  originalSize (fst out) = inputSize
  /\ compressedSize (fst out) = 4 * Z.of_nat (length tokens)
  /\ outputSize (snd out) = 4 * Z.of_nat (length tokens).
Proof.
  intros Hn out. unfold out, lz77Finish, INT_MAX in *. cbn [fst snd originalSize compressedSize
    setCompressedSize setOutputSize outputSize initResult].
  rewrite (u32_small (Z.of_nat (length tokens))) by lia.
  rewrite u64_small by lia. repeat split; lia.
Qed.

(** X4. [lz77Compress] reports the input length as [originalSize] and
    four bytes for each token as [compressedSize] and in [*outputSize];
    there is at most one token for each input byte, so the words fit the
    [inputSize] words of [d_output], and at least one for every 258 bytes. *)
Theorem lz77Compress_sizes (input : list byte) (prev0 : list Z) (evs : list HashEvent)
    (dst : Dest) :
  Z.of_nat (length input) <= INT_MAX -> hashOrder (length input) evs ->
  exists tokens r dst',
    lz77Tokens input prev0 evs = Some tokens
    /\ lz77Compress input prev0 evs dst = Some (r, dst')
    /\ originalSize r = Z.of_nat (length input)
    /\ compressedSize r = 4 * Z.of_nat (length tokens)
    /\ outputSize dst' = compressedSize r
    /\ Z.of_nat (length tokens) <= Z.of_nat (length input)
    /\ Z.of_nat (length input) <= MAX_MATCH * Z.of_nat (length tokens).
Proof.
  intros Hsize Hord.
  pose proof (findMatches_lengths input prev0 evs Hsize Hord) as [Hlen Hok].
  destruct (lz77Tokens_total input prev0 evs Hsize Hord) as (tokens & Ht & Hle).
  assert (Hspan : Z.of_nat (length input) <= MAX_MATCH * Z.of_nat (length tokens)).
  { rewrite lz77Tokens_tables in Ht. unfold encodeTokens, encodeSteps in Ht.
    destruct (encodeLoop _ _ _ _ _ 0) as [steps|] eqn:Es; [|discriminate].
    simpl in Ht. inversion Ht; subst. rewrite length_map.
    pose proof (encodeLoop_span input _ _ Hsize Hlen Hok _ 0 steps ltac:(lia) Es). lia. }
  assert (Hn : Z.of_nat (length tokens) <= INT_MAX) by lia.
  pose proof (lz77Finish_sizes (Z.of_nat (length input)) tokens dst Hn) as (Ho & Hc & Hs).
  exists tokens, (fst (lz77Finish (Z.of_nat (length input)) tokens dst)),
         (snd (lz77Finish (Z.of_nat (length input)) tokens dst)).
  split; [exact Ht|]. split.
  { unfold lz77Compress. rewrite Ht. cbn [mbind option_bind]. now destruct (lz77Finish _ tokens dst). }
  split; [exact Ho|]. split; [exact Hc|]. split; [lia|]. split; [lia|exact Hspan].
Qed.

Lemma lz77Compress_sizes_witness :
  exists tokens r dst',
    lz77Tokens ["a"; "b"; "c"; "a"; "b"; "c"; "a"; "b"]%byte (replicate 8 0) (loopOrder 8) = Some tokens
    /\ lz77Compress ["a"; "b"; "c"; "a"; "b"; "c"; "a"; "b"]%byte (replicate 8 0) (loopOrder 8)
         (mkDest [] 0 []) = Some (r, dst')
    /\ originalSize r = 8
    /\ compressedSize r = 4 * Z.of_nat (length tokens)
    /\ outputSize dst' = compressedSize r
    /\ Z.of_nat (length tokens) <= 8
    /\ 8 <= MAX_MATCH * Z.of_nat (length tokens).
Proof.
  apply (lz77Compress_sizes ["a"; "b"; "c"; "a"; "b"; "c"; "a"; "b"]%byte (replicate 8 0)
           (loopOrder 8) (mkDest [] 0 [])).
  - vm_compute. discriminate.
  - apply loopOrder_ok.
Defined.

(** ** LZ77: the bytes delivered *)
Lemma memcpy_front (d : Dest) (src : list byte) :
  let n := Z.of_nat (length src) in
  h_output (memcpy d 0 src n) = src ++ drop (length src) (h_output d)
  /\ copied (memcpy d 0 src n) = copied d ++ [(0, n)]
  /\ outputSize (memcpy d 0 src n) = outputSize d.
Proof.
  intros n. unfold memcpy, n. cbn [h_output copied outputSize].
  rewrite Z.add_0_l, Nat2Z.id. change (Z.to_nat 0) with 0%nat.
  rewrite take_0, firstn_all. repeat split; reflexivity.
Qed.

(** X5. When the capacity suffices, [lz77Compress] copies the token
    words, four bytes each, to the start of [h_output] in one copy, and
    leaves the bytes after them as they were. *)
Theorem lz77Compress_delivers (input : list byte) (prev0 : list Z) (evs : list HashEvent)
    (dst : Dest) (tokens : list Z) :
  Z.of_nat (length input) <= INT_MAX -> hashOrder (length input) evs ->
  lz77Tokens input prev0 evs = Some tokens ->
  4 * Z.of_nat (length tokens) <= outputSize dst ->
  exists r dst',
    lz77Compress input prev0 evs dst = Some (r, dst')
    /\ h_output dst' = concat (map wordBytes tokens) ++ drop (4 * length tokens) (h_output dst)
    /\ copied dst' = copied dst ++ [(0, 4 * Z.of_nat (length tokens))]
    /\ ((4 * length tokens <= length (h_output dst))%nat ->
        length (h_output dst') = length (h_output dst)).
Proof.
  intros Hsize Hord Ht Hcap.
  destruct (lz77Tokens_total input prev0 evs Hsize Hord) as (tokens' & Ht' & Hle).
  assert (tokens' = tokens) by congruence. subst tokens'.
  unfold lz77Compress. rewrite Ht. cbn [mbind option_bind]. unfold lz77Finish.
  unfold INT_MAX in Hsize.
  rewrite (u32_small (Z.of_nat (length tokens))) by lia.
  rewrite u64_small by lia.
  replace (Z.of_nat (length tokens) * 4 <=? outputSize dst) with true
    by (symmetry; apply Z.leb_le; lia).
  eexists _, _. split; [reflexivity|].
  pose proof (memcpy_front dst (concat (map wordBytes tokens))) as (Hh & Hc & _).
  rewrite length_wordBytes in Hh, Hc.
  replace (Z.of_nat (4 * length tokens)) with (Z.of_nat (length tokens) * 4) in Hh, Hc by lia.
  cbn [setOutputSize h_output copied]. rewrite Hh, Hc.
  split; [reflexivity|]. split; [f_equal; f_equal; f_equal; lia|].
  intros Hfit. rewrite length_app, length_wordBytes, length_drop. lia.
Qed.

Lemma lz77Compress_delivers_witness :
  exists r dst',
    lz77Compress ["a"; "b"]%byte [0; 0] (loopOrder 2) (mkDest (replicate 10 "x"%byte) 10 [])
    = Some (r, dst')
    /\ h_output dst' = concat (map wordBytes [97; 98]) ++ drop (4 * 2) (replicate 10 "x"%byte)
    /\ copied dst' = [] ++ [(0, 4 * 2)]
    /\ ((4 * 2 <= 10)%nat -> length (h_output dst') = 10%nat).
Proof.
  apply (lz77Compress_delivers ["a"; "b"]%byte [0; 0] (loopOrder 2)
           (mkDest (replicate 10 "x"%byte) 10 []) [97; 98]).
  - vm_compute. discriminate.
  - apply loopOrder_ok.
  - vm_compute. reflexivity.
  - vm_compute. discriminate.
Defined.

(** ** LZ77: streams of literals *)
Lemma encodeLoop_all_literals input mo ml :
  Z.of_nat (length input) <= INT_MAX ->
  (forall i, 0 <= i < Z.of_nat (length input) -> rd ml i < MIN_MATCH) ->
  forall fuel (i : nat),
    (i <= length input)%nat -> (length input - i <= fuel)%nat ->
    map word <$> encodeLoop fuel input mo ml (Z.of_nat (length input)) (Z.of_nat i)
    = Some (map byteZ (drop i input)).
Proof.
  intros Hsize Hlit fuel. induction fuel as [|fuel IH]; intros i Hi Hfuel.
  - cbn [encodeLoop]. replace (Z.of_nat (length input) <=? Z.of_nat i) with true
      by (symmetry; apply Z.leb_le; lia).
    rewrite drop_ge by lia. reflexivity.
  - cbn [encodeLoop]. destruct (Z.of_nat (length input) <=? Z.of_nat i) eqn:E.
    { zbool. rewrite drop_ge by lia. reflexivity. }
    zbool. unfold tokenAt.
    replace (MIN_MATCH <=? rd ml (Z.of_nat i)) with false
      by (symmetry; apply Z.leb_gt; apply Hlit; lia).
    unfold INT_MAX in Hsize. rewrite u64_small by lia.
    replace (Z.of_nat i + 1) with (Z.of_nat (S i)) by lia.
    specialize (IH (S i) ltac:(lia) ltac:(lia)).
    destruct (encodeLoop fuel input mo ml (Z.of_nat (length input)) (Z.of_nat (S i)))
      as [rest|]; [|discriminate].
    simpl in IH. inversion IH as [Hrest]. simpl.
    destruct (lookup_lt_is_Some_2 input i) as [b Hb]; [lia|].
    rewrite (drop_S _ _ _ Hb). cbn [map word]. unfold byte_at.
    rewrite Nat2Z.id, Hb, Hrest. reflexivity.
Qed.

(** X6. On tables that record no match the greedy loop emits the input
    bytes, one literal word each, in order. *)
Theorem encodeTokens_literals (input : list byte) (matchOffset matchLength : list Z) :
  Z.of_nat (length input) <= INT_MAX ->
  (forall i, 0 <= i < Z.of_nat (length input) -> rd matchLength i < MIN_MATCH) ->
  encodeTokens input matchOffset matchLength = Some (map byteZ input).
Proof.
  intros Hsize Hlit. unfold encodeTokens, encodeSteps.
  apply (encodeLoop_all_literals input matchOffset matchLength Hsize Hlit (length input) 0); lia.
Qed.

Lemma encodeTokens_literals_witness :
  encodeTokens ["a"; "b"; "c"; "d"]%byte [7; 7; 7; 7] [0; 2; 1; 0] = Some [97; 98; 99; 100].
Proof.
  apply (encodeTokens_literals ["a"; "b"; "c"; "d"]%byte [7; 7; 7; 7] [0; 2; 1; 0]).
  - vm_compute. discriminate.
  - intros i Hi. change (Z.of_nat (length ["a"; "b"; "c"; "d"]%byte)) with 4 in Hi.
    assert (Hc : i = 0 \/ i = 1 \/ i = 2 \/ i = 3) by lia.
    destruct Hc as [-> | [-> | [-> | ->]]]; vm_compute; reflexivity.
Defined.

Lemma findMatchAt_short input t idx :
  (length input <= idx + 2)%nat -> findMatchAt input t idx = (0, 0).
Proof.
  intros H. unfold findMatchAt.
  replace (Z.of_nat (length input) <=? Z.of_nat idx + 2) with true
    by (symmetry; apply Z.leb_le; lia).
  reflexivity.
Qed.

(** X7. An input of fewer than three bytes, the empty input included,
    has no 3-byte window: whatever the index arrays hold, the token stream
    is the input bytes as literals and the compressed size is four times
    the input length. *)
Theorem lz77Compress_short_input (input : list byte) (prev0 : list Z)
    (evs : list HashEvent) (dst : Dest) :
  (length input < 3)%nat ->
  lz77Tokens input prev0 evs = Some (map byteZ input)
  /\ exists r dst',
       lz77Compress input prev0 evs dst = Some (r, dst')
       /\ originalSize r = Z.of_nat (length input)
       /\ compressedSize r = 4 * Z.of_nat (length input)
       /\ outputSize dst' = 4 * Z.of_nat (length input).
Proof.
  intros Hshort.
  assert (Hsize : Z.of_nat (length input) <= INT_MAX) by (unfold INT_MAX; lia).
  assert (Ht : lz77Tokens input prev0 evs = Some (map byteZ input)).
  { rewrite lz77Tokens_tables. unfold encodeTokens, encodeSteps.
    set (t := buildHashTable input prev0 evs).
    assert (Hlit : forall i, 0 <= i < Z.of_nat (length input) ->
                     rd (snd (findMatches input t)) i < MIN_MATCH).
    { intros i Hi.
      pose proof (rd_findMatches input t (Z.to_nat i) ltac:(lia)) as Hrd.
      rewrite Z2Nat.id in Hrd by lia.
      rewrite findMatchAt_short in Hrd by lia.
      assert (Hl : rd (snd (findMatches input t)) i = 0) by congruence.
      rewrite Hl. unfold MIN_MATCH. lia. }
    apply (encodeLoop_all_literals input _ _ Hsize Hlit (length input) 0%nat); lia. }
  split; [exact Ht|].
  assert (Hn : Z.of_nat (length (map byteZ input)) <= INT_MAX) by (rewrite length_map; exact Hsize).
  pose proof (lz77Finish_sizes (Z.of_nat (length input)) (map byteZ input) dst Hn) as (Ho & Hc & Hs).
  rewrite length_map in Hc, Hs.
  exists (fst (lz77Finish (Z.of_nat (length input)) (map byteZ input) dst)),
         (snd (lz77Finish (Z.of_nat (length input)) (map byteZ input) dst)).
  split.
  { unfold lz77Compress. rewrite Ht. cbn [mbind option_bind].
    now destruct (lz77Finish _ (map byteZ input) dst). }
  split; [exact Ho|]. split; [exact Hc|exact Hs].
Qed.

Lemma lz77Compress_short_input_witness :
  lz77Tokens ["a"; "b"]%byte [] [] = Some (map byteZ ["a"; "b"]%byte)
  /\ exists r dst',
       lz77Compress ["a"; "b"]%byte [] [] (mkDest [] 0 []) = Some (r, dst')
       /\ originalSize r = Z.of_nat (length ["a"; "b"]%byte)
       /\ compressedSize r = 4 * Z.of_nat (length ["a"; "b"]%byte)
       /\ outputSize dst' = 4 * Z.of_nat (length ["a"; "b"]%byte).
Proof.
  apply (lz77Compress_short_input ["a"; "b"]%byte [] [] (mkDest [] 0 [])). simpl. lia.
Defined.

(** ** LZ77: the chains when the loop runs last *)
Lemma positionsWithHash_S input h n :
  positionsWithHash input h (S n)
  = positionsWithHash input h n
    ++ (if decide (hashAt input (Z.of_nat n) = h) then [Z.of_nat n] else []).
Proof.
  unfold positionsWithHash. rewrite seq_S, map_app, list.filter_app. reflexivity.
Qed.

Lemma positionsWithHash_bound input h n :
  Forall (fun q => 0 <= q < Z.of_nat n) (positionsWithHash input h n).
Proof.
  apply Forall_forall. intros q Hq. apply list_elem_of_In in Hq.
  unfold positionsWithHash in Hq.
  apply list_elem_of_filter in Hq as [_ Hq]. apply list_elem_of_fmap in Hq as (k & -> & Hk).
  apply elem_of_seq in Hk. lia.
Qed.

(** A store to [prev[n]] does not change a walk that does not visit [n]. *)
Lemma follow_wr fuel prev n v : forall pos path,
  0 <= n -> follow fuel prev pos = Some path -> Forall (fun q => q <> n) path ->
  follow fuel (wr prev n v) pos = Some path.
Proof.
  induction fuel as [|fuel IH]; intros pos path Hn Hf Hall; cbn [follow] in *.
  - exact Hf.
  - destruct (pos =? -1) eqn:E; [exact Hf|].
    rewrite length_wr.
    destruct ((0 <=? pos) && (pos <? Z.of_nat (length prev))) eqn:B; [|discriminate].
    apply andb_prop in B as [B1 B2]. zbool.
    destruct (follow fuel prev (rd prev pos)) as [rest|] eqn:Er; [|discriminate].
    simpl in Hf. inversion Hf; subst. inversion Hall; subst.
    rewrite rd_wr_ne by lia. rewrite (IH _ rest Hn Er) by assumption. reflexivity.
Qed.

Section InOrder.

Variable input : list byte.
Variable prev0 : list Z.

Let size := Z.of_nat (length input).

Hypothesis size_int : size <= INT_MAX.

Let built (n : nat) : HashIndex := buildHashTable input prev0 (map Insert (seq 0 n)).

Lemma built_S n : built (S n) = insertPos input (built n) n.
Proof. unfold built. rewrite seq_S, map_app. cbn [map]. apply buildHashTable_snoc. Qed.

Lemma built_chainInv n : (n <= length input)%nat -> chainInv input prev0 n (built n).
Proof.
  intros Hn. apply buildHashTable_inv.
  - unfold insertsOf. induction (seq 0 n) as [|x l IH]; [reflexivity|]. cbn. now rewrite IH.
  - apply Forall_forall. intros ev Hev. apply in_map_iff in Hev as (k & <- & _). exact I.
  - unfold size, INT_MAX in size_int. lia.
Qed.

(** After [n] iterations the head of a chain is the last position inserted
    with that hash. *)
Lemma built_head n : (n <= length input)%nat -> forall h, 0 <= h < HASH_SIZE ->
  rd (hashHead (built n)) h = default (-1) (list.last (positionsWithHash input h n)).
Proof.
  induction n as [|n IH]; intros Hn h Hh.
  - unfold built, buildHashTable. cbn [seq map foldl hashHead]. unfold rd.
    rewrite lookup_replicate_2 by lia. reflexivity.
  - rewrite built_S, positionsWithHash_S. cbn [insertPos hashHead].
    fold (hashAt input (Z.of_nat n)).
    pose proof (built_chainInv n ltac:(lia)) as [Hhl _ _ _ _].
    pose proof (hashAt_range input (Z.of_nat n)) as Hr.
    destruct (decide (hashAt input (Z.of_nat n) = h)) as [->|Hne].
    + rewrite rd_wr_eq by (rewrite Hhl; lia). rewrite last_snoc. simpl.
      unfold size, INT_MAX in size_int. apply to_int_small. lia.
    + rewrite rd_wr_ne by lia. rewrite app_nil_r. apply IH; [lia|exact Hh].
Qed.

(** And following the links from the head lists the positions inserted
    with that hash, the latest first. *)
Lemma built_chain n : (n <= length input)%nat -> (n <= length prev0)%nat ->
  forall h fuel, 0 <= h < HASH_SIZE -> (n <= fuel)%nat ->
    follow fuel (hashPrev (built n)) (rd (hashHead (built n)) h)
    = Some (reverse (positionsWithHash input h n)).
Proof.
  induction n as [|n IH]; intros Hn Hp h fuel Hh Hfuel.
  - unfold built, buildHashTable. cbn [seq map foldl hashHead hashPrev]. unfold rd at 1.
    rewrite lookup_replicate_2 by lia. simpl. destruct fuel; reflexivity.
  - pose proof (built_head (S n) Hn h Hh) as Hhead.
    pose proof (built_head n ltac:(lia) (hashAt input (Z.of_nat n))
                  (hashAt_range input (Z.of_nat n))) as Hold.
    rewrite Hhead. rewrite positionsWithHash_S in *.
    rewrite built_S. cbn [insertPos hashPrev]. fold (hashAt input (Z.of_nat n)).
    pose proof (built_chainInv n ltac:(lia)) as [_ Hpl _ _ _].
    assert (Hnot : forall h', Forall (fun q => q <> Z.of_nat n)
                                (reverse (positionsWithHash input h' n))).
    { intros h'. apply Forall_reverse. eapply Forall_impl; [|apply positionsWithHash_bound].
      simpl. intros; lia. }
    destruct (decide (hashAt input (Z.of_nat n) = h)) as [Heq|Hne].
    + rewrite last_snoc, reverse_snoc. simpl. destruct fuel as [|fuel]; [lia|].
      cbn [follow]. rewrite length_wr.
      replace (Z.of_nat n =? -1) with false by (symmetry; apply Z.eqb_neq; lia).
      replace ((0 <=? Z.of_nat n) && (Z.of_nat n <? Z.of_nat (length (hashPrev (built n)))))
        with true
        by (symmetry; apply andb_true_intro; split; [apply Z.leb_le|apply Z.ltb_lt]; lia).
      rewrite rd_wr_eq by lia.
      rewrite (follow_wr fuel _ _ _ _ (reverse (positionsWithHash input h n))); [reflexivity|lia| |apply Hnot].
      rewrite Heq. apply IH; [lia|lia|exact Hh|lia].
    + rewrite app_nil_r. rewrite <- (built_head n ltac:(lia) h Hh).
      apply follow_wr; [lia| |apply Hnot]. apply IH; [lia|lia|exact Hh|lia].
Qed.

End InOrder.

(** X8. When the loop of [buildHashTable] runs after the stores of the
    other blocks, the head of the chain of hash [h] is the last position
    whose three bytes hash to [h], or -1 if there is none, and following the
    links from it lists exactly the positions with that hash, the latest
    first. *)
Theorem hash_chain_lists_positions (input : list byte) (prev0 : list Z) (h : Z) :
  Z.of_nat (length input) <= INT_MAX ->
  length prev0 = length input ->
  0 <= h < HASH_SIZE ->
  let t := buildHashTable input prev0 (loopOrder (length input)) in
  rd (hashHead t) h = default (-1) (list.last (positionsWithHash input h (length input - 2)))
  /\ follow (length input) (hashPrev t) (rd (hashHead t) h)
     = Some (reverse (positionsWithHash input h (length input - 2))).
Proof.
  intros Hsize Hlen Hh t. unfold t, loopOrder. split.
  - apply built_head; [exact Hsize|lia|exact Hh].
  - apply built_chain; [exact Hsize|lia|lia|exact Hh|lia].
Qed.

Lemma hash_chain_lists_positions_witness :
  let input := ["a"; "b"; "c"; "a"; "b"; "c"; "a"; "b"]%byte in
  let t := buildHashTable input (replicate 8 0) (loopOrder 8) in
  rd (hashHead t) (hashAt input 1) = default (-1) (list.last (positionsWithHash input (hashAt input 1) 6))
  /\ follow 8 (hashPrev t) (rd (hashHead t) (hashAt input 1))
     = Some (reverse (positionsWithHash input (hashAt input 1) 6)).
Proof.
  apply (hash_chain_lists_positions ["a"; "b"; "c"; "a"; "b"; "c"; "a"; "b"]%byte (replicate 8 0)
           (hashAt ["a"; "b"; "c"; "a"; "b"; "c"; "a"; "b"]%byte 1)).
  - vm_compute. discriminate.
  - reflexivity.
  - apply hashAt_range.
Defined.

Lemma last_position input h n idx :
  (idx < n)%nat -> hashAt input (Z.of_nat idx) = h ->
  (forall j, (idx < j < n)%nat -> hashAt input (Z.of_nat j) <> h) ->
  list.last (positionsWithHash input h n) = Some (Z.of_nat idx).
Proof.
  intros Hidx Hh Hnone. unfold positionsWithHash.
  replace n with (idx + (1 + (n - idx - 1)))%nat at 1 by lia.
  rewrite !seq_app, !map_app, !list.filter_app. cbn [seq map].
  rewrite filter_cons, filter_nil. rewrite decide_True by exact Hh.
  assert (Hnil : forall a m, (idx < a)%nat -> (a + m <= n)%nat ->
            filter (fun j => hashAt input j = h) (map Z.of_nat (seq a m)) = []).
  { intros a m. revert a. induction m as [|m IH]; intros a Ha Hm; [reflexivity|].
    cbn [seq map]. rewrite filter_cons.
    rewrite decide_False by (apply Hnone; lia). apply IH; lia. }
  rewrite (Hnil (0 + idx + 1)%nat (n - idx - 1)%nat) by lia.
  rewrite app_nil_r. cbn [Nat.add]. apply last_snoc.
Qed.

Lemma shadowed_false input idx :
  shadowed input idx = false ->
  forall j, (idx < j < length input - 2)%nat ->
    hashAt input (Z.of_nat j) <> hashAt input (Z.of_nat idx).
Proof.
  intros Hs j Hj Heq. unfold shadowed in Hs.
  assert (Ht : existsb (fun j => hashAt input (Z.of_nat j) =? hashAt input (Z.of_nat idx))
                 (seq (S idx) (length input - 3 - idx)) = true).
  { apply existsb_exists. exists j. split; [apply in_seq; lia|apply Z.eqb_eq; exact Heq]. }
  congruence.
Qed.

(** X9. With the index built in that order, a position records a match
    exactly when it has a 3-byte window and no later position has the same
    hash; what it records then is the run against itself, offset 0 and
    length min(258, size - idx). *)
Theorem findMatches_in_order (input : list byte) (prev0 : list Z) (idx : nat) :
  Z.of_nat (length input) <= INT_MAX ->
  (idx < length input)%nat ->
  findMatchAt input (buildHashTable input prev0 (loopOrder (length input))) idx
  = if (length input <=? idx + 2)%nat || shadowed input idx then (0, 0)
    else (0, Z.min MAX_MATCH (Z.of_nat (length input) - Z.of_nat idx)).
Proof.
  intros Hsize Hidx.
  destruct (Nat.leb_spec (length input) (idx + 2)) as [Hshort|Hlong]; cbn [orb].
  - apply findMatchAt_short. exact Hshort.
  - destruct (shadowed input idx) eqn:Hs.
    + unfold shadowed in Hs. apply existsb_exists in Hs as (j & Hj & Heq).
      apply in_seq in Hj. apply Z.eqb_eq in Heq.
      apply (findMatchAt_shadowed input prev0 _ Hsize (loopOrder_ok _) idx j); [lia|lia|exact Heq].
    + rewrite (findMatchAt_unfold input prev0 _ idx) by lia.
      unfold loopOrder at 2.
      rewrite (built_head input prev0 Hsize (length input - 2) ltac:(lia) _
                 (hashAt_range input (Z.of_nat idx))).
      rewrite (last_position input _ _ idx); [|lia|reflexivity|].
      * cbn [default from_option]. apply chainWalk_head_self; lia.
      * intros j Hj. apply shadowed_false; [exact Hs|lia].
Qed.

Lemma findMatches_in_order_witness :
  findMatchAt ["a"; "b"; "c"; "a"; "b"; "c"; "a"; "b"]%byte
    (buildHashTable ["a"; "b"; "c"; "a"; "b"; "c"; "a"; "b"]%byte [] (loopOrder 8)) 5
  = if (8 <=? 5 + 2)%nat || shadowed ["a"; "b"; "c"; "a"; "b"; "c"; "a"; "b"]%byte 5
    then (0, 0) else (0, Z.min MAX_MATCH (8 - 5)).
Proof.
  apply (findMatches_in_order ["a"; "b"; "c"; "a"; "b"; "c"; "a"; "b"]%byte [] 5).
  - vm_compute. discriminate.
  - simpl. lia.
Defined.

(** ** LZ77: the chains in every order *)
Section SameHash.

Variable input : list byte.
Variable prev0 : list Z.

(** In every execution order a head and a back-link point to a position
    with the same hash, or hold the sentinel. *)
Lemma buildHashTable_hashes evs : forall n,
  insertsOf evs = seq 0 n -> Forall lateReset evs -> Z.of_nat n <= 2 ^ 31 ->
  (n <= length prev0)%nat ->
  let t := buildHashTable input prev0 evs in
  (forall h, 0 <= h < HASH_SIZE ->
     rd (hashHead t) h = -1 \/ hashAt input (rd (hashHead t) h) = h)
  /\ (forall i, (i < n)%nat ->
        rd (hashPrev t) (Z.of_nat i) = -1
        \/ hashAt input (rd (hashPrev t) (Z.of_nat i)) = hashAt input (Z.of_nat i)).
Proof.
  induction evs as [|ev evs IH] using rev_ind; intros n Hins Hlate Hn Hp.
  - destruct n; [|discriminate]. cbn zeta. split.
    + intros h Hh. left. unfold buildHashTable. cbn [foldl hashHead]. unfold rd.
      rewrite lookup_replicate_2 by lia. reflexivity.
    + intros i Hi. lia.
  - rewrite insertsOf_snoc in Hins.
    apply Forall_app in Hlate as [Hlate Hev]. inversion Hev as [|? ? Hev1 _]; subst.
    cbn zeta. rewrite buildHashTable_snoc.
    destruct ev as [i|k].
    + destruct n as [|n]; [now destruct (insertsOf evs)|].
      rewrite seq_S in Hins. apply app_inj_tail in Hins as [Hins ->].
      destruct (IH n Hins Hlate ltac:(lia) ltac:(lia)) as [Hh Hl].
      pose proof (buildHashTable_inv input prev0 evs n Hins Hlate ltac:(lia)) as [Hhl Hpl _ _ _].
      pose proof (hashAt_range input (Z.of_nat n)) as Hr.
      cbn [applyEvent insertPos hashHead hashPrev Nat.add]. fold (hashAt input (Z.of_nat n)).
      split.
      * intros h Hhr. destruct (decide (hashAt input (Z.of_nat n) = h)) as [Heq|Hne].
        -- right. rewrite Heq, rd_wr_eq by (rewrite Hhl; lia).
           rewrite to_int_small by lia. exact Heq.
        -- rewrite rd_wr_ne by lia. apply Hh. exact Hhr.
      * intros i Hi. destruct (decide (i = n)) as [->|Hne].
        -- rewrite rd_wr_eq by lia. apply Hh. exact Hr.
        -- rewrite rd_wr_ne by lia. apply Hl. lia.
    + rewrite app_nil_r in Hins.
      destruct (IH n Hins Hlate Hn Hp) as [Hh Hl].
      pose proof (buildHashTable_inv input prev0 evs n Hins Hlate Hn) as [Hhl _ _ _ _].
      cbn [applyEvent hashHead hashPrev]. split; [|exact Hl].
      intros h Hhr. destruct (decide (k = h)) as [->|Hne].
      * left. apply rd_wr_eq. rewrite Hhl. lia.
      * simpl in Hev1. rewrite rd_wr_ne by lia. apply Hh. exact Hhr.
Qed.

Lemma follow_hashes (prev : list Z) (n : nat) (h : Z) :
  (forall i, (i < n)%nat -> -1 <= rd prev (Z.of_nat i) < Z.of_nat i) ->
  (forall i, (i < n)%nat ->
     rd prev (Z.of_nat i) = -1
     \/ hashAt input (rd prev (Z.of_nat i)) = hashAt input (Z.of_nat i)) ->
  forall fuel pos path,
    -1 <= pos < Z.of_nat n -> pos = -1 \/ hashAt input pos = h ->
    follow fuel prev pos = Some path ->
    Forall (fun q => 0 <= q < Z.of_nat n /\ hashAt input q = h) path.
Proof.
  intros Hlink Hhash fuel. induction fuel as [|fuel IH]; intros pos path Hpos Hh Hf;
    cbn [follow] in Hf.
  - destruct (pos =? -1); [|discriminate]. inversion Hf. constructor.
  - destruct (pos =? -1) eqn:E; [inversion Hf; constructor|]. zbool.
    destruct ((0 <=? pos) && (pos <? Z.of_nat (length prev))); [|discriminate].
    destruct (follow fuel prev (rd prev pos)) as [rest|] eqn:Er; [|discriminate].
    simpl in Hf. inversion Hf; subst.
    destruct Hh as [Hh|Hh]; [lia|].
    pose proof (Hlink (Z.to_nat pos) ltac:(lia)) as Hl.
    pose proof (Hhash (Z.to_nat pos) ltac:(lia)) as Hs.
    rewrite Z2Nat.id in Hl, Hs by lia.
    constructor; [split; [lia|exact Hh]|].
    apply (IH (rd prev pos) rest); [lia| |exact Er].
    destruct Hs as [Hs|Hs]; [now left|right; congruence].
Qed.

End SameHash.

(** X10. In every execution order, following the links from the head of
    hash [h] reaches the sentinel and visits, in decreasing order, only
    inserted positions whose three bytes hash to [h]. *)
Theorem hash_chain_same_hash (input : list byte) (prev0 : list Z) (evs : list HashEvent)
    (h : Z) :
  Z.of_nat (length input) <= INT_MAX ->
  length prev0 = length input ->
  hashOrder (length input) evs ->
  0 <= h < HASH_SIZE ->
  let t := buildHashTable input prev0 evs in
  exists path,
    follow (length input) (hashPrev t) (rd (hashHead t) h) = Some path
    /\ Forall (fun q => 0 <= q < Z.of_nat (length input - 2) /\ hashAt input q = h) path
    /\ StronglySorted Z.gt path.
Proof.
  intros Hsize Hlen [Hins Hlate] Hh t. unfold INT_MAX in Hsize.
  set (n := (length input - 2)%nat) in *.
  pose proof (buildHashTable_inv input prev0 evs n Hins Hlate ltac:(lia)) as [Hhl Hpl Hhead Hprev _].
  destruct (buildHashTable_hashes input prev0 evs n Hins Hlate ltac:(lia) ltac:(lia)) as [Hhh Hph].
  fold t in Hhl, Hpl, Hhead, Hprev, Hhh, Hph.
  assert (Hpos : -1 <= rd (hashHead t) h < Z.of_nat n).
  { apply (rd_Forall (fun v => -1 <= v < Z.of_nat n)); [exact Hhead|]. rewrite Hhl. lia. }
  destruct (follow_decreasing (hashPrev t) n ltac:(lia) Hprev (length input) (rd (hashHead t) h))
    as (path & Hf & _ & Hsort); [exact Hpos|lia|].
  exists path. split; [exact Hf|]. split; [|exact Hsort].
  apply (follow_hashes input (hashPrev t) n h) with (fuel := length input)
                                                   (pos := rd (hashHead t) h).
  - intros i Hi. destruct (lookup_lt_is_Some_2 (hashPrev t) i) as [v Hv]; [lia|].
    rewrite (rd_lookup _ _ _ Hv). apply (Hprev i v Hi Hv).
  - exact Hph.
  - exact Hpos.
  - apply Hhh. exact Hh.
  - exact Hf.
Qed.

Lemma hash_chain_same_hash_witness :
  let input := ["a"; "b"; "c"; "a"; "b"; "c"; "a"; "b"]%byte in
  let evs := [Insert 0; Reset 2083; Insert 1; Insert 2; Insert 3; Reset 300; Insert 4; Insert 5] in
  let t := buildHashTable input (replicate 8 0) evs in
  exists path,
    follow 8 (hashPrev t) (rd (hashHead t) (hashAt input 1)) = Some path
    /\ Forall (fun q => 0 <= q < Z.of_nat (8 - 2) /\ hashAt input q = hashAt input 1) path
    /\ StronglySorted Z.gt path.
Proof.
  apply (hash_chain_same_hash ["a"; "b"; "c"; "a"; "b"; "c"; "a"; "b"]%byte (replicate 8 0)
           [Insert 0; Reset 2083; Insert 1; Insert 2; Insert 3; Reset 300; Insert 4; Insert 5]
           (hashAt ["a"; "b"; "c"; "a"; "b"; "c"; "a"; "b"]%byte 1)).
  - vm_compute. discriminate.
  - reflexivity.
  - split; [reflexivity|]. unfold lateReset. repeat constructor; vm_compute; discriminate.
  - apply hashAt_range.
Defined.

(** ** E8: the output of the host function *)
Lemma length_sizeBytes w : length (sizeBytes w) = 8%nat.
Proof. reflexivity. Qed.

Lemma e8_numBlocks n :
  0 <= n <= INT_MAX ->
  u64 (u64 (n + BLOCK_BYTES - 1) / BLOCK_BYTES * BLOCK_BYTES) / BLOCK_BYTES = (n + 63) / 64
  /\ 0 <= (n + 63) / 64 <= n.
Proof.
  intros Hn. unfold BLOCK_BYTES, INT_MAX in *.
  assert (H0 : 0 <= (n + 63) / 64 <= n /\ (n + 63) / 64 * 64 <= n + 63)
    by (Z.div_mod_to_equations; lia).
  replace (n + 64 - 1) with (n + 63) by lia.
  rewrite (u64_small (n + 63)) by lia. rewrite u64_small by lia.
  rewrite Z.div_mul by lia. lia.
Qed.

Lemma memcpy_after (d : Dest) (pre tail src : list byte) (off n : Z) :
  h_output d = pre ++ tail -> off = Z.of_nat (length pre) -> n = Z.of_nat (length src) ->
  h_output (memcpy d off src n) = pre ++ src ++ drop (length src) tail.
Proof.
  intros Hh -> ->. unfold memcpy. cbn [h_output]. rewrite Hh, Nat2Z.id.
  rewrite take_app_length. rewrite Nat2Z.id, firstn_all.
  replace (Z.to_nat (Z.of_nat (length pre) + Z.of_nat (length src)))
    with (length pre + length src)%nat by lia.
  rewrite drop_app_add. reflexivity.
Qed.

(** X11. [e8LatticeCompress] reports 8 + 17 * ceil(n / 64) bytes for an
    input of [n] bytes, whatever the kernels produced. When the capacity
    suffices, [h_output] receives the input length as 8 bytes, then the root
    indices, then the residuals, in three copies, and the bytes after them
    are left as they were. *)
Theorem e8LatticeCompress_layout (h_input d_rootIndices d_encodedResiduals : list byte)
    (dst : Dest) :
  let n := Z.of_nat (length h_input) in
  let numBlocks := (n + 63) / 64 in
  let out := e8LatticeCompress h_input d_rootIndices d_encodedResiduals dst in
  n <= INT_MAX ->
  (originalSize (fst out) = n
   /\ compressedSize (fst out) = 8 + 17 * numBlocks
   /\ outputSize (snd out) = 8 + 17 * numBlocks)
  /\ (8 + 17 * numBlocks <= outputSize dst ->
      Z.of_nat (length d_rootIndices) = numBlocks ->
      Z.of_nat (length d_encodedResiduals) = 16 * numBlocks ->
      h_output (snd out)
      = sizeBytes n ++ d_rootIndices ++ d_encodedResiduals
        ++ drop (Z.to_nat (8 + 17 * numBlocks)) (h_output dst)
      /\ copied (snd out)
         = copied dst ++ [(0, 8); (8, numBlocks); (8 + numBlocks, 16 * numBlocks)]).
Proof.
  intros n numBlocks out Hn.
  destruct (e8_numBlocks n ltac:(unfold n; lia)) as [Hnb Hrange]. fold numBlocks in Hnb, Hrange.
  unfold out, e8LatticeCompress. fold n. rewrite Hnb. unfold E8_DIM, INT_MAX in *.
  rewrite (u64_small (8 + numBlocks + numBlocks * 8 * 2)) by lia.
  replace (8 + numBlocks + numBlocks * 8 * 2) with (8 + 17 * numBlocks) by lia.
  split.
  - cbn [fst snd originalSize compressedSize outputSize setCompressedSize setOutputSize initResult].
    repeat split; reflexivity.
  - intros Hcap Hri Her.
    replace (8 + 17 * numBlocks <=? outputSize dst) with true by (symmetry; apply Z.leb_le; lia).
    cbn [snd setOutputSize h_output copied]. split.
    + set (d1 := memcpy dst 0 (sizeBytes n) 8).
      set (d2 := memcpy d1 8 d_rootIndices numBlocks).
      assert (H1 : h_output d1 = [] ++ sizeBytes n ++ drop 8 (h_output dst))
        by (apply memcpy_after; reflexivity).
      assert (H2 : h_output d2
                   = sizeBytes n ++ d_rootIndices
                     ++ drop (length d_rootIndices) (drop 8 (h_output dst)))
        by (apply memcpy_after; [exact H1|reflexivity|lia]).
      rewrite app_assoc in H2.
      rewrite (memcpy_after d2 _ _ d_encodedResiduals _ _ H2)
        by (rewrite ?length_app, ?length_sizeBytes; lia).
      rewrite !drop_drop. rewrite <- !app_assoc. do 3 f_equal. f_equal. lia.
    + unfold memcpy. cbn [copied]. rewrite <- !app_assoc. cbn [app]. do 4 f_equal. f_equal. lia.
Qed.

Lemma e8LatticeCompress_layout_witness :
  let dst := mkDest (replicate 30 "x"%byte) 30 [] in
  let out := e8LatticeCompress ["a"; "b"]%byte ["007"]%byte (replicate 16 "001"%byte) dst in
  (originalSize (fst out) = 2 /\ compressedSize (fst out) = 25 /\ outputSize (snd out) = 25)
  /\ h_output (snd out)
     = sizeBytes 2 ++ ["007"]%byte ++ replicate 16 "001"%byte ++ replicate 5 "x"%byte.
Proof.
  intros dst out.
  destruct (e8LatticeCompress_layout ["a"; "b"]%byte ["007"]%byte (replicate 16 "001"%byte) dst)
    as [Hs Hl].
  - vm_compute. discriminate.
  - split; [exact Hs|]. apply Hl; vm_compute; congruence.
Defined.

(** ** E8: the table in closed form *)
Lemma rootTable_typeA tid :
  (tid < 112)%nat ->
  rootAt rootTable tid
  = [if (tid mod 4 <? 2)%nat then (-1)%Q else 1%Q; 0%Q; 0%Q; 0%Q; 0%Q; 0%Q; 0%Q; 0%Q].
Proof.
  assert (H : forallb (fun tid => bool_decide (rootAt rootTable tid
             = [if (tid mod 4 <? 2)%nat then (-1)%Q else 1%Q; 0%Q; 0%Q; 0%Q; 0%Q; 0%Q; 0%Q; 0%Q]))
             (seq 0 112) = true) by (vm_compute; reflexivity).
  intros Ht. rewrite forallb_forall in H.
  specialize (H tid ltac:(apply in_seq; lia)). now apply bool_decide_eq_true in H.
Qed.

Lemma rootTable_typeB i :
  (i < 128)%nat ->
  rootAt rootTable (112 + i)
  = map (fun d => if Z.testbit (Z.of_nat (i / 2)) d then (-1 # 2)%Q else (1 # 2)%Q) dims.
Proof.
  assert (H : forallb (fun i => bool_decide (rootAt rootTable (112 + i)
             = map (fun d => if Z.testbit (Z.of_nat (i / 2)) d then (-1 # 2)%Q else (1 # 2)%Q) dims))
             (seq 0 128) = true) by (vm_compute; reflexivity).
  intros Hi. rewrite forallb_forall in H.
  specialize (H i ltac:(apply in_seq; lia)). now apply bool_decide_eq_true in H.
Qed.

(** X12. The table in closed form, for every thread order: slot [tid]
    below 112 holds (s, 0, ..., 0) with s = -1 when [tid mod 4] is 0 or 1
    and s = 1 otherwise; slot [112 + i] holds -1/2 in the coordinates [d]
    where bit [d] of [i / 2] is set and 1/2 elsewhere. The 240 slots hold 66
    distinct vectors. *)
Theorem initE8Roots_degenerate (sched : list Z) (roots0 : list Q) :
  sched ≡ₚ threadIds -> length roots0 = 1920%nat ->
  let roots := initE8Roots sched roots0 in
  (forall tid, (tid < 112)%nat ->
     rootAt roots tid
     = [if (tid mod 4 <? 2)%nat then (-1)%Q else 1%Q; 0%Q; 0%Q; 0%Q; 0%Q; 0%Q; 0%Q; 0%Q])
  /\ (forall i, (i < 128)%nat ->
        rootAt roots (112 + i)
        = map (fun d => if Z.testbit (Z.of_nat (i / 2)) d then (-1 # 2)%Q else (1 # 2)%Q) dims)
  /\ distinctRoots roots = 66%nat.
Proof.
  intros Hs Hl roots. unfold roots. rewrite (initE8Roots_table sched roots0 Hs Hl).
  split; [exact rootTable_typeA|]. split; [exact rootTable_typeB|].
  vm_compute. reflexivity.
Qed.

Lemma initE8Roots_degenerate_witness :
  let roots := initE8Roots (reverse threadIds) (replicate 1920 1%Q) in
  (forall tid, (tid < 112)%nat ->
     rootAt roots tid
     = [if (tid mod 4 <? 2)%nat then (-1)%Q else 1%Q; 0%Q; 0%Q; 0%Q; 0%Q; 0%Q; 0%Q; 0%Q])
  /\ (forall i, (i < 128)%nat ->
        rootAt roots (112 + i)
        = map (fun d => if Z.testbit (Z.of_nat (i / 2)) d then (-1 # 2)%Q else (1 # 2)%Q) dims)
  /\ distinctRoots roots = 66%nat.
Proof.
  apply (initE8Roots_degenerate (reverse threadIds) (replicate 1920 1%Q)).
  - apply reverse_Permutation.
  - apply length_replicate.
Defined.

(** ** E8: the root index of a vector *)
Section NearestRoot.

Variable distance : list Q -> list Q -> Q.
Variables roots vec : list Q.

Let dist (r : nat) : Q := distance vec (rootAt roots r).

(** After the first [m] roots: [bestRoot] is 0 or one of them, every root
    before it is strictly further away, and none of the [m] is nearer than
    [minDist]. *)
Lemma nearest_prefix (m : nat) :
  let st := foldl (nearestStep distance roots vec) (10000000000%Q, 0%nat) (seq 0 m) in
  (snd st = 0%nat \/ (snd st < m)%nat)
  /\ (forall j, (j < snd st)%nat -> (dist (snd st) < dist j)%Q)
  /\ (forall j, (j < m)%nat -> (fst st <= dist j)%Q)
  /\ (snd st <> 0%nat -> fst st = dist (snd st)).
Proof.
  induction m as [|m IH]; cbn zeta.
  - cbn [seq foldl fst snd]. repeat split; intros; lia.
  - rewrite seq_S, foldl_app. cbn [foldl Nat.add].
    destruct IH as (Hb & Hlt & Hle & Heq).
    set (st := foldl _ _ (seq 0 m)) in *.
    assert (Hstep : nearestStep distance roots vec st m
                    = if Qlt_le_dec (dist m) (fst st) then (dist m, m) else st) by reflexivity.
    rewrite Hstep. clear Hstep.
    destruct (Qlt_le_dec (dist m) (fst st)) as [Hnear|Hfar]; cbn [fst snd].
    + split; [right; lia|]. split; [|split; [|reflexivity]].
      * intros j Hj. eapply Qlt_le_trans; [exact Hnear|]. apply Hle. exact Hj.
      * intros j Hj. destruct (decide (j = m)) as [->|Hne]; [apply Qle_refl|].
        apply Qlt_le_weak. eapply Qlt_le_trans; [exact Hnear|]. apply Hle. lia.
    + split; [destruct Hb; [now left|right; lia]|]. split; [exact Hlt|]. split; [|exact Heq].
      intros j Hj. destruct (decide (j = m)) as [->|Hne]; [exact Hfar|]. apply Hle. lia.
Qed.

Lemma findNearestRoot_first :
  let best := findNearestRoot distance roots vec in
  (best < 240)%nat /\ forall j, (j < best)%nat -> rootAt roots j <> rootAt roots best.
Proof.
  cbn zeta. unfold findNearestRoot.
  destruct (nearest_prefix 240) as (Hb & Hlt & _ & _). split; [lia|].
  intros j Hj Heq. specialize (Hlt j Hj). unfold dist in Hlt. rewrite Heq in Hlt.
  exact (Qlt_irrefl _ Hlt).
Qed.

End NearestRoot.

(** A slot that is not 0, 2 or an even slot from 112 on repeats the vector of
    an earlier slot. *)
Lemma rootTable_repeats i :
  (i < 240)%nat -> i <> 0%nat -> i <> 2%nat -> ~ ((112 <= i)%nat /\ Nat.even i = true) ->
  exists j, (j < i)%nat /\ rootAt rootTable j = rootAt rootTable i.
Proof.
  intros Hi H0 H2 Heven.
  destruct (Nat.lt_ge_cases i 112) as [Hlow|Hhigh].
  - exists (if (i mod 4 <? 2)%nat then 0 else 2)%nat.
    pose proof (Nat.mod_upper_bound i 4 ltac:(lia)) as Hm.
    pose proof (Nat.div_mod_eq i 4) as Hd.
    destruct (Nat.ltb_spec (i mod 4) 2) as [Hs|Hs].
    + split; [lia|]. rewrite (rootTable_typeA 0), (rootTable_typeA i) by lia.
      replace (i mod 4 <? 2)%nat with true by (symmetry; apply Nat.ltb_lt; lia). reflexivity.
    + split; [lia|]. rewrite (rootTable_typeA 2), (rootTable_typeA i) by lia.
      replace (i mod 4 <? 2)%nat with false by (symmetry; apply Nat.ltb_ge; lia). reflexivity.
  - assert (Hodd : Nat.even i = false) by (destruct (Nat.even i); [exfalso; apply Heven; split; [lia|reflexivity]|reflexivity]).
    assert (Ho : Nat.odd i = true) by (rewrite <- Nat.negb_even, Hodd; reflexivity).
    apply Nat.odd_spec in Ho as [k Hk].
    exists (i - 1)%nat. split; [lia|].
    replace i with (112 + (1 + (k - 56) * 2))%nat at 2 by lia.
    replace (i - 1)%nat with (112 + (0 + (k - 56) * 2))%nat by lia.
    rewrite !rootTable_typeB by lia. rewrite !Nat.div_add by lia. reflexivity.
Qed.

(** X13. Whatever the distance computed from a vector and the
    coordinates of a root, the index that [findNearestRoot] stores is below
    240 and is the first slot holding its vector; with the table of
    [initE8Roots] it is 0, 2 or an even number from 112 to 238. *)
Theorem findNearestRoot_index (distance : list Q -> list Q -> Q) (sched : list Z)
    (roots0 vec : list Q) :
  sched ≡ₚ threadIds -> length roots0 = 1920%nat ->
  let roots := initE8Roots sched roots0 in
  let best := findNearestRoot distance roots vec in
  (best < 240)%nat
  /\ (forall j, (j < best)%nat -> rootAt roots j <> rootAt roots best)
  /\ (best = 0%nat \/ best = 2%nat \/ ((112 <= best)%nat /\ Nat.even best = true)).
Proof.
  intros Hs Hl roots best. unfold best, roots. rewrite (initE8Roots_table sched roots0 Hs Hl).
  destruct (findNearestRoot_first distance rootTable vec) as [Hlt Hfirst].
  split; [exact Hlt|]. split; [exact Hfirst|].
  set (b := findNearestRoot distance rootTable vec) in *.
  destruct (decide (b = 0%nat)) as [?|H0]; [now left|].
  destruct (decide (b = 2%nat)) as [?|H2]; [right; now left|].
  destruct (decide ((112 <= b)%nat /\ Nat.even b = true)) as [?|He]; [right; now right|].
  exfalso. destruct (rootTable_repeats b Hlt H0 H2 He) as (j & Hj & Heq).
  exact (Hfirst j Hj Heq).
Qed.

Lemma findNearestRoot_index_witness :
  let distance := fun vec root : list Q =>
    foldr Qplus 0%Q (zip_with (fun x y => ((x - y) * (x - y))%Q) vec root) in
  let roots := initE8Roots threadIds (replicate 1920 0%Q) in
  let best := findNearestRoot distance roots (replicate 8 (1 # 2)%Q) in
  (best < 240)%nat
  /\ (forall j, (j < best)%nat -> rootAt roots j <> rootAt roots best)
  /\ (best = 0%nat \/ best = 2%nat \/ ((112 <= best)%nat /\ Nat.even best = true)).
Proof.
  apply (findNearestRoot_index
           (fun vec root : list Q =>
              foldr Qplus 0%Q (zip_with (fun x y => ((x - y) * (x - y))%Q) vec root))
           threadIds (replicate 1920 0%Q) (replicate 8 (1 # 2)%Q)).
  - reflexivity.
  - apply length_replicate.
Defined.

(** ** Range coder: renormalization *)
Lemma range_renormStep b cs e : range (renormStep b cs e) = u64 (range e * 256).
Proof. unfold renormStep. cbn [range]. now rewrite Z.shiftl_mul_pow2 by lia. Qed.

Lemma renormalize_zero fuel b cs : forall e, range e = 0 -> renormalize fuel b cs e = Hang.
Proof.
  induction fuel as [|fuel IH]; intros e He; cbn [renormalize]; rewrite He; cbn.
  - reflexivity.
  - apply IH. rewrite range_renormStep, He. reflexivity.
Qed.

Lemma renormalize_pos fuel b cs : forall e,
  0 < range e < 2 ^ 64 -> 2 ^ 24 <= range e * 2 ^ (8 * Z.of_nat fuel) ->
  exists e', renormalize fuel b cs e = Ok e'
             /\ 2 ^ 24 <= range e'
             /\ (range e < 2 ^ 32 -> range e' < 2 ^ 32)
             /\ length (output e') = length (output e).
Proof.
  induction fuel as [|fuel IH]; intros e He Hf; cbn [renormalize].
  - change (8 * Z.of_nat 0) with 0 in Hf. rewrite Z.pow_0_r, Z.mul_1_r in Hf.
    change (Z.shiftl 1 24) with (2 ^ 24).
    replace (range e <? 2 ^ 24) with false by (symmetry; apply Z.ltb_ge; lia).
    exists e. repeat split; [lia|tauto].
  - change (Z.shiftl 1 24) with (2 ^ 24).
    destruct (range e <? 2 ^ 24) eqn:E; zbool.
    + destruct (IH (renormStep b cs e)) as (e' & Hr & Hlo & Hhi & Hlen).
      * rewrite range_renormStep, u64_small by lia. lia.
      * rewrite range_renormStep, u64_small by lia.
        replace (8 * Z.of_nat (S fuel)) with (8 + 8 * Z.of_nat fuel) in Hf by lia.
        rewrite Z.pow_add_r in Hf by lia. change (2 ^ 8) with 256 in Hf. lia.
      * exists e'. split; [exact Hr|]. split; [exact Hlo|]. split.
        -- intros _. apply Hhi. rewrite range_renormStep, u64_small by lia. lia.
        -- rewrite Hlen. unfold renormStep. cbn [output].
           destruct (32 <=? bitsInWord e + 8); [apply length_wr|reflexivity].
    + exists e. repeat split; [lia|tauto].
Qed.

(** X14. The renormalization loop does not end when [range] is 0; for
    a [range] from 1 to 2^32 - 1 it ends within three rounds, with [range]
    between 2^24 and 2^32 - 1. *)
Theorem renormalize_terminates (fuel : nat) (blockId chunkSize : Z) (e : Enc) :
  (range e = 0 -> renormalize fuel blockId chunkSize e = Hang)
  /\ (0 < range e < 2 ^ 32 -> (3 <= fuel)%nat ->
      exists e', renormalize fuel blockId chunkSize e = Ok e'
                 /\ 2 ^ 24 <= range e' < 2 ^ 32).
Proof.
  split; [apply renormalize_zero|].
  intros He Hfuel.
  destruct (renormalize_pos fuel blockId chunkSize e) as (e' & Hr & Hlo & Hhi & _); [lia| |].
  - assert (2 ^ 24 <= 2 ^ (8 * Z.of_nat fuel)) by (apply Z.pow_le_mono_r; lia). nia.
  - exists e'. split; [exact Hr|]. split; [exact Hlo|apply Hhi; lia].
Qed.

Lemma renormalize_terminates_witness :
  renormalize 8 0 4096 (mkEnc 0 0 0 0 0 []) = Hang
  /\ exists e', renormalize 8 0 4096 (mkEnc 5 1 0 0 0 [0]) = Ok e' /\ 2 ^ 24 <= range e' < 2 ^ 32.
Proof.
  split.
  - apply (renormalize_terminates 8 0 4096 (mkEnc 0 0 0 0 0 [])). reflexivity.
  - apply (renormalize_terminates 8 0 4096 (mkEnc 5 1 0 0 0 [0])); [simpl; lia|lia].
Defined.

(** ** Range coder: one symbol *)
Section Symbol.

Variable input : list byte.
Variable cdf : list Z.
Variables total blockId chunkSize : Z.
Variable e : Enc.
Variable i : nat.
Variable b : byte.

Let symRange := u32 (symHighOf cdf total (byteZ b) - rd cdf (byteZ b)).

Hypothesis read : input !! i = Some b.
Hypothesis range_ok : 2 ^ 24 <= range e < 2 ^ 32.
Hypothesis total_ok : 0 < total < 2 ^ 32.

Lemma symbol_product : 0 <= range e * symRange < 2 ^ 64.
Proof.
  pose proof (u32_range (symHighOf cdf total (byteZ b) - rd cdf (byteZ b))) as Hw.
  fold symRange in Hw. nia.
Qed.

(** A slice narrower than [total / range] makes the new range 0. *)
Lemma encodeSymbol_narrow :
  range e * symRange < total ->
  encodeSymbol input cdf total blockId chunkSize e (Z.of_nat i) = Hang.
Proof.
  intros Hsmall. pose proof symbol_product as Hprod.
  unfold encodeSymbol. rewrite Nat2Z.id, read. fold symRange.
  rewrite (u64_small (range e * symRange)) by exact Hprod.
  apply renormalize_zero. cbn [range]. apply Z.div_small. lia.
Qed.

Lemma encodeSymbol_wide :
  total <= range e * symRange ->
  exists e', encodeSymbol input cdf total blockId chunkSize e (Z.of_nat i) = Ok e'
             /\ 2 ^ 24 <= range e'
             /\ (symRange <= total -> range e' < 2 ^ 32)
             /\ length (output e') = length (output e).
Proof.
  intros Hbig. pose proof symbol_product as Hprod.
  unfold encodeSymbol. rewrite Nat2Z.id, read. fold symRange.
  rewrite (u64_small (range e * symRange)) by exact Hprod.
  assert (Hq : 1 <= range e * symRange / total) by (apply Z.div_le_lower_bound; lia).
  assert (Hq2 : range e * symRange / total <= range e * symRange)
    by (apply Z.div_le_upper_bound; nia).
  match goal with |- exists e', renormalize 8 _ _ ?e0 = _ /\ _ =>
    destruct (renormalize_pos 8 blockId chunkSize e0) as (e' & Hr & Hlo & Hhi & Hlen)
  end.
  - cbn [range]. lia.
  - cbn [range]. change (2 ^ (8 * Z.of_nat 8)) with (2 ^ 64). lia.
  - exists e'. split; [exact Hr|]. split; [exact Hlo|]. split; [|exact Hlen].
    intros Hle. apply Hhi. cbn [range].
    apply Z.div_lt_upper_bound; [lia|]. nia.
Qed.

End Symbol.

(** X15. With [range] between 2^24 and 2^32 - 1, a symbol whose slice
    is narrower than [total / range] makes the new [range] 0 and the
    renormalization loop does not end; any other symbol is encoded, and
    [range] is at least 2^24 again (and below 2^32 when the slice is no
    wider than [total]). *)
Theorem encodeSymbol_outcome (input : list byte) (cdf : list Z) (total blockId chunkSize : Z)
    (e : Enc) (i : nat) (b : byte) :
  input !! i = Some b ->
  2 ^ 24 <= range e < 2 ^ 32 -> 0 < total < 2 ^ 32 ->
  let symRange := u32 (symHighOf cdf total (byteZ b) - rd cdf (byteZ b)) in
  (range e * symRange < total ->
     encodeSymbol input cdf total blockId chunkSize e (Z.of_nat i) = Hang)
  /\ (total <= range e * symRange ->
      exists e', encodeSymbol input cdf total blockId chunkSize e (Z.of_nat i) = Ok e'
                 /\ 2 ^ 24 <= range e'
                 /\ (symRange <= total -> range e' < 2 ^ 32)).
Proof.
  intros Hb He Ht symRange. split.
  - now apply encodeSymbol_narrow.
  - intros Hbig.
    destruct (encodeSymbol_wide input cdf total blockId chunkSize e i b Hb He Ht Hbig)
      as (e' & Hr & Hlo & Hhi & _).
    exists e'. split; [exact Hr|]. split; [exact Hlo|exact Hhi].
Qed.

Lemma encodeSymbol_outcome_witness :
  encodeSymbol ["a"; "b"]%byte (replicate 256 0) 2 0 4096
    (mkEnc 0 MAX_RANGE 0 0 0 [0]) 0 = Hang
  /\ exists e', encodeSymbol ["a"; "b"]%byte (replicate 98 0 ++ replicate 158 1) 2 0 4096
                  (mkEnc 0 MAX_RANGE 0 0 0 [0]) 0 = Ok e'
                /\ 2 ^ 24 <= range e'.
Proof.
  split.
  - apply (encodeSymbol_outcome ["a"; "b"]%byte (replicate 256 0) 2 0 4096
             (mkEnc 0 MAX_RANGE 0 0 0 [0]) 0 "a"%byte); try reflexivity.
    + vm_compute. split; [discriminate|reflexivity].
    + lia.
  - destruct (encodeSymbol_outcome ["a"; "b"]%byte (replicate 98 0 ++ replicate 158 1) 2 0 4096
                (mkEnc 0 MAX_RANGE 0 0 0 [0]) 0 "a"%byte) as [_ H]; try reflexivity.
    + vm_compute. split; [discriminate|reflexivity].
    + lia.
    + destruct H as (e' & Hr & Hlo & _); [vm_compute; discriminate|].
      exists e'. split; [exact Hr|exact Hlo].
Defined.

(** ** Range coder: the slices of the symbols *)
Section Slices.

Variable input : list byte.
Variable sched : Schedule.

Let size := Z.of_nat (length input).
Let freq := countFrequencies input (Z.to_nat (freqBlocks size)) sched.
Let cdf := buildCDF freq.

Hypothesis size_int : size <= inputLimit.
Hypothesis sched_fair : fair size (Z.to_nat (freqBlocks size)) sched.

Lemma slices_freq : freq = histogram input /\ counters freq /\ sumZ freq = size.
Proof.
  assert (H : freq = histogram input) by (apply countFrequencies_is_histogram; assumption).
  split; [exact H|]. rewrite H. split; [now apply histogram_counters|apply histogram_total].
Qed.

Lemma slices_low s : 0 <= s <= 256 -> 0 <= prefixSum freq s <= size.
Proof.
  intros Hs. destruct slices_freq as (_ & Hc & Hsum).
  pose proof (prefixSum_mono freq Hc 0 s ltac:(lia)) as H0.
  pose proof (prefixSum_mono freq Hc s 256 ltac:(lia)) as H1.
  rewrite (prefixSum_nonpos freq 0) in H0 by lia.
  rewrite (prefixSum_all freq Hc), Hsum in H1. lia.
Qed.

Lemma slices_cdf s : 0 <= s < 256 -> rd cdf s = prefixSum freq s.
Proof.
  intros Hs. destruct slices_freq as (_ & Hc & _).
  unfold cdf. rewrite (rd_buildCDF freq Hc s Hs).
  pose proof (slices_low s ltac:(lia)). unfold inputLimit in size_int.
  apply u32_small. lia.
Qed.

Lemma slices_high s :
  0 <= s < 256 -> symHighOf cdf (totalOf input) s = prefixSum freq s + occurrences s input.
Proof.
  intros Hs. destruct slices_freq as (_ & Hc & Hsum).
  assert (Hocc : rd freq s = occurrences s input) by (apply rd_countFrequencies; assumption).
  rewrite <- Hocc, <- (prefixSum_succ freq Hc s Hs).
  unfold symHighOf. destruct (s <? 255) eqn:E; zbool.
  - apply slices_cdf. lia.
  - replace s with 255 by lia. change (255 + 1) with 256.
    rewrite (prefixSum_all freq Hc), Hsum.
    unfold totalOf. fold size. unfold inputLimit in size_int. apply u32_small. unfold size. lia.
Qed.

Lemma slices_total : totalOf input = size.
Proof. unfold totalOf. fold size. unfold inputLimit in size_int. apply u32_small. unfold size. lia. Qed.

Lemma slices_width s :
  0 <= s < 256 ->
  u32 (symHighOf cdf (totalOf input) s - rd cdf s) = occurrences s input.
Proof.
  intros Hs. rewrite slices_high, slices_cdf by exact Hs.
  replace (prefixSum freq s + occurrences s input - prefixSum freq s)
    with (occurrences s input) by lia.
  pose proof (occurrences_range s input). unfold inputLimit in size_int.
  apply u32_small. fold size in H. lia.
Qed.

End Slices.

(** X16. For the tables built from an input, the slice
    [[symLow, symHigh)] that [encodeBlocks] uses for a symbol has the number
    of occurrences of the symbol as its width, also as the [unsigned int]
    difference, and lies inside [[0, total]]. *)
Theorem cdf_slices (input : list byte) (sched : Schedule) (s : Z) :
  Z.of_nat (length input) <= inputLimit ->
  fair (Z.of_nat (length input)) (Z.to_nat (freqBlocks (Z.of_nat (length input)))) sched ->
  0 <= s < 256 ->
  let freq := countFrequencies input (Z.to_nat (freqBlocks (Z.of_nat (length input)))) sched in
  let cdf := buildCDF freq in
  let symLow := rd cdf s in
  let symHigh := symHighOf cdf (totalOf input) s in
  symHigh - symLow = occurrences s input
  /\ u32 (symHigh - symLow) = occurrences s input
  /\ 0 <= symLow /\ symLow <= symHigh /\ symHigh <= totalOf input.
Proof.
  intros Hsize Hfair Hs freq cdf symLow symHigh.
  pose proof (slices_high input sched Hsize Hfair s Hs) as Hh.
  pose proof (slices_cdf input sched Hsize Hfair s Hs) as Hl.
  pose proof (slices_width input sched Hsize Hfair s Hs) as Hw.
  pose proof (slices_low input sched Hsize Hfair s ltac:(lia)) as Hlo.
  pose proof (slices_total input Hsize) as Ht.
  pose proof (occurrences_range s input) as Ho.
  fold freq cdf symLow symHigh in Hh, Hl, Hw. fold freq in Hlo.
  assert (Hup : prefixSum freq s + occurrences s input <= Z.of_nat (length input)).
  { destruct (slices_freq input sched Hsize Hfair) as (_ & Hc & Hsum). fold freq in Hc, Hsum.
    pose proof (prefixSum_succ freq Hc s Hs) as Hsucc.
    unfold freq in Hsucc at 3.
    rewrite (rd_countFrequencies input Hsize sched Hfair s Hs) in Hsucc.
    pose proof (slices_low input sched Hsize Hfair (s + 1) ltac:(lia)) as Hnext.
    fold freq in Hnext. lia. }
  clearbody symLow symHigh. rewrite Ht. repeat split; lia.
Qed.

Lemma inOrder_fair size grid : fair size grid (inOrder size grid).
Proof. split; [intros b Hb|]; reflexivity. Qed.

Lemma cdf_slices_witness :
  let input := ["a"; "b"; "a"]%byte in
  let freq := countFrequencies input 1 (inOrder 3 1) in
  let cdf := buildCDF freq in
  symHighOf cdf (totalOf input) 97 - rd cdf 97 = occurrences 97 input
  /\ u32 (symHighOf cdf (totalOf input) 97 - rd cdf 97) = occurrences 97 input
  /\ 0 <= rd cdf 97 /\ rd cdf 97 <= symHighOf cdf (totalOf input) 97
  /\ symHighOf cdf (totalOf input) 97 <= totalOf input.
Proof.
  apply (cdf_slices ["a"; "b"; "a"]%byte (inOrder 3 1) 97).
  - vm_compute. discriminate.
  - apply inOrder_fair.
  - lia.
Defined.

(** ** Range coder: inputs of whole chunks *)
Section Coding.

Variable input : list byte.
Variable cdf : list Z.
Variable total : Z.

Hypothesis total_ok : 0 < total <= 2 ^ 24.
Hypothesis slice_ok : forall i b, input !! i = Some b ->
  1 <= u32 (symHighOf cdf total (byteZ b) - rd cdf (byteZ b)) <= total.

Lemma encodeRange_ok blockId chunkSize n : forall e (i : nat),
  (i + n <= length input)%nat -> 2 ^ 24 <= range e < 2 ^ 32 ->
  exists e', encodeRange n input cdf total blockId chunkSize e (Z.of_nat i) = Ok e'
             /\ 2 ^ 24 <= range e' < 2 ^ 32.
Proof.
  induction n as [|n IH]; intros e i Hi He; cbn [encodeRange].
  - exists e. split; [reflexivity|exact He].
  - destruct (lookup_lt_is_Some_2 input i) as [b Hb]; [lia|].
    pose proof (slice_ok i b Hb) as Hw.
    destruct (encodeSymbol_wide input cdf total blockId chunkSize e i b Hb He)
      as (e1 & Hr & Hlo & Hhi & _); [lia|nia|].
    rewrite Hr. cbn [bind]. replace (Z.of_nat i + 1) with (Z.of_nat (S i)) by lia.
    apply IH; [lia|]. split; [exact Hlo|apply Hhi; lia].
Qed.

Lemma encodeBlock_ok numChunks arrays blockId :
  0 <= blockId < numChunks -> numChunks * CHUNK_SIZE <= Z.of_nat (length input) ->
  Z.of_nat (length input) < 2 ^ 64 ->
  exists arrays', encodeBlock input cdf total CHUNK_SIZE numChunks arrays blockId = Ok arrays'.
Proof.
  intros Hb Hn Hsize. unfold encodeBlock.
  rewrite chunkEnd_full by (unfold CHUNK_SIZE in *; lia).
  unfold chunkStart, CHUNK_SIZE in *. rewrite u64_small by lia.
  replace (blockId * 4096 + 4096 - blockId * 4096) with 4096 by lia.
  match goal with |- exists a, bind (encodeRange _ _ _ _ _ _ ?e0 _) _ = _ =>
    destruct (encodeRange_ok blockId 4096 (Z.to_nat 4096) e0 (Z.to_nat (blockId * 4096)))
      as (e' & Hr & _)
  end.
  - lia.
  - cbn [range]. change MAX_RANGE with 4294967295. lia.
  - rewrite Z2Nat.id in Hr by lia. rewrite Hr. cbn [bind]. eexists. reflexivity.
Qed.

Lemma encodeBlocks_ok numChunks (bs : list Z) : forall arrays,
  Forall (fun b => 0 <= b < numChunks) bs ->
  numChunks * CHUNK_SIZE <= Z.of_nat (length input) -> Z.of_nat (length input) < 2 ^ 64 ->
  exists arrays',
    foldl (fun acc b => bind acc (fun a => encodeBlock input cdf total CHUNK_SIZE numChunks a b))
          (Ok arrays) bs = Ok arrays'.
Proof.
  induction bs as [|b bs IH]; intros arrays Hbs Hn Hsize; cbn [foldl].
  - eexists. reflexivity.
  - inversion Hbs as [|? ? Hb Hrest]; subst.
    destruct (encodeBlock_ok numChunks arrays b Hb Hn Hsize) as (a1 & Ha1).
    cbn [bind]. rewrite Ha1. apply IH; assumption.
Qed.

End Coding.

Lemma blockIds_range numChunks :
  Forall (fun b => 0 <= b < numChunks) (map Z.of_nat (seq 0 (Z.to_nat numChunks))).
Proof.
  apply Forall_forall. intros b Hb. apply in_map_iff in Hb as (k & <- & Hk).
  apply in_seq in Hk. lia.
Qed.

Lemma occurrences_pos input i b : input !! i = Some b -> 1 <= occurrences (byteZ b) input.
Proof.
  revert i. induction input as [|x l IH]; intros i Hi; [discriminate|].
  rewrite occurrences_cons. pose proof (occurrences_range (byteZ b) l) as Hr.
  destruct i as [|i]; cbn in Hi.
  - inversion Hi; subst. rewrite Z.eqb_refl. lia.
  - specialize (IH i Hi). destruct (byteZ x =? byteZ b); lia.
Qed.

(** ** Range coder: an input of one repeated byte *)
Section Unchanged.

Variable input : list byte.
Variable cdf : list Z.
Variable total : Z.

Hypothesis total_ok : 0 < total < 2 ^ 32.
Hypothesis slice_all : forall i b, input !! i = Some b ->
  rd cdf (byteZ b) = 0 /\ u32 (symHighOf cdf total (byteZ b) - rd cdf (byteZ b)) = total.

(** A symbol whose slice is the whole interval leaves the coder as it is. *)
Lemma encodeSymbol_id blockId chunkSize e (i : nat) :
  (i < length input)%nat -> 2 ^ 24 <= range e < 2 ^ 32 -> 0 <= low e < 2 ^ 64 ->
  encodeSymbol input cdf total blockId chunkSize e (Z.of_nat i) = Ok e.
Proof.
  intros Hi He Hlow. destruct (lookup_lt_is_Some_2 input i Hi) as [b Hb].
  destruct (slice_all i b Hb) as [Hl Hw].
  unfold encodeSymbol. rewrite Nat2Z.id, Hb, Hw, Hl.
  rewrite Z.mul_0_r. change (u64 0) with 0. rewrite Z.div_0_l by lia. rewrite Z.add_0_r.
  rewrite (u64_small (low e)) by exact Hlow.
  rewrite (u64_small (range e * total)) by nia.
  rewrite Z.div_mul by lia.
  cbn [renormalize range]. change (Z.shiftl 1 24) with (2 ^ 24).
  replace (range e <? 2 ^ 24) with false by (symmetry; apply Z.ltb_ge; lia).
  now destruct e.
Qed.

Lemma encodeRange_id blockId chunkSize n : forall e (i : nat),
  (i + n <= length input)%nat -> 2 ^ 24 <= range e < 2 ^ 32 -> 0 <= low e < 2 ^ 64 ->
  encodeRange n input cdf total blockId chunkSize e (Z.of_nat i) = Ok e.
Proof.
  induction n as [|n IH]; intros e i Hi He Hlow; cbn [encodeRange]; [reflexivity|].
  rewrite encodeSymbol_id by (try lia; assumption). cbn [bind].
  replace (Z.of_nat i + 1) with (Z.of_nat (S i)) by lia. apply IH; [lia|assumption|assumption].
Qed.

Lemma encodeBlock_id numChunks arrays blockId :
  0 <= blockId < numChunks -> numChunks * CHUNK_SIZE <= Z.of_nat (length input) ->
  Z.of_nat (length input) < 2 ^ 64 ->
  encodeBlock input cdf total CHUNK_SIZE numChunks arrays blockId
  = Ok (fst arrays, wr (snd arrays) blockId 0).
Proof.
  intros Hb Hn Hsize. unfold encodeBlock.
  rewrite chunkEnd_full by (unfold CHUNK_SIZE in *; lia).
  unfold chunkStart, CHUNK_SIZE in *. rewrite u64_small by lia.
  replace (blockId * 4096 + 4096 - blockId * 4096) with 4096 by lia.
  match goal with |- bind (encodeRange _ _ _ _ _ _ ?e0 _) _ = _ =>
    pose proof (encodeRange_id blockId 4096 (Z.to_nat 4096) e0 (Z.to_nat (blockId * 4096)))
      as Hr
  end.
  rewrite Z2Nat.id in Hr by lia. rewrite Hr.
  - reflexivity.
  - lia.
  - cbn [range]. change MAX_RANGE with 4294967295. lia.
  - cbn [low]. lia.
Qed.

Lemma encodeBlocks_id numChunks (bs : list Z) : forall arrays,
  Forall (fun b => 0 <= b < numChunks) bs ->
  numChunks * CHUNK_SIZE <= Z.of_nat (length input) -> Z.of_nat (length input) < 2 ^ 64 ->
  foldl (fun acc b => bind acc (fun a => encodeBlock input cdf total CHUNK_SIZE numChunks a b))
        (Ok arrays) bs
  = Ok (fst arrays, foldl (fun l b => wr l b 0) (snd arrays) bs).
Proof.
  induction bs as [|b bs IH]; intros arrays Hbs Hn Hsize; cbn [foldl].
  - now destruct arrays.
  - inversion Hbs as [|? ? Hb Hrest]; subst. cbn [bind].
    rewrite (encodeBlock_id numChunks arrays b Hb Hn Hsize).
    rewrite IH by assumption. reflexivity.
Qed.

End Unchanged.

Lemma zero_lengths (lens : list Z) (m : nat) :
  (m <= length lens)%nat ->
  foldl (fun l b => wr l b 0) lens (map Z.of_nat (seq 0 m)) = replicate m 0 ++ drop m lens.
Proof.
  induction m as [|m IH]; intros Hm; [reflexivity|].
  rewrite seq_S, map_app, foldl_app. cbn [map foldl]. rewrite IH by lia.
  unfold wr. rewrite Nat2Z.id.
  destruct (lookup_lt_is_Some_2 lens m) as [x Hx]; [lia|].
  rewrite (drop_S _ _ _ Hx).
  rewrite insert_app_r_alt by (rewrite length_replicate; lia).
  rewrite length_replicate, Nat.sub_diag. cbn [list_insert].
  rewrite replicate_S_end, <- app_assoc. reflexivity.
Qed.

Lemma sumZ_zeros m : sumZ (replicate m 0) = 0.
Proof. induction m as [|m IH]; [reflexivity|]. cbn. exact IH. Qed.

Lemma prefixSum_below_constant (n : nat) (b : byte) (k : nat) :
  Z.of_nat n <= inputLimit -> Z.of_nat k <= byteZ b ->
  prefixSum (histogram (replicate n b)) (Z.of_nat k) = 0.
Proof.
  intros Hn. pose proof (byteZ_range b) as Hb.
  assert (Hc : counters (histogram (replicate n b)))
    by (apply histogram_counters; rewrite length_replicate; exact Hn).
  induction k as [|k IH]; intros Hk.
  - apply prefixSum_nonpos. lia.
  - replace (Z.of_nat (S k)) with (Z.of_nat k + 1) by lia.
    rewrite (prefixSum_succ _ Hc) by lia. rewrite IH by lia.
    unfold histogram. rewrite rd_map_symbols by lia. rewrite occurrences_replicate.
    replace (byteZ b =? Z.of_nat k) with false by (symmetry; apply Z.eqb_neq; lia).
    reflexivity.
Qed.

(** X18. An input that repeats one byte a multiple of 4096 times is
    encoded to nothing: every chunk length is 0, the compressed size is 0
    and nothing is copied to [h_output]. *)
Theorem arithmeticCompress_constant (n : nat) (b : byte) (sched : Schedule)
    (out0 lens0 : list Z) (dst : Dest) :
  let input := replicate n b in
  Z.of_nat n <= INT_MAX ->
  Z.of_nat n mod CHUNK_SIZE = 0 ->
  fair (Z.of_nat (length input)) (Z.to_nat (freqBlocks (Z.of_nat (length input)))) sched ->
  Z.of_nat (length lens0) = Z.of_nat n / CHUNK_SIZE ->
  arithmeticCompress input sched out0 lens0 dst
  = Ok (mkResult (Z.of_nat n) 0 0, setOutputSize dst 0).
Proof.
  intros input Hn Hmod Hfair Hlens.
  assert (Hlen : Z.of_nat (length input) = Z.of_nat n)
    by (unfold input; now rewrite length_replicate).
  set (size := Z.of_nat (length input)) in *.
  assert (Hlim : size <= inputLimit) by (unfold inputLimit, INT_MAX in *; lia).
  assert (Hnc : numChunksOf size = size / CHUNK_SIZE /\ numChunksOf size * CHUNK_SIZE = size).
  { rewrite numChunksOf_value by lia. unfold CHUNK_SIZE in *. rewrite <- Hlen in Hmod.
    Z.div_mod_to_equations. lia. }
  destruct Hnc as [Hnc Hfull].
  assert (Hl0 : length lens0 = Z.to_nat (numChunksOf size)) by (rewrite Hnc, Hlen; lia).
  assert (Hnn : 0 <= numChunksOf size)
    by (rewrite Hnc; unfold CHUNK_SIZE; Z.div_mod_to_equations; lia).
  unfold arithmeticCompress. fold size. set (cdf := buildCDF _).
  assert (Hrun : encodeBlocks input cdf (totalOf input) CHUNK_SIZE (numChunksOf size) (out0, lens0)
                 = Ok (out0, replicate (Z.to_nat (numChunksOf size)) 0)).
  { unfold encodeBlocks.
    destruct (Z.eq_dec size 0) as [Hz|Hnz].
    - rewrite Hz. change (Z.to_nat (numChunksOf 0)) with 0%nat. cbn [seq map foldl replicate].
      rewrite Hz in Hl0. change (Z.to_nat (numChunksOf 0)) with 0%nat in Hl0.
      destruct lens0; [reflexivity|discriminate].
    - rewrite (encodeBlocks_id input cdf (totalOf input)).
      + cbn [fst snd]. rewrite zero_lengths by lia.
        rewrite drop_ge by lia. now rewrite app_nil_r.
      + rewrite (slices_total input Hlim). fold size. unfold inputLimit in Hlim. lia.
      + intros i x Hx. unfold input in Hx. apply lookup_replicate in Hx as [-> Hi].
        pose proof (byteZ_range b) as Hb.
        pose proof (slices_cdf input sched Hlim Hfair (byteZ b) Hb) as Hl.
        pose proof (slices_width input sched Hlim Hfair (byteZ b) Hb) as Hw.
        assert (Hp : prefixSum (countFrequencies input
                        (Z.to_nat (freqBlocks (Z.of_nat (length input)))) sched) (byteZ b) = 0).
        { rewrite (countFrequencies_is_histogram input Hlim sched Hfair). unfold input.
          replace (byteZ b) with (Z.of_nat (Z.to_nat (byteZ b))) by lia.
          apply prefixSum_below_constant; [unfold inputLimit, INT_MAX in *; lia|lia]. }
        rewrite Hp in Hl. fold size in Hl, Hw. fold cdf in Hl, Hw.
        split; [exact Hl|]. rewrite Hw. unfold input at 1.
        rewrite occurrences_replicate, Z.eqb_refl.
        rewrite (slices_total input Hlim). fold size. lia.
      + apply blockIds_range.
      + fold size. lia.
      + fold size. unfold inputLimit in Hlim. lia. }
  rewrite Hrun. cbn [bind fst snd]. unfold arithmeticFinish.
  rewrite firstn_all2 by (rewrite length_replicate; lia).
  rewrite sumZ_zeros. change (u64 0) with 0. cbn [Z.ltb andb].
  change (0 <? 0) with false. cbn [andb].
  unfold setCompressedSize, initResult. cbn [originalSize errorCode]. rewrite Hlen. reflexivity.
Qed.

Lemma arithmeticCompress_constant_witness :
  let input := replicate 4096 "000"%byte in
  arithmeticCompress input
    (inOrder (Z.of_nat (length input)) (Z.to_nat (freqBlocks (Z.of_nat (length input)))))
    [] [7] (mkDest ["x"]%byte 1 [])
  = Ok (mkResult (Z.of_nat 4096) 0 0, setOutputSize (mkDest ["x"]%byte 1 []) 0).
Proof.
  apply (arithmeticCompress_constant 4096 "000"%byte
           (inOrder (Z.of_nat (length (replicate 4096 "000"%byte)))
              (Z.to_nat (freqBlocks (Z.of_nat (length (replicate 4096 "000"%byte))))))
           [] [7] (mkDest ["x"]%byte 1 [])).
  - unfold INT_MAX. lia.
  - reflexivity.
  - apply inOrder_fair.
  - reflexivity.
Defined.

(** ** Range coder: the region of a chunk in the output *)
Lemma renormStep_emitted b cs e :
  wordBits e ->
  emitted (renormStep b cs e) = emitted e + 1 /\ wordBits (renormStep b cs e).
Proof.
  unfold wordBits, emitted, renormStep. cbn [outputIdx bitsInWord]. intros Hb.
  destruct (32 <=? bitsInWord e + 8) eqn:E; zbool; split;
    try (Z.div_mod_to_equations; lia); lia.
Qed.

(** Each round of the renormalization loop emits one byte and multiplies
    [range] by 256. *)
Lemma renormalize_emits fuel b cs : forall e e',
  0 < range e < 2 ^ 32 -> wordBits e ->
  renormalize fuel b cs e = Ok e' ->
  exists j, 0 <= j /\ range e' = range e * 256 ^ j
            /\ emitted e' = emitted e + j /\ wordBits e'.
Proof.
  induction fuel as [|fuel IH]; intros e e' He Hb Hrun; cbn [renormalize] in Hrun;
    change (Z.shiftl 1 24) with (2 ^ 24) in Hrun.
  - destruct (range e <? 2 ^ 24); [discriminate|]. inversion Hrun; subst.
    exists 0. rewrite Z.pow_0_r. repeat split; try lia. exact Hb.
  - destruct (range e <? 2 ^ 24) eqn:E; zbool.
    + destruct (renormStep_emitted b cs e Hb) as [Hem Hb1].
      pose proof (range_renormStep b cs e) as Hr. rewrite u64_small in Hr by lia.
      destruct (IH _ _ ltac:(rewrite Hr; lia) Hb1 Hrun) as (j & Hj & Hrange & Hemit & Hb').
      exists (j + 1). rewrite Z.pow_add_r by lia. change (256 ^ 1) with 256.
      rewrite Hrange, Hr, Hemit, Hem. repeat split; try lia. exact Hb'.
    + inversion Hrun; subst. exists 0. rewrite Z.pow_0_r. repeat split; try lia. exact Hb.
Qed.

Section Emission.

Variable input : list byte.
Variable cdf : list Z.
Variable total : Z.
Variables blockId chunkSize : Z.

Let symRangeOf (b : byte) : Z := u32 (symHighOf cdf total (byteZ b) - rd cdf (byteZ b)).

Hypothesis total_ok : 0 < total <= 2 ^ 24.
Hypothesis slice_ok : forall i b, input !! i = Some b -> 1 <= symRangeOf b <= total.

(** A symbol narrows [range] by the width of its slice over [total], and
    every byte it emits widens it by 256. *)
Lemma encodeSymbol_emits e (i : nat) (b : byte) :
  input !! i = Some b -> 2 ^ 24 <= range e < 2 ^ 32 -> wordBits e ->
  exists e', encodeSymbol input cdf total blockId chunkSize e (Z.of_nat i) = Ok e'
             /\ 2 ^ 24 <= range e' < 2 ^ 32 /\ wordBits e'
             /\ emitted e <= emitted e' <= emitted e + 3
             /\ range e' * total <= range e * symRangeOf b * 256 ^ (emitted e' - emitted e).
Proof.
  intros Hb He Hbits. pose proof (slice_ok i b Hb) as Hw.
  destruct (encodeSymbol_wide input cdf total blockId chunkSize e i b Hb He)
    as (e' & Hrun & Hlo & Hhi & _); [lia|fold (symRangeOf b); nia|].
  fold (symRangeOf b) in Hhi. specialize (Hhi ltac:(lia)).
  exists e'. split; [exact Hrun|]. split; [lia|].
  unfold encodeSymbol in Hrun. rewrite Nat2Z.id, Hb in Hrun. fold (symRangeOf b) in Hrun.
  rewrite (u64_small (range e * symRangeOf b)) in Hrun by nia.
  set (r1 := range e * symRangeOf b / total) in *.
  assert (Hr1 : 1 <= r1 /\ r1 * total <= range e * symRangeOf b /\ r1 <= range e).
  { unfold r1. split; [apply Z.div_le_lower_bound; nia|]. split.
    - rewrite Z.mul_comm. apply Z.mul_div_le. lia.
    - apply Z.div_le_upper_bound; [lia|]. nia. }
  apply renormalize_emits in Hrun; [|cbn [range]; lia|exact Hbits].
  destruct Hrun as (j & Hj & Hrange & Hemit & Hb'). cbn [range] in Hrange.
  assert (Hem : emitted e' = emitted e + j) by exact Hemit.
  split; [exact Hb'|].
  assert (Hj3 : j <= 3).
  { destruct (Z_le_gt_dec j 3) as [?|Hgt]; [assumption|exfalso].
    assert (256 ^ 4 <= 256 ^ j) by (apply Z.pow_le_mono_r; lia).
    change (256 ^ 4) with (2 ^ 32) in H. nia. }
  split; [lia|]. replace (emitted e' - emitted e) with j by lia.
  rewrite Hrange. assert (0 < 256 ^ j) by (apply Z.pow_pos_nonneg; lia). nia.
Qed.

Variable w : Z.

(** Over [n] symbols whose slices are no wider than [w]. *)
Lemma encodeRange_emits n : forall e (i : nat),
  (i + n <= length input)%nat ->
  (forall k b, (i <= k < i + n)%nat -> input !! k = Some b -> symRangeOf b <= w) ->
  2 ^ 24 <= range e < 2 ^ 32 -> wordBits e ->
  exists e', encodeRange n input cdf total blockId chunkSize e (Z.of_nat i) = Ok e'
             /\ 2 ^ 24 <= range e' < 2 ^ 32 /\ wordBits e'
             /\ emitted e <= emitted e' <= emitted e + 3 * Z.of_nat n
             /\ range e' * total ^ Z.of_nat n
                <= range e * w ^ Z.of_nat n * 256 ^ (emitted e' - emitted e).
Proof.
  induction n as [|n IH]; intros e i Hi Hwide He Hbits; cbn [encodeRange].
  - exists e. split; [reflexivity|]. split; [exact He|]. split; [exact Hbits|].
    split; [lia|]. rewrite Z.sub_diag. change (Z.of_nat 0) with 0. rewrite !Z.pow_0_r. lia.
  - destruct (lookup_lt_is_Some_2 input i) as [b Hb]; [lia|].
    destruct (encodeSymbol_emits e i b Hb He Hbits) as (e1 & Hrun & He1 & Hb1 & Hem1 & Hn1).
    rewrite Hrun. cbn [bind]. replace (Z.of_nat i + 1) with (Z.of_nat (S i)) by lia.
    destruct (IH e1 (S i)) as (e' & Hrun' & He' & Hb' & Hem' & Hn'); [lia| |exact He1|exact Hb1|].
    { intros k c Hk. apply Hwide. lia. }
    exists e'. split; [exact Hrun'|]. split; [exact He'|]. split; [exact Hb'|].
    split; [lia|].
    pose proof (slice_ok i b Hb) as Hsl. pose proof (Hwide i b ltac:(lia) Hb) as Hwb.
    rewrite Nat2Z.inj_succ, !Z.pow_succ_r by lia.
    replace (emitted e' - emitted e)
      with ((emitted e1 - emitted e) + (emitted e' - emitted e1)) by lia.
    rewrite Z.pow_add_r by lia.
    set (T := total ^ Z.of_nat n) in *. set (W := w ^ Z.of_nat n) in *.
    set (A := 256 ^ (emitted e1 - emitted e)) in *.
    set (B := 256 ^ (emitted e' - emitted e1)) in *.
    assert (HT : 0 <= T) by (apply Z.pow_nonneg; lia).
    assert (HW : 0 <= W) by (apply Z.pow_nonneg; lia).
    assert (HA : 0 < A) by (apply Z.pow_pos_nonneg; lia).
    assert (HB : 0 < B) by (apply Z.pow_pos_nonneg; lia).
    (* range e' * T <= range e1 * W * B  and  range e1 * total <= range e * sym * A *)
    assert (H1 : range e' * T * total <= range e1 * total * (W * B)) by nia.
    assert (H2 : range e1 * total * (W * B) <= range e * symRangeOf b * A * (W * B)).
    { apply Z.mul_le_mono_nonneg_r; [nia|exact Hn1]. }
    assert (H3 : range e * symRangeOf b * A * (W * B) <= range e * w * A * (W * B)).
    { apply Z.mul_le_mono_nonneg_r; [nia|]. apply Z.mul_le_mono_nonneg_r; [lia|]. nia. }
    replace (range e' * (total * T)) with (range e' * T * total) by ring.
    replace (range e * (w * W) * (A * B)) with (range e * w * A * (W * B)) by ring.
    lia.
Qed.

End Emission.

Lemma pow_gap : 512 * 256 ^ 4352 <= 512 ^ 4096.
Proof.
  change 512 with (2 ^ 9). change 256 with (2 ^ 8).
  rewrite <- !Z.pow_mul_r by lia. rewrite <- Z.pow_add_r by lia.
  apply Z.pow_le_mono_r; lia.
Qed.

Lemma emitted_gap (E0 P A T E R : Z) :
  0 < A -> 0 < E0 -> 0 < P -> 512 * E0 <= P -> P * A <= T ->
  2 ^ 24 <= R -> E <= E0 -> R * T <= 4294967295 * A * E -> False.
Proof.
  intros HA HE0 HP Hgap HT HR HE Hinv.
  assert (HPA : 0 < P * A) by (apply Z.mul_pos_pos; assumption).
  assert (HX : 0 < E0 * A) by (apply Z.mul_pos_pos; assumption).
  assert (H1 : 2 ^ 24 * (P * A) <= R * T).
  { transitivity (2 ^ 24 * T); [apply Z.mul_le_mono_nonneg_l; lia|].
    apply Z.mul_le_mono_nonneg_r; lia. }
  assert (H2 : 4294967295 * A * E <= 4294967295 * A * E0)
    by (apply Z.mul_le_mono_nonneg_l; lia).
  assert (H3 : 512 * (E0 * A) <= P * A).
  { replace (512 * (E0 * A)) with (512 * E0 * A) by ring.
    apply Z.mul_le_mono_nonneg_r; lia. }
  replace (4294967295 * A * E0) with (4294967295 * (E0 * A)) in H2 by ring.
  remember (E0 * A) as X. remember (P * A) as Y. lia.
Qed.

(** Slices of at most [total / 512] over a whole chunk: more than 4352
    bytes leave the loop. *)
Lemma emitted_lower (total w R em : Z) :
  1 <= w -> 512 * w <= total -> 2 ^ 24 <= R -> 0 <= em ->
  R * total ^ 4096 <= 4294967295 * w ^ 4096 * 256 ^ em ->
  4352 < em.
Proof.
  intros Hw Hwide HR Hem Hinv.
  destruct (Z_lt_le_dec 4352 em) as [?|Hle]; [assumption|exfalso].
  apply (emitted_gap (256 ^ 4352) (512 ^ 4096) (w ^ 4096) (total ^ 4096) (256 ^ em) R).
  - apply Z.pow_pos_nonneg; lia.
  - apply Z.pow_pos_nonneg; lia.
  - apply Z.pow_pos_nonneg; lia.
  - exact pow_gap.
  - rewrite <- Z.pow_mul_l. apply Z.pow_le_mono_l. lia.
  - exact HR.
  - apply Z.pow_le_mono_r; lia.
  - exact Hinv.
Qed.

Section Overrun.

Variable input : list byte.
Variable cdf : list Z.
Variable total : Z.

Hypothesis total_ok : 0 < total <= 2 ^ 24.
Hypothesis slice_ok : forall i b, input !! i = Some b ->
  1 <= u32 (symHighOf cdf total (byteZ b) - rd cdf (byteZ b)) <= total.

Lemma encodeBlock_overruns numChunks arrays blockId w :
  0 <= blockId < numChunks -> numChunks * CHUNK_SIZE <= Z.of_nat (length input) ->
  Z.of_nat (length input) < 2 ^ 64 ->
  blockId < Z.of_nat (length (snd arrays)) ->
  (forall k b, (Z.to_nat (blockId * CHUNK_SIZE) <= k < Z.to_nat ((blockId + 1) * CHUNK_SIZE))%nat ->
               input !! k = Some b ->
               u32 (symHighOf cdf total (byteZ b) - rd cdf (byteZ b)) <= w) ->
  1 <= w -> 512 * w <= total ->
  exists arrays',
    encodeBlock input cdf total CHUNK_SIZE numChunks arrays blockId = Ok arrays'
    /\ 4 * (CHUNK_SIZE / 4 + 64) < rd (snd arrays') blockId.
Proof.
  intros Hb Hn Hsize Hlens Hwide Hw Hfrac. unfold encodeBlock.
  rewrite chunkEnd_full by (unfold CHUNK_SIZE in *; lia).
  unfold chunkStart, CHUNK_SIZE in *. rewrite u64_small by lia.
  replace (blockId * 4096 + 4096 - blockId * 4096) with 4096 by lia.
  match goal with |- exists a, bind (encodeRange _ _ _ _ _ _ ?e0 _) _ = _ /\ _ =>
    destruct (encodeRange_emits input cdf total blockId 4096 total_ok slice_ok w
                (Z.to_nat 4096) e0 (Z.to_nat (blockId * 4096)))
      as (e' & Hrun & He' & Hbits & Hem & Hinv)
  end.
  - lia.
  - intros k c Hk. apply Hwide. lia.
  - cbn [range]. change MAX_RANGE with 4294967295. lia.
  - left. reflexivity.
  - rewrite Z2Nat.id in Hrun by lia. rewrite Hrun. cbn [bind].
    rewrite Z2Nat.id in Hinv, Hem by lia.
    cbn [range] in Hinv. change MAX_RANGE with 4294967295 in Hinv, Hem.
    change (emitted {| low := 0; range := 4294967295; outputWord := 0; bitsInWord := 0;
                       outputIdx := 0; output := fst arrays |}) with 0 in Hinv, Hem.
    rewrite Z.sub_0_r in Hinv.
    pose proof (emitted_lower total w (range e') (emitted e') Hw Hfrac ltac:(lia) ltac:(lia) Hinv)
      as Hlow.
    eexists. split; [reflexivity|]. cbn [snd].
    rewrite rd_wr_eq by lia.
    change (4096 / 4 + 64) with 1088.
    unfold emitted in Hlow, Hem. unfold wordBits in Hbits.
    destruct Hbits as [Hz|[Hz|[Hz|Hz]]]; rewrite Hz in *;
      [change (0 <? 0) with false; change (0 / 8) with 0 in *
      |change (0 <? 8) with true; change (8 / 8) with 1 in *
      |change (0 <? 16) with true; change (16 / 8) with 2 in *
      |change (0 <? 24) with true; change (24 / 8) with 3 in *];
      rewrite u32_small by lia; lia.
Qed.

End Overrun.

(** X19. A block of [encodeBlocks] can emit more than its region of
    [d_output] holds. On an input of whole chunks and at most 2^24 bytes, a
    chunk in which every byte value occurs at most [size / 512] times in the
    whole input makes its block report more than
    [4 * (chunkSize / 4 + 64)] bytes: the block has stored words past the
    [chunkSize / 4 + 64] words reserved for it. *)
Theorem encodeBlocks_overruns_region (input : list byte) (sched : Schedule)
    (arrays : list Z * list Z) (blockId w : Z) :
  Z.of_nat (length input) <= 2 ^ 24 ->
  Z.of_nat (length input) mod CHUNK_SIZE = 0 ->
  fair (Z.of_nat (length input)) (Z.to_nat (freqBlocks (Z.of_nat (length input)))) sched ->
  0 <= blockId < numChunksOf (Z.of_nat (length input)) ->
  blockId < Z.of_nat (length (snd arrays)) ->
  (forall k b, (Z.to_nat (blockId * CHUNK_SIZE) <= k < Z.to_nat ((blockId + 1) * CHUNK_SIZE))%nat ->
               input !! k = Some b -> occurrences (byteZ b) input <= w) ->
  512 * w <= Z.of_nat (length input) ->
  let cdf := buildCDF (countFrequencies input
                         (Z.to_nat (freqBlocks (Z.of_nat (length input)))) sched) in
  exists arrays',
    encodeBlock input cdf (totalOf input) CHUNK_SIZE (numChunksOf (Z.of_nat (length input)))
      arrays blockId = Ok arrays'
    /\ 4 * (CHUNK_SIZE / 4 + 64) < rd (snd arrays') blockId.
Proof.
  intros Hsize Hmod Hfair Hb Hlens Hocc Hfrac cdf.
  set (size := Z.of_nat (length input)) in *.
  assert (Hlim : size <= inputLimit) by (unfold inputLimit; lia).
  assert (Hchunks : numChunksOf size * CHUNK_SIZE = size).
  { rewrite numChunksOf_value by (unfold INT_MAX; lia). unfold CHUNK_SIZE in *.
    Z.div_mod_to_equations. lia. }
  assert (Htot : totalOf input = size) by (apply slices_total; exact Hlim).
  assert (Hwidth : forall b, u32 (symHighOf cdf (totalOf input) (byteZ b) - rd cdf (byteZ b))
                             = occurrences (byteZ b) input).
  { intros b. apply (slices_width input sched Hlim Hfair). apply byteZ_range. }
  assert (Hfirst : exists b, input !! Z.to_nat (blockId * CHUNK_SIZE) = Some b).
  { apply lookup_lt_is_Some_2. unfold CHUNK_SIZE, size in *. lia. }
  destruct Hfirst as (b0 & Hb0).
  assert (Hw : 1 <= w).
  { pose proof (occurrences_pos input _ b0 Hb0).
    assert (Hk : (Z.to_nat (blockId * CHUNK_SIZE) <= Z.to_nat (blockId * CHUNK_SIZE)
                  < Z.to_nat ((blockId + 1) * CHUNK_SIZE))%nat) by (unfold CHUNK_SIZE; lia).
    specialize (Hocc _ b0 Hk Hb0). lia. }
  apply (encodeBlock_overruns input cdf (totalOf input)) with (w := w).
  - rewrite Htot. unfold CHUNK_SIZE in *. lia.
  - intros i b Hi. rewrite Hwidth, Htot.
    pose proof (occurrences_pos input i b Hi). pose proof (occurrences_range (byteZ b) input).
    fold size in H0. lia.
  - exact Hb.
  - fold size. lia.
  - fold size. lia.
  - exact Hlens.
  - intros k b Hk Hkb. rewrite Hwidth. exact (Hocc k b Hk Hkb).
  - exact Hw.
  - rewrite Htot. exact Hfrac.
Qed.

Lemma occurrences_app s a b : occurrences s (a ++ b) = occurrences s a + occurrences s b.
Proof. unfold occurrences. rewrite list.filter_app, length_app. lia. Qed.

Lemma occurrences_repeated s (k : nat) l :
  occurrences s (concat (replicate k l)) = Z.of_nat k * occurrences s l.
Proof.
  induction k as [|k IH]; [reflexivity|].
  cbn [replicate concat]. rewrite occurrences_app, IH. lia.
Qed.

Lemma nonzeroBytes_once b :
  b ∈ nonzeroBytes ->
  byteZ b <> 0 /\ occurrences (byteZ b) nonzeroBytes <= 1
  /\ occurrences (byteZ b) (take 16 nonzeroBytes) <= 1.
Proof.
  assert (H : forallb (fun b => negb (byteZ b =? 0)
                                && (occurrences (byteZ b) nonzeroBytes <=? 1)
                                && (occurrences (byteZ b) (take 16 nonzeroBytes) <=? 1))
                nonzeroBytes = true) by (vm_compute; reflexivity).
  intros Hb. rewrite forallb_forall in H. apply list_elem_of_In in Hb.
  specialize (H b Hb). apply andb_prop in H as [H H3]. apply andb_prop in H as [H1 H2].
  apply negb_true_iff in H1. zbool. lia.
Qed.

Lemma spreadInput_length : Z.of_nat (length spreadInput) = 12288.
Proof. vm_compute. reflexivity. Qed.

Lemma spreadInput_first_chunk k b :
  (k < 4096)%nat -> spreadInput !! k = Some b -> occurrences (byteZ b) spreadInput <= 17.
Proof.
  intros Hk Hb.
  assert (Hin : b ∈ nonzeroBytes).
  { unfold spreadInput in Hb.
    assert (Hl1 : length (concat (replicate 16 nonzeroBytes)) = 4080%nat) by (vm_compute; reflexivity).
    destruct (Nat.lt_ge_cases k 4080) as [Hlow|Hhigh].
    - rewrite lookup_app_l in Hb by lia. apply list_elem_of_lookup_2 in Hb.
      apply list_elem_of_In, in_concat in Hb as (l & Hl & Hbl).
      apply list_elem_of_In, elem_of_replicate_inv in Hl. subst l.
      apply list_elem_of_In. exact Hbl.
    - rewrite lookup_app_r in Hb by lia.
      assert (Hl2 : length (take 16 nonzeroBytes) = 16%nat) by (vm_compute; reflexivity).
      rewrite lookup_app_l in Hb by lia. apply list_elem_of_lookup_2 in Hb.
      apply elem_of_take in Hb as (i & Hi & _). eapply list_elem_of_lookup_2; exact Hi. }
  destruct (nonzeroBytes_once b Hin) as (Hz & H1 & H2).
  unfold spreadInput. rewrite !occurrences_app, occurrences_repeated, !occurrences_replicate.
  replace (byteZ "000" =? byteZ b) with false
    by (symmetry; apply Z.eqb_neq; change (byteZ "000") with 0; lia).
  lia.
Qed.

Lemma encodeBlocks_overruns_region_witness :
  let sched := inOrder (Z.of_nat (length spreadInput))
                 (Z.to_nat (freqBlocks (Z.of_nat (length spreadInput)))) in
  let cdf := buildCDF (countFrequencies spreadInput
                         (Z.to_nat (freqBlocks (Z.of_nat (length spreadInput)))) sched) in
  exists arrays',
    encodeBlock spreadInput cdf (totalOf spreadInput) CHUNK_SIZE
      (numChunksOf (Z.of_nat (length spreadInput))) ([], [0; 0; 0]) 0 = Ok arrays'
    /\ 4 * (CHUNK_SIZE / 4 + 64) < rd (snd arrays') 0.
Proof.
  apply (encodeBlocks_overruns_region spreadInput
           (inOrder (Z.of_nat (length spreadInput))
              (Z.to_nat (freqBlocks (Z.of_nat (length spreadInput)))))
           ([], [0; 0; 0]) 0 17).
  - rewrite spreadInput_length. lia.
  - rewrite spreadInput_length. reflexivity.
  - apply inOrder_fair.
  - rewrite spreadInput_length. vm_compute. split; [discriminate|reflexivity].
  - simpl. lia.
  - intros k b Hk. apply spreadInput_first_chunk. unfold CHUNK_SIZE in Hk. lia.
  - rewrite spreadInput_length. lia.
Defined.

(** ** Range coder: the stores of a block *)

Lemma storeWord_in (a : list Z) i v :
  0 <= i < Z.of_nat (length a) -> storeWord a i v = Done (wr a i v).
Proof.
  intros H. unfold storeWord.
  replace (0 <=? i) with true by (symmetry; apply Z.leb_le; lia).
  replace (i <? Z.of_nat (length a)) with true by (symmetry; apply Z.ltb_lt; lia).
  reflexivity.
Qed.

Lemma storeWord_done (a : list Z) i v a' :
  storeWord a i v = Done a' -> a' = wr a i v /\ 0 <= i < Z.of_nat (length a).
Proof.
  unfold storeWord. destruct (0 <=? i) eqn:E1; destruct (i <? Z.of_nat (length a)) eqn:E2;
    cbn [andb]; intros H; try discriminate.
  zbool. inversion H. split; [reflexivity|lia].
Qed.

(** A checked run that completes is the run of the kernel. *)
Lemma renormStepChecked_done b cs e e' :
  renormStepChecked b cs e = Done e' -> e' = renormStep b cs e.
Proof.
  unfold renormStepChecked, renormStep.
  destruct (32 <=? bitsInWord e + 8); intros H.
  - destruct (storeWord _ _ _) as [out| | | |] eqn:Es; cbn [andThen] in H; try discriminate.
    apply storeWord_done in Es as [-> _]. now inversion H.
  - now inversion H.
Qed.

Lemma renormalizeChecked_done fuel b cs : forall e e',
  renormalizeChecked fuel b cs e = Done e' -> renormalize fuel b cs e = Ok e'.
Proof.
  induction fuel as [|fuel IH]; intros e e' H; cbn [renormalizeChecked renormalize] in *;
    destruct (range e <? Z.shiftl 1 24); try discriminate; try (now inversion H).
  destruct (renormStepChecked b cs e) as [e1| | | |] eqn:Es; cbn [andThen] in H; try discriminate.
  apply renormStepChecked_done in Es as ->. now apply IH.
Qed.

Lemma encodeSymbolChecked_done input cdf total b cs e i e' :
  encodeSymbolChecked input cdf total b cs e i = Done e' ->
  encodeSymbol input cdf total b cs e i = Ok e'.
Proof.
  unfold encodeSymbolChecked, encodeSymbol.
  destruct (input !! Z.to_nat i); [|discriminate]. apply renormalizeChecked_done.
Qed.

Lemma encodeRangeChecked_done input cdf total b cs n : forall e i e',
  encodeRangeChecked n input cdf total b cs e i = Done e' ->
  encodeRange n input cdf total b cs e i = Ok e'.
Proof.
  induction n as [|n IH]; intros e i e' H; cbn [encodeRangeChecked encodeRange] in *.
  - now inversion H.
  - destruct (encodeSymbolChecked input cdf total b cs e i) as [e1| | | |] eqn:Es;
      cbn [andThen] in H; try discriminate.
    apply encodeSymbolChecked_done in Es. rewrite Es. cbn [bind]. now apply IH.
Qed.

Lemma encodeBlockChecked_done input cdf total cs numChunks arrays b arrays' :
  encodeBlockChecked input cdf total cs numChunks arrays b = Done arrays' ->
  encodeBlock input cdf total cs numChunks arrays b = Ok arrays'.
Proof.
  unfold encodeBlockChecked, encodeBlock. intros H.
  destruct (encodeRangeChecked _ input cdf total b cs _ _) as [e| | | |] eqn:Er;
    cbn [andThen] in H; try discriminate.
  apply encodeRangeChecked_done in Er. rewrite Er. cbn [bind].
  destruct (0 <? bitsInWord e).
  - destruct (storeWord (output e) _ _) as [out| | | |] eqn:Es; cbn [andThen] in H;
      try discriminate.
    apply storeWord_done in Es as [-> _]. cbn [fst snd] in H.
    destruct (storeWord (snd arrays) _ _) as [lens| | | |] eqn:El; cbn [andThen] in H;
      try discriminate.
    apply storeWord_done in El as [-> _]. now inversion H.
  - cbn [andThen fst snd] in H.
    destruct (storeWord (snd arrays) _ _) as [lens| | | |] eqn:El; cbn [andThen] in H;
      try discriminate.
    apply storeWord_done in El as [-> _]. now inversion H.
Qed.


(** The loop only moves [outputIdx] up, and [output] keeps its size. *)
Lemma renormStep_idx b cs e :
  outputIdx e <= outputIdx (renormStep b cs e)
  /\ length (output (renormStep b cs e)) = length (output e).
Proof.
  unfold renormStep. cbn [outputIdx output].
  destruct (32 <=? bitsInWord e + 8); [rewrite length_wr|]; split; lia.
Qed.

Lemma renormalize_idx fuel b cs : forall e e',
  renormalize fuel b cs e = Ok e' ->
  outputIdx e <= outputIdx e' /\ length (output e') = length (output e).
Proof.
  induction fuel as [|fuel IH]; intros e e' H; cbn [renormalize] in H;
    destruct (range e <? Z.shiftl 1 24); try discriminate;
    try (inversion H; subst; split; [lia|reflexivity]).
  apply IH in H as [H1 H2]. destruct (renormStep_idx b cs e) as [H3 H4].
  split; [lia|congruence].
Qed.

Lemma encodeSymbol_idx input cdf total b cs e i e' :
  encodeSymbol input cdf total b cs e i = Ok e' ->
  outputIdx e <= outputIdx e' /\ length (output e') = length (output e).
Proof.
  unfold encodeSymbol. destruct (input !! Z.to_nat i); [|discriminate].
  intros H. apply renormalize_idx in H. exact H.
Qed.

Lemma encodeRange_idx input cdf total b cs n : forall e i e',
  encodeRange n input cdf total b cs e i = Ok e' ->
  outputIdx e <= outputIdx e' /\ length (output e') = length (output e).
Proof.
  induction n as [|n IH]; intros e i e' H; cbn [encodeRange] in H.
  - inversion H; subst. split; [lia|reflexivity].
  - destruct (encodeSymbol input cdf total b cs e i) as [e1| |] eqn:Es; cbn [bind] in H;
      try discriminate.
    apply encodeSymbol_idx in Es as [H1 H2]. apply IH in H as [H3 H4].
    split; [lia|congruence].
Qed.

(** A run of the kernel whose words all land inside [output] is a checked
    run that completes. *)
Lemma renormStep_checked b cs e :
  0 <= b * (cs / 4 + 64) + outputIdx e ->
  b * (cs / 4 + 64) + outputIdx (renormStep b cs e) <= Z.of_nat (length (output e)) <= 2 ^ 64 ->
  renormStepChecked b cs e = Done (renormStep b cs e).
Proof.
  unfold renormStepChecked, renormStep. cbn [outputIdx].
  destruct (32 <=? bitsInWord e + 8); intros H0 H1; [|reflexivity].
  rewrite u64_small by lia. rewrite storeWord_in by lia. reflexivity.
Qed.

Lemma renormalize_checked fuel b cs : forall e e',
  renormalize fuel b cs e = Ok e' ->
  0 <= b * (cs / 4 + 64) + outputIdx e ->
  b * (cs / 4 + 64) + outputIdx e' <= Z.of_nat (length (output e)) <= 2 ^ 64 ->
  renormalizeChecked fuel b cs e = Done e'.
Proof.
  induction fuel as [|fuel IH]; intros e e' H H0 H1; cbn [renormalize renormalizeChecked] in *;
    destruct (range e <? Z.shiftl 1 24); try discriminate; try (now inversion H).
  destruct (renormalize_idx _ _ _ _ _ H) as [H2 H3].
  destruct (renormStep_idx b cs e) as [H4 H5].
  rewrite renormStep_checked by lia. cbn [andThen]. apply IH; [exact H|lia|lia].
Qed.

Lemma encodeSymbol_checked input cdf total b cs e i e' :
  encodeSymbol input cdf total b cs e i = Ok e' ->
  0 <= b * (cs / 4 + 64) + outputIdx e ->
  b * (cs / 4 + 64) + outputIdx e' <= Z.of_nat (length (output e)) <= 2 ^ 64 ->
  encodeSymbolChecked input cdf total b cs e i = Done e'.
Proof.
  unfold encodeSymbol, encodeSymbolChecked. destruct (input !! Z.to_nat i); [|discriminate].
  intros H H0 H1. apply renormalize_checked; assumption.
Qed.

Lemma encodeRange_checked input cdf total b cs n : forall e i e',
  encodeRange n input cdf total b cs e i = Ok e' ->
  0 <= b * (cs / 4 + 64) + outputIdx e ->
  b * (cs / 4 + 64) + outputIdx e' <= Z.of_nat (length (output e)) <= 2 ^ 64 ->
  encodeRangeChecked n input cdf total b cs e i = Done e'.
Proof.
  induction n as [|n IH]; intros e i e' H H0 H1; cbn [encodeRange encodeRangeChecked] in *.
  - now inversion H.
  - destruct (encodeSymbol input cdf total b cs e i) as [e1| |] eqn:Es; cbn [bind] in H;
      try discriminate.
    destruct (encodeSymbol_idx _ _ _ _ _ _ _ _ Es) as [H2 H3].
    destruct (encodeRange_idx _ _ _ _ _ _ _ _ _ H) as [H4 H5].
    rewrite (encodeSymbol_checked _ _ _ _ _ _ _ _ Es) by lia. cbn [andThen].
    apply IH; [exact H|lia|lia].
Qed.

(** ** Range coder: chunks that stay inside their region *)

Section Capacity.

Variable input : list byte.
Variable cdf : list Z.
Variable total : Z.
Variables blockId chunkSize : Z.

Let symRangeOf (b : byte) : Z := u32 (symHighOf cdf total (byteZ b) - rd cdf (byteZ b)).

Hypothesis total_ok : 0 < total <= 2 ^ 24.
Hypothesis slice_ok : forall i b, input !! i = Some b -> 1 <= symRangeOf b <= total.
Hypothesis slice_wide : forall i b, input !! i = Some b -> total <= 128 * symRangeOf b.

(** A symbol whose slice is at least [total / 128] wide costs at most one
    byte: [range] loses less than a factor of 256 before the bytes that
    the loop emits widen it again. *)
Lemma encodeSymbol_keeps e (i : nat) (b : byte) e' :
  input !! i = Some b -> 2 ^ 24 <= range e < 2 ^ 32 -> wordBits e ->
  encodeSymbol input cdf total blockId chunkSize e (Z.of_nat i) = Ok e' ->
  range e * 256 ^ (emitted e' - emitted e) <= 256 * range e'.
Proof.
  intros Hb He Hbits Hrun.
  pose proof (slice_ok i b Hb) as Hw. pose proof (slice_wide i b Hb) as Hwide.
  unfold encodeSymbol in Hrun. rewrite Nat2Z.id, Hb in Hrun. fold (symRangeOf b) in Hrun.
  rewrite (u64_small (range e * symRangeOf b)) in Hrun by nia.
  set (r1 := range e * symRangeOf b / total) in *.
  assert (Hr1 : 1 <= r1 /\ r1 <= range e /\ range e < 256 * r1).
  { unfold r1. split; [apply Z.div_le_lower_bound; nia|]. split.
    - apply Z.div_le_upper_bound; [lia|]. nia.
    - pose proof (Z.div_mod (range e * symRangeOf b) total ltac:(lia)) as Hd.
      pose proof (Z.mod_pos_bound (range e * symRangeOf b) total ltac:(lia)) as Hm.
      assert (1 <= range e * symRangeOf b / total) by (apply Z.div_le_lower_bound; nia).
      nia. }
  apply renormalize_emits in Hrun; [|cbn [range]; lia|exact Hbits].
  destruct Hrun as (j & Hj & Hrange & Hemit & _). cbn [range] in Hrange.
  assert (Hem : emitted e' = emitted e + j) by exact Hemit.
  replace (emitted e' - emitted e) with j by lia. rewrite Hrange.
  assert (0 < 256 ^ j) by (apply Z.pow_pos_nonneg; lia). nia.
Qed.

(** Over [n] such symbols the loop emits at most [n] bytes. *)
Lemma encodeRange_keeps n : forall e (i : nat) e',
  (i + n <= length input)%nat -> 2 ^ 24 <= range e < 2 ^ 32 -> wordBits e ->
  encodeRange n input cdf total blockId chunkSize e (Z.of_nat i) = Ok e' ->
  range e * 256 ^ (emitted e' - emitted e) <= 256 ^ Z.of_nat n * range e'.
Proof.
  induction n as [|n IH]; intros e i e' Hi He Hbits Hrun; cbn [encodeRange] in Hrun.
  - inversion Hrun; subst. rewrite Z.sub_diag. change (Z.of_nat 0) with 0.
    rewrite !Z.pow_0_r. lia.
  - destruct (lookup_lt_is_Some_2 input i) as [b Hb]; [lia|].
    destruct (encodeSymbol_emits input cdf total blockId chunkSize total_ok slice_ok e i b
                Hb He Hbits) as (e1 & Hrun1 & He1 & Hb1 & Hem1 & _).
    rewrite Hrun1 in Hrun. cbn [bind] in Hrun.
    replace (Z.of_nat i + 1) with (Z.of_nat (S i)) in Hrun by lia.
    pose proof (encodeSymbol_keeps e i b e1 Hb He Hbits Hrun1) as Hk1.
    pose proof (IH e1 (S i) e' ltac:(lia) He1 Hb1 Hrun) as Hk2.
    destruct (encodeRange_emits input cdf total blockId chunkSize total_ok slice_ok total
                n e1 (S i)) as (e2 & Hrun2 & _ & _ & Hem2 & _);
      [lia|intros k c _ Hc; apply (slice_ok k c Hc)|exact He1|exact Hb1|].
    rewrite Hrun in Hrun2. inversion Hrun2; subst e2.
    rewrite Nat2Z.inj_succ, Z.pow_succ_r by lia.
    replace (emitted e' - emitted e)
      with ((emitted e1 - emitted e) + (emitted e' - emitted e1)) by lia.
    rewrite Z.pow_add_r by lia.
    set (P := 256 ^ Z.of_nat n) in *.
    set (A := 256 ^ (emitted e1 - emitted e)) in *.
    set (B := 256 ^ (emitted e' - emitted e1)) in *.
    assert (HB : 0 < B) by (apply Z.pow_pos_nonneg; lia).
    assert (H1 : range e * A * B <= 256 * range e1 * B)
      by (apply Z.mul_le_mono_nonneg_r; lia).
    replace (range e * (A * B)) with (range e * A * B) by ring.
    replace (256 * P * range e') with (256 * (P * range e')) by ring.
    replace (256 * range e1 * B) with (256 * (range e1 * B)) in H1 by ring.
    lia.
Qed.

End Capacity.

Lemma emitted_cap (P Q R : Z) :
  0 < P -> 256 * P <= Q -> R < 2 ^ 32 -> 4294967295 * Q <= P * R -> False.
Proof.
  intros HP HQ HR H.
  assert (P * R <= P * 4294967295) by (apply Z.mul_le_mono_nonneg_l; lia). lia.
Qed.

Lemma emitted_upper (n R em : Z) :
  0 <= n -> R < 2 ^ 32 -> 4294967295 * 256 ^ em <= 256 ^ n * R -> em <= n.
Proof.
  intros Hn HR H. destruct (Z_le_gt_dec em n) as [?|Hgt]; [assumption|exfalso].
  apply (emitted_cap (256 ^ n) (256 ^ em) R).
  - apply Z.pow_pos_nonneg; lia.
  - rewrite <- Z.pow_succ_r by lia. apply Z.pow_le_mono_r; lia.
  - exact HR.
  - exact H.
Qed.

Lemma emitted_none (W T R : Z) :
  0 < W -> 256 * W <= T -> 2 ^ 24 <= R -> R * T <= 4294967295 * W * 1 -> False.
Proof.
  intros HW HT HR H.
  assert (2 ^ 24 * T <= R * T) by (apply Z.mul_le_mono_nonneg_r; lia). lia.
Qed.

(** Slices of at most half of [total] over eight symbols or more: at
    least one byte leaves the loop. *)
Lemma emitted_positive (n total w R em : Z) :
  8 <= n -> 1 <= w -> 2 * w <= total -> 2 ^ 24 <= R -> 0 <= em ->
  R * total ^ n <= 4294967295 * w ^ n * 256 ^ em -> 1 <= em.
Proof.
  intros Hn Hw Hhalf HR Hem H.
  destruct (Z_le_gt_dec 1 em) as [?|Hz]; [assumption|exfalso].
  replace em with 0 in H by lia. rewrite Z.pow_0_r in H.
  apply (emitted_none (w ^ n) (total ^ n) R).
  - apply Z.pow_pos_nonneg; lia.
  - transitivity ((2 * w) ^ n); [|apply Z.pow_le_mono_l; lia].
    rewrite Z.pow_mul_l. apply Z.mul_le_mono_nonneg_r; [apply Z.pow_nonneg; lia|].
    change 256 with (2 ^ 8). apply Z.pow_le_mono_r; lia.
  - exact HR.
  - exact H.
Qed.

Section Fits.

Variable input : list byte.
Variable cdf : list Z.
Variable total : Z.

Let symRangeOf (b : byte) : Z := u32 (symHighOf cdf total (byteZ b) - rd cdf (byteZ b)).

(** No byte value of the input has more than half of [total]. *)
Let halves : Prop :=
  exists w, 1 <= w /\ 2 * w <= total /\ forall i b, input !! i = Some b -> symRangeOf b <= w.

Hypothesis total_ok : 0 < total <= 2 ^ 24.
Hypothesis slice_ok : forall i b, input !! i = Some b -> 1 <= symRangeOf b <= total.
Hypothesis slice_wide : forall i b, input !! i = Some b -> total <= 128 * symRangeOf b.

(** A block whose region lies inside [output] completes with all its
    stores inside the region, and reports at most [CHUNK_SIZE] bytes. *)
Lemma encodeBlockChecked_fits numChunks arrays blockId :
  0 <= blockId < numChunks -> numChunks * CHUNK_SIZE <= Z.of_nat (length input) ->
  Z.of_nat (length input) < 2 ^ 64 ->
  (blockId + 1) * (CHUNK_SIZE / 4 + 64) <= Z.of_nat (length (fst arrays)) <= 2 ^ 64 ->
  blockId < Z.of_nat (length (snd arrays)) ->
  exists out len,
    encodeBlockChecked input cdf total CHUNK_SIZE numChunks arrays blockId
    = Done (out, wr (snd arrays) blockId len)
    /\ length out = length (fst arrays)
    /\ 0 <= len <= CHUNK_SIZE /\ (halves -> 4 <= len).
Proof.
  intros Hb Hn Hsize Hout Hlens. unfold encodeBlockChecked.
  rewrite chunkEnd_full by (unfold CHUNK_SIZE in *; lia).
  unfold chunkStart, CHUNK_SIZE in *. rewrite u64_small by lia.
  replace (blockId * 4096 + 4096 - blockId * 4096) with 4096 by lia.
  change (4096 / 4 + 64) with 1088 in *.
  set (e0 := {| low := 0; range := MAX_RANGE; outputWord := 0; bitsInWord := 0;
                outputIdx := 0; output := fst arrays |}).
  assert (He0 : 2 ^ 24 <= range e0 < 2 ^ 32) by (cbn [range e0]; change MAX_RANGE with 4294967295; lia).
  assert (Hb0 : wordBits e0) by (left; reflexivity).
  assert (Hi : (Z.to_nat (blockId * 4096) + Z.to_nat 4096 <= length input)%nat) by lia.
  destruct (encodeRange_emits input cdf total blockId 4096 total_ok slice_ok total
              (Z.to_nat 4096) e0 (Z.to_nat (blockId * 4096)) Hi)
    as (e' & Hrun & He' & Hbits & Hem & _);
    [intros k c _ Hc; apply (slice_ok k c Hc)|exact He0|exact Hb0|].
  assert (Hcap : emitted e' <= 4096).
  { pose proof (encodeRange_keeps input cdf total blockId 4096 total_ok slice_ok slice_wide
                  (Z.to_nat 4096) e0 (Z.to_nat (blockId * 4096)) e' Hi He0 Hb0 Hrun) as Hk.
    change (emitted e0) with 0 in Hk. rewrite Z.sub_0_r in Hk.
    change (range e0) with 4294967295 in Hk.
    apply (emitted_upper (Z.of_nat (Z.to_nat 4096)) (range e') (emitted e'));
      [apply Nat2Z.is_nonneg|apply He'|exact Hk]. }
  assert (Hfloor : halves -> 1 <= emitted e').
  { intros (w & Hw & Hhalf & Hall).
    destruct (encodeRange_emits input cdf total blockId 4096 total_ok slice_ok w
                (Z.to_nat 4096) e0 (Z.to_nat (blockId * 4096)) Hi)
      as (e2 & Hrun2 & _ & _ & _ & Hinv);
      [intros k c _ Hc; apply (Hall k c Hc)|exact He0|exact Hb0|].
    rewrite Hrun in Hrun2. inversion Hrun2; subst e2.
    change (emitted e0) with 0 in Hinv. rewrite Z.sub_0_r in Hinv.
    change (range e0) with 4294967295 in Hinv.
    apply (emitted_positive (Z.of_nat (Z.to_nat 4096)) total w (range e'));
      [rewrite Z2Nat.id; lia|exact Hw|exact Hhalf|apply He'| |exact Hinv].
    change (emitted e0) with 0 in Hem. lia. }
  destruct (encodeRange_idx _ _ _ _ _ _ _ _ _ Hrun) as [Hidx Hlen].
  change (outputIdx e0) with 0 in Hidx. change (output e0) with (fst arrays) in Hlen.
  rewrite Z2Nat.id in Hrun by lia.
  assert (Hin : 4 * outputIdx e' + bitsInWord e' / 8 <= 4096) by exact Hcap.
  assert (Hfl : halves -> 1 <= 4 * outputIdx e' + bitsInWord e' / 8) by exact Hfloor.
  clear Hcap Hfloor Hem.
  rewrite (encodeRange_checked _ _ _ _ _ _ _ _ _ Hrun).
  2: { change (outputIdx e0) with 0. change (4096 / 4 + 64) with 1088. lia. }
  2: { change (output e0) with (fst arrays). change (4096 / 4 + 64) with 1088.
       unfold wordBits in Hbits.
       destruct Hbits as [Hz|[Hz|[Hz|Hz]]]; rewrite Hz in Hin;
         [change (0 / 8) with 0 in Hin|change (8 / 8) with 1 in Hin
         |change (16 / 8) with 2 in Hin|change (24 / 8) with 3 in Hin]; lia. }
  cbn [andThen]. unfold wordBits in Hbits.
  destruct Hbits as [Hz|[Hz|[Hz|Hz]]]; rewrite Hz in *;
    [change (0 <? 0) with false; change (0 / 8) with 0 in *
    |change (0 <? 8) with true; change (8 / 8) with 1 in *
    |change (0 <? 16) with true; change (16 / 8) with 2 in *
    |change (0 <? 24) with true; change (24 / 8) with 3 in *];
    try (rewrite (u64_small (blockId * 1088 + outputIdx e')) by lia;
         rewrite storeWord_in by lia);
    cbn [andThen fst snd]; rewrite storeWord_in by lia; cbn [andThen];
    eexists _, _; (split; [reflexivity|]);
    rewrite ?length_wr; (split; [exact Hlen|]); rewrite u32_small by lia; split; try lia;
    intros Hh; specialize (Hfl Hh); lia.
Qed.

(** The first [k] blocks of the launch. *)
Lemma encodeBlocksChecked_fits numChunks arrays (k : nat) :
  Z.of_nat k <= numChunks -> numChunks * CHUNK_SIZE <= Z.of_nat (length input) ->
  Z.of_nat (length input) < 2 ^ 64 ->
  numChunks * (CHUNK_SIZE / 4 + 64) <= Z.of_nat (length (fst arrays)) <= 2 ^ 64 ->
  numChunks <= Z.of_nat (length (snd arrays)) ->
  exists out lens,
    foldl (fun acc b =>
             andThen acc (fun a => encodeBlockChecked input cdf total CHUNK_SIZE numChunks a b))
          (Done arrays) (map Z.of_nat (seq 0 k)) = Done (out, lens)
    /\ length out = length (fst arrays) /\ length lens = length (snd arrays)
    /\ forall c, 0 <= c < Z.of_nat k ->
         0 <= rd lens c <= CHUNK_SIZE /\ (halves -> 4 <= rd lens c).
Proof.
  intros Hk Hn Hsize Hout Hlens. induction k as [|k IH].
  - exists (fst arrays), (snd arrays). cbn [seq map foldl].
    split; [now destruct arrays|]. split; [reflexivity|]. split; [reflexivity|]. lia.
  - destruct IH as (out & lens & Hrun & Ho & Hl & Hall); [lia|].
    rewrite seq_S, map_app, foldl_app, Hrun. cbn [map foldl andThen]. change (0 + k)%nat with k.
    destruct (encodeBlockChecked_fits numChunks (out, lens) (Z.of_nat k))
      as (out' & len & Hblock & Ho' & Hlen & Hfl); cbn [fst snd];
      [lia|exact Hn|exact Hsize|unfold CHUNK_SIZE in *;
                                change (4096 / 4 + 64) with 1088 in *; lia|lia|].
    cbn [fst snd] in Hblock, Ho'. rewrite Hblock.
    exists out', (wr lens (Z.of_nat k) len).
    split; [reflexivity|]. split; [congruence|]. split; [now rewrite length_wr|].
    intros c Hc. destruct (Z.eq_dec c (Z.of_nat k)) as [->|Hne].
    + rewrite rd_wr_eq by lia. split; [exact Hlen|exact Hfl].
    + rewrite rd_wr_ne by lia. apply Hall. lia.
Qed.

End Fits.

Lemma sumZ_take_bounds (lens : list Z) (k : nat) lo hi :
  (k <= length lens)%nat -> (forall c, 0 <= c < Z.of_nat k -> lo <= rd lens c <= hi) ->
  lo * Z.of_nat k <= sumZ (take k lens) <= hi * Z.of_nat k.
Proof.
  induction k as [|k IH]; intros Hk Hall.
  - rewrite take_0. cbn. lia.
  - destruct (lookup_lt_is_Some_2 lens k) as [v Hv]; [lia|].
    rewrite (take_S_r _ _ _ Hv), sumZ_app. cbn [sumZ foldr].
    pose proof (Hall (Z.of_nat k) ltac:(lia)) as Hlast.
    rewrite (rd_lookup _ _ _ Hv) in Hlast.
    specialize (IH ltac:(lia) ltac:(intros c Hc; apply Hall; lia)). lia.
Qed.

(** ** Range coder: where a checked run can stop *)

Lemma storeWord_cases (a : list Z) i v :
  storeWord a i v = Done (wr a i v) \/ storeWord a i v = StorePastEnd i.
Proof. unfold storeWord. destruct ((0 <=? i) && (i <? Z.of_nat (length a))); auto. Qed.

(** A run of the kernel that reads inside the input and leaves its loops
    is, with the stores checked, the same run or one that stops at a store
    past the end of an array. *)
Lemma renormStepChecked_cases b cs e :
  renormStepChecked b cs e = Done (renormStep b cs e)
  \/ exists i, renormStepChecked b cs e = StorePastEnd i.
Proof.
  unfold renormStepChecked, renormStep.
  destruct (32 <=? bitsInWord e + 8); [|now left].
  destruct (storeWord_cases (output e) (u64 (b * (cs / 4 + 64) + outputIdx e))
              (u32 (Z.lor (u32 (Z.shiftl (outputWord e) 8))
                      (Z.land (Z.shiftr (low e) 24) 255)))) as [Hs|Hs];
    rewrite Hs; cbn [andThen]; [now left|right; eauto].
Qed.

Lemma renormalizeChecked_cases fuel b cs : forall e e',
  renormalize fuel b cs e = Ok e' ->
  renormalizeChecked fuel b cs e = Done e'
  \/ exists i, renormalizeChecked fuel b cs e = StorePastEnd i.
Proof.
  induction fuel as [|fuel IH]; intros e e' H; cbn [renormalize renormalizeChecked] in *;
    destruct (range e <? Z.shiftl 1 24); try discriminate;
    try (inversion H; subst; now left).
  destruct (renormStepChecked_cases b cs e) as [Hs|[i Hs]]; rewrite Hs; cbn [andThen].
  - now apply IH.
  - right. eauto.
Qed.

Lemma encodeSymbolChecked_cases input cdf total b cs e i e' :
  encodeSymbol input cdf total b cs e i = Ok e' ->
  encodeSymbolChecked input cdf total b cs e i = Done e'
  \/ exists j, encodeSymbolChecked input cdf total b cs e i = StorePastEnd j.
Proof.
  unfold encodeSymbol, encodeSymbolChecked. destruct (input !! Z.to_nat i); [|discriminate].
  apply renormalizeChecked_cases.
Qed.

Lemma encodeRangeChecked_cases input cdf total b cs n : forall e i e',
  encodeRange n input cdf total b cs e i = Ok e' ->
  encodeRangeChecked n input cdf total b cs e i = Done e'
  \/ exists j, encodeRangeChecked n input cdf total b cs e i = StorePastEnd j.
Proof.
  induction n as [|n IH]; intros e i e' H; cbn [encodeRange encodeRangeChecked] in *.
  - inversion H; subst. now left.
  - destruct (encodeSymbol input cdf total b cs e i) as [e1| |] eqn:Es; cbn [bind] in H;
      try discriminate.
    destruct (encodeSymbolChecked_cases _ _ _ _ _ _ _ _ Es) as [Hs|[j Hs]];
      rewrite Hs; cbn [andThen].
    + now apply IH.
    + right. eauto.
Qed.

Lemma encodeBlockChecked_cases input cdf total cs numChunks arrays b arrays' :
  encodeBlock input cdf total cs numChunks arrays b = Ok arrays' ->
  encodeBlockChecked input cdf total cs numChunks arrays b = Done arrays'
  \/ exists j, encodeBlockChecked input cdf total cs numChunks arrays b = StorePastEnd j.
Proof.
  unfold encodeBlock, encodeBlockChecked. intros H.
  destruct (encodeRange _ input cdf total b cs _ _) as [e| |] eqn:Er; cbn [bind] in H;
    try discriminate.
  destruct (encodeRangeChecked_cases _ _ _ _ _ _ _ _ _ Er) as [Hs|[j Hs]];
    rewrite Hs; cbn [andThen]; [|right; eauto].
  inversion H; subst arrays'. clear H.
  destruct (0 <? bitsInWord e).
  - destruct (storeWord_cases (output e) (u64 (b * (cs / 4 + 64) + outputIdx e))
                (u32 (Z.shiftl (outputWord e) (32 - bitsInWord e)))) as [Ho|Ho];
      rewrite Ho; cbn [andThen fst snd]; [|right; eauto].
    destruct (storeWord_cases (snd arrays) b (u32 ((outputIdx e + 1) * 4))) as [Hl|Hl];
      rewrite Hl; cbn [andThen]; [now left|right; eauto].
  - cbn [andThen fst snd].
    destruct (storeWord_cases (snd arrays) b (u32 (outputIdx e * 4))) as [Hl|Hl];
      rewrite Hl; cbn [andThen]; [now left|right; eauto].
Qed.

Lemma blocks_stopped input cdf total cs numChunks j (bs : list Z) :
  foldl (fun acc b =>
           andThen acc (fun a => encodeBlockChecked input cdf total cs numChunks a b))
        (StorePastEnd j) bs = StorePastEnd j.
Proof. induction bs as [|b bs IH]; cbn [foldl andThen]; [reflexivity|exact IH]. Qed.

Lemma blocks_failed input cdf total cs numChunks (o : outcome (list Z * list Z))
    (bs : list Z) arrays' :
  (forall a, o <> Ok a) ->
  foldl (fun acc b => bind acc (fun a => encodeBlock input cdf total cs numChunks a b)) o bs
  <> Ok arrays'.
Proof.
  revert o. induction bs as [|b bs IH]; intros o Ho; cbn [foldl]; [apply Ho|].
  apply IH. intros a. destruct o as [a0| |]; cbn [bind]; [|discriminate|discriminate].
  now destruct (Ho a0).
Qed.

Lemma encodeBlocksChecked_cases input cdf total cs numChunks (bs : list Z) :
  forall arrays arrays',
  foldl (fun acc b => bind acc (fun a => encodeBlock input cdf total cs numChunks a b))
        (Ok arrays) bs = Ok arrays' ->
  foldl (fun acc b =>
           andThen acc (fun a => encodeBlockChecked input cdf total cs numChunks a b))
        (Done arrays) bs = Done arrays'
  \/ exists j,
       foldl (fun acc b =>
                andThen acc (fun a => encodeBlockChecked input cdf total cs numChunks a b))
             (Done arrays) bs = StorePastEnd j.
Proof.
  induction bs as [|b bs IH]; intros arrays arrays' H; cbn [foldl] in *.
  - inversion H; subst. now left.
  - cbn [bind andThen] in *.
    destruct (encodeBlock input cdf total cs numChunks arrays b) as [a| |] eqn:Eb.
    + destruct (encodeBlockChecked_cases _ _ _ _ _ _ _ _ Eb) as [Hs|[j Hs]]; rewrite Hs.
      * now apply IH.
      * right. exists j. apply blocks_stopped.
    + exfalso. revert H. apply blocks_failed. discriminate.
    + exfalso. revert H. apply blocks_failed. discriminate.
Qed.

(** ** Range coder: inputs that [arithmeticCompress] encodes *)

(** On whole chunks in which every byte value that occurs makes up at
    least 1/128 of the input, the call completes with every access inside
    its array, and the code is no longer than the input; it is at least
    four bytes long when no byte value makes up more than half of a
    non-empty input. *)
Lemma arithmeticCompressChecked_fits (input : list byte) (sched : Schedule)
    (out0 lens0 : list Z) (dst : Dest) :
  Z.of_nat (length input) <= 2 ^ 24 ->
  Z.of_nat (length input) mod CHUNK_SIZE = 0 ->
  (forall b, b ∈ input -> Z.of_nat (length input) <= 128 * occurrences (byteZ b) input) ->
  fair (Z.of_nat (length input)) (Z.to_nat (freqBlocks (Z.of_nat (length input)))) sched ->
  exists r dst',
    arithmeticCompressChecked input sched out0 lens0 dst = Done (r, dst')
    /\ originalSize r = Z.of_nat (length input)
    /\ 0 <= compressedSize r <= Z.of_nat (length input)
    /\ outputSize dst' = compressedSize r
    /\ ((forall b, b ∈ input -> 2 * occurrences (byteZ b) input <= Z.of_nat (length input)) ->
        0 < Z.of_nat (length input) -> 4 <= compressedSize r).
Proof.
  intros Hsize Hmod Hwide Hfair. set (size := Z.of_nat (length input)) in *.
  assert (Hlim : size <= inputLimit) by (unfold inputLimit; lia).
  assert (Hchunks : numChunksOf size * CHUNK_SIZE = size).
  { rewrite numChunksOf_value by (unfold INT_MAX; lia). unfold CHUNK_SIZE in *.
    Z.div_mod_to_equations. lia. }
  assert (Hnc : 0 <= numChunksOf size <= 4096) by (unfold CHUNK_SIZE in Hchunks; lia).
  unfold arithmeticCompressChecked. fold size.
  set (cdf := buildCDF _).
  set (d_output := resize _ 0 out0). set (d_outputLengths := resize _ 0 lens0).
  assert (Hlo : Z.of_nat (length d_output) = numChunksOf size * 1088).
  { unfold d_output. rewrite length_resize. unfold CHUNK_SIZE.
    change (4096 / 4 + 64) with 1088. rewrite u64_small by lia.
    replace (numChunksOf size * 1088 * 4) with (numChunksOf size * 1088 * 4) by lia.
    rewrite Z.div_mul by lia. lia. }
  assert (Hll : Z.of_nat (length d_outputLengths) = numChunksOf size).
  { unfold d_outputLengths. rewrite length_resize. rewrite u64_small by lia.
    rewrite Z.div_mul by lia. lia. }
  assert (Htot : totalOf input = size) by (apply slices_total; exact Hlim).
  assert (Hwidth : forall b, u32 (symHighOf cdf (totalOf input) (byteZ b) - rd cdf (byteZ b))
                             = occurrences (byteZ b) input).
  { intros b. apply (slices_width input sched Hlim Hfair). apply byteZ_range. }
  assert (Hrun : exists out lens,
             encodeBlocksChecked input cdf (totalOf input) CHUNK_SIZE (numChunksOf size)
               (d_output, d_outputLengths) = Done (out, lens)
             /\ length out = length d_output /\ length lens = length d_outputLengths
             /\ forall c, 0 <= c < numChunksOf size ->
                  0 <= rd lens c <= CHUNK_SIZE
                  /\ ((forall b, b ∈ input -> 2 * occurrences (byteZ b) input <= size) ->
                      4 <= rd lens c)).
  { unfold encodeBlocksChecked.
    destruct (Z.eq_dec size 0) as [Hz|Hnz].
    - assert (Hn0 : numChunksOf size = 0) by (unfold CHUNK_SIZE in Hchunks; lia).
      rewrite Hn0. cbn [Z.to_nat seq map foldl]. exists d_output, d_outputLengths.
      split; [reflexivity|]. split; [reflexivity|]. split; [reflexivity|]. lia.
    - destruct (encodeBlocksChecked_fits input cdf (totalOf input)) with
        (numChunks := numChunksOf size) (arrays := (d_output, d_outputLengths))
        (k := Z.to_nat (numChunksOf size)) as (out & lens & Hr & Ho & Hl & Hall).
      + rewrite Htot. lia.
      + intros i b Hb. rewrite Hwidth, Htot.
        pose proof (occurrences_pos input i b Hb). pose proof (occurrences_range (byteZ b) input).
        fold size in H0. lia.
      + intros i b Hb. rewrite Hwidth, Htot. apply Hwide.
        eapply list_elem_of_lookup_2. exact Hb.
      + lia.
      + fold size. lia.
      + fold size. lia.
      + cbn [fst]. unfold CHUNK_SIZE. change (4096 / 4 + 64) with 1088. lia.
      + cbn [snd]. lia.
      + exists out, lens. split; [exact Hr|]. split; [exact Ho|]. split; [exact Hl|].
        intros c Hc. destruct (Hall c ltac:(lia)) as [Hc1 Hc2]. split; [exact Hc1|].
        intros Hhalf. apply Hc2. exists (size / 2). unfold CHUNK_SIZE in Hchunks.
        split; [apply Z.div_le_lower_bound; lia|].
        split; [rewrite Htot; apply Z.mul_div_le; lia|].
        intros i b Hb. rewrite Hwidth. apply Z.div_le_lower_bound; [lia|].
        apply Hhalf. eapply list_elem_of_lookup_2. exact Hb. }
  destruct Hrun as (out & lens & Hrun & Ho & Hl & Hall). cbn [fst snd] in Ho, Hl.
  rewrite Hrun. cbn [andThen fst snd].
  set (h_outputLengths := take (Z.to_nat (numChunksOf size)) lens).
  assert (Hsum : 0 <= sumZ h_outputLengths <= size
                 /\ ((forall b, b ∈ input -> 2 * occurrences (byteZ b) input <= size) ->
                     0 < size -> 4 <= sumZ h_outputLengths)).
  { split.
    - pose proof (sumZ_take_bounds lens (Z.to_nat (numChunksOf size)) 0 CHUNK_SIZE
                    ltac:(lia) ltac:(intros c Hc; apply Hall; lia)) as Hs.
      fold h_outputLengths in Hs. rewrite Z2Nat.id in Hs by lia. lia.
    - intros Hhalf Hpos.
      pose proof (sumZ_take_bounds lens (Z.to_nat (numChunksOf size)) 4 CHUNK_SIZE
                    ltac:(lia)) as Hs.
      fold h_outputLengths in Hs. rewrite Z2Nat.id in Hs by lia.
      destruct Hs as [Hs _].
      + intros c Hc. destruct (Hall c ltac:(lia)) as [Hc1 Hc2]. specialize (Hc2 Hhalf). lia.
      + unfold CHUNK_SIZE in Hchunks. lia. }
  destruct Hsum as [Hsum Hfloor].
  rewrite (u64_small (sumZ h_outputLengths)) by lia.
  replace (4 * Z.of_nat (length out) <? sumZ h_outputLengths) with false.
  2: { symmetry. apply Z.ltb_ge. rewrite Ho, Hlo. unfold CHUNK_SIZE in Hchunks. lia. }
  rewrite andb_false_r.
  eexists _, _. split; [apply f_equal; apply surjective_pairing|].
  unfold arithmeticFinish. cbn [fst snd originalSize compressedSize setCompressedSize initResult].
  rewrite (u64_small (sumZ h_outputLengths)) by lia.
  split; [reflexivity|]. split; [exact Hsum|]. split; [|exact Hfloor].
  destruct ((0 <? _) && _); reflexivity.
Qed.

(** X17. On an input whose length is a multiple of the chunk size and
    at most 2^24 bytes, the empty input included, no run of
    [arithmeticCompress] reads past the end of the input or stays in a
    renormalization loop: it completes, or it stops at a store or a copy
    past the end of a device array. It completes, with every store inside
    [d_output] and [d_outputLengths], when every byte value that occurs
    makes up at least 1/128 of the input; it then reports the input length
    and a compressed size that is no larger, and stores that size in
    [*outputSize]. *)
Theorem arithmeticCompress_completes (input : list byte) (sched : Schedule)
    (out0 lens0 : list Z) (dst : Dest) :
  Z.of_nat (length input) <= 2 ^ 24 ->
  Z.of_nat (length input) mod CHUNK_SIZE = 0 ->
  fair (Z.of_nat (length input)) (Z.to_nat (freqBlocks (Z.of_nat (length input)))) sched ->
  ((forall i, arithmeticCompressChecked input sched out0 lens0 dst <> ReadPastEnd i)
   /\ arithmeticCompressChecked input sched out0 lens0 dst <> Spins)
  /\ ((forall b, b ∈ input -> Z.of_nat (length input) <= 128 * occurrences (byteZ b) input) ->
      exists r dst',
        arithmeticCompressChecked input sched out0 lens0 dst = Done (r, dst')
        /\ originalSize r = Z.of_nat (length input)
        /\ 0 <= compressedSize r <= Z.of_nat (length input)
        /\ outputSize dst' = compressedSize r).
Proof.
  intros Hsize Hmod Hfair. split.
  - set (size := Z.of_nat (length input)) in *.
    assert (Hlim : size <= inputLimit) by (unfold inputLimit; lia).
    assert (Hchunks : numChunksOf size * CHUNK_SIZE = size).
    { rewrite numChunksOf_value by (unfold INT_MAX; lia). unfold CHUNK_SIZE in *.
      Z.div_mod_to_equations. lia. }
    unfold arithmeticCompressChecked. fold size.
    set (cdf := buildCDF _).
    set (d_output := resize _ 0 out0). set (d_outputLengths := resize _ 0 lens0).
    assert (Hrun : exists arrays,
               encodeBlocks input cdf (totalOf input) CHUNK_SIZE (numChunksOf size)
                 (d_output, d_outputLengths) = Ok arrays).
    { unfold encodeBlocks.
      destruct (Z.eq_dec size 0) as [Hz|Hnz].
      - rewrite Hz. change (Z.to_nat (numChunksOf 0)) with 0%nat. cbn [seq map foldl]. eauto.
      - apply encodeBlocks_ok.
        + rewrite (slices_total input Hlim). fold size. lia.
        + intros i b Hb. pose proof (byteZ_range b) as Hbr.
          pose proof (slices_width input sched Hlim Hfair (byteZ b) Hbr) as Hw.
          fold size in Hw. fold cdf in Hw. rewrite Hw.
          rewrite (slices_total input Hlim).
          pose proof (occurrences_pos input i b Hb).
          pose proof (occurrences_range (byteZ b) input).
          fold size. lia.
        + apply blockIds_range.
        + fold size. lia.
        + fold size. lia. }
    destruct Hrun as (arrays & Hrun).
    destruct (encodeBlocksChecked_cases _ _ _ _ _ _ _ _ Hrun) as [Hs|[j Hs]];
      unfold encodeBlocksChecked; rewrite Hs; cbn [andThen].
    + destruct (_ && _); split; try intros i; discriminate.
    + split; try intros i; discriminate.
  - intros Hwide.
    destruct (arithmeticCompressChecked_fits input sched out0 lens0 dst Hsize Hmod Hwide Hfair)
      as (r & dst' & Hrun & Ho & Hc & Hd & _).
    exists r, dst'. auto.
Qed.

Lemma arithmeticCompress_completes_witness :
  let input := replicate 4096 "a"%byte ++ replicate 4096 "b"%byte in
  let sched := inOrder (Z.of_nat (length input))
                 (Z.to_nat (freqBlocks (Z.of_nat (length input)))) in
  ((forall i, arithmeticCompressChecked input sched [] [] (mkDest [] 0 []) <> ReadPastEnd i)
   /\ arithmeticCompressChecked input sched [] [] (mkDest [] 0 []) <> Spins)
  /\ exists r dst',
       arithmeticCompressChecked input sched [] [] (mkDest [] 0 []) = Done (r, dst')
       /\ originalSize r = 8192
       /\ 0 <= compressedSize r <= 8192
       /\ outputSize dst' = compressedSize r.
Proof.
  intros input sched.
  assert (Hlen : Z.of_nat (length input) = 8192)
    by (unfold input; rewrite length_app, !length_replicate; reflexivity).
  destruct (arithmeticCompress_completes input sched [] [] (mkDest [] 0 [])) as [Hsafe Hdone].
  - rewrite Hlen. lia.
  - rewrite Hlen. reflexivity.
  - apply inOrder_fair.
  - split; [exact Hsafe|]. rewrite Hlen in Hdone. apply Hdone.
    intros b Hb. unfold input. rewrite occurrences_app, !occurrences_replicate.
    unfold input in Hb. apply elem_of_app in Hb as [Hb|Hb];
      apply elem_of_replicate_inv in Hb; subst b; vm_compute; discriminate.
Defined.

(** ** Range coder: stores past the end of [d_output] *)

(** A checked run that completes has kept [outputIdx] inside [output]. *)
Lemma renormStepChecked_within b cs e e' :
  renormStepChecked b cs e = Done e' ->
  0 <= b * (cs / 4 + 64) + outputIdx e -> Z.of_nat (length (output e)) < 2 ^ 64 ->
  b * (cs / 4 + 64) + outputIdx e <= Z.of_nat (length (output e)) ->
  outputIdx e <= outputIdx e'
  /\ b * (cs / 4 + 64) + outputIdx e' <= Z.of_nat (length (output e'))
  /\ length (output e') = length (output e).
Proof.
  unfold renormStepChecked. intros H H0 H1 H2.
  destruct (32 <=? bitsInWord e + 8).
  - destruct (storeWord _ _ _) as [out| | | |] eqn:Es; cbn [andThen] in H; try discriminate.
    apply storeWord_done in Es as [-> Hi]. rewrite u64_small in Hi by lia.
    inversion H; subst e'. cbn [outputIdx output]. rewrite length_wr. lia.
  - inversion H; subst e'. cbn [outputIdx output]. lia.
Qed.

Lemma renormalizeChecked_within fuel b cs : forall e e',
  renormalizeChecked fuel b cs e = Done e' ->
  0 <= b * (cs / 4 + 64) + outputIdx e -> Z.of_nat (length (output e)) < 2 ^ 64 ->
  b * (cs / 4 + 64) + outputIdx e <= Z.of_nat (length (output e)) ->
  outputIdx e <= outputIdx e'
  /\ b * (cs / 4 + 64) + outputIdx e' <= Z.of_nat (length (output e'))
  /\ length (output e') = length (output e).
Proof.
  induction fuel as [|fuel IH]; intros e e' H H0 H1 H2; cbn [renormalizeChecked] in H;
    destruct (range e <? Z.shiftl 1 24); try discriminate;
    try (inversion H; subst; repeat split; lia).
  destruct (renormStepChecked b cs e) as [e1| | | |] eqn:Es; cbn [andThen] in H;
    try discriminate.
  destruct (renormStepChecked_within _ _ _ _ Es H0 H1 H2) as (Ha & Hb & Hc).
  destruct (IH e1 e' H) as (Ha' & Hb' & Hc'); [lia|rewrite Hc; lia|lia|].
  repeat split; [lia|lia|congruence].
Qed.

Lemma encodeSymbolChecked_within input cdf total b cs e i e' :
  encodeSymbolChecked input cdf total b cs e i = Done e' ->
  0 <= b * (cs / 4 + 64) + outputIdx e -> Z.of_nat (length (output e)) < 2 ^ 64 ->
  b * (cs / 4 + 64) + outputIdx e <= Z.of_nat (length (output e)) ->
  outputIdx e <= outputIdx e'
  /\ b * (cs / 4 + 64) + outputIdx e' <= Z.of_nat (length (output e'))
  /\ length (output e') = length (output e).
Proof.
  unfold encodeSymbolChecked. destruct (input !! Z.to_nat i); [|discriminate].
  intros H H0 H1 H2. apply renormalizeChecked_within in H; cbn [outputIdx output] in *; auto.
Qed.

Lemma encodeRangeChecked_within input cdf total b cs n : forall e i e',
  encodeRangeChecked n input cdf total b cs e i = Done e' ->
  0 <= b * (cs / 4 + 64) + outputIdx e -> Z.of_nat (length (output e)) < 2 ^ 64 ->
  b * (cs / 4 + 64) + outputIdx e <= Z.of_nat (length (output e)) ->
  outputIdx e <= outputIdx e'
  /\ b * (cs / 4 + 64) + outputIdx e' <= Z.of_nat (length (output e'))
  /\ length (output e') = length (output e).
Proof.
  induction n as [|n IH]; intros e i e' H H0 H1 H2; cbn [encodeRangeChecked] in H.
  - inversion H; subst. repeat split; lia.
  - destruct (encodeSymbolChecked input cdf total b cs e i) as [e1| | | |] eqn:Es;
      cbn [andThen] in H; try discriminate.
    destruct (encodeSymbolChecked_within _ _ _ _ _ _ _ _ Es H0 H1 H2) as (Ha & Hb & Hc).
    destruct (IH e1 (i + 1) e' H) as (Ha' & Hb' & Hc'); [lia|rewrite Hc; lia|lia|].
    repeat split; [lia|lia|congruence].
Qed.

(** A block that completes has stored its words between the start of its
    region and the end of [output], and its length in [outputLengths]. *)
Lemma encodeBlockChecked_within input cdf total cs numChunks arrays b arrays' :
  encodeBlockChecked input cdf total cs numChunks arrays b = Done arrays' ->
  0 <= b * (cs / 4 + 64) <= Z.of_nat (length (fst arrays)) ->
  Z.of_nat (length (fst arrays)) < 2 ^ 64 ->
  exists idx,
    0 <= idx /\ b * (cs / 4 + 64) + idx <= Z.of_nat (length (fst arrays))
    /\ snd arrays' = wr (snd arrays) b (u32 (idx * 4))
    /\ 0 <= b < Z.of_nat (length (snd arrays))
    /\ length (fst arrays') = length (fst arrays).
Proof.
  unfold encodeBlockChecked. intros H H0 H1.
  destruct (encodeRangeChecked _ input cdf total b cs _ _) as [e| | | |] eqn:Er;
    cbn [andThen] in H; try discriminate.
  apply encodeRangeChecked_within in Er; cbn [outputIdx output] in *; [|lia|lia|lia].
  destruct Er as (Ha & Hb & Hc).
  destruct (0 <? bitsInWord e).
  - destruct (storeWord (output e) _ _) as [out| | | |] eqn:Es; cbn [andThen] in H;
      try discriminate.
    apply storeWord_done in Es as [-> Hi]. rewrite u64_small in Hi by lia.
    cbn [fst snd] in H.
    destruct (storeWord (snd arrays) _ _) as [lens| | | |] eqn:El; cbn [andThen] in H;
      try discriminate.
    apply storeWord_done in El as [-> Hl]. inversion H; subst arrays'. cbn [fst snd].
    exists (outputIdx e + 1). rewrite length_wr. repeat split; try lia; congruence.
  - cbn [andThen fst snd] in H.
    destruct (storeWord (snd arrays) _ _) as [lens| | | |] eqn:El; cbn [andThen] in H;
      try discriminate.
    apply storeWord_done in El as [-> Hl]. inversion H; subst arrays'. cbn [fst snd].
    exists (outputIdx e). repeat split; try lia; congruence.
Qed.

Lemma encodeBlocksChecked_snoc input cdf total cs numChunks arrays (bs : list Z) b r :
  foldl (fun acc b =>
           andThen acc (fun a => encodeBlockChecked input cdf total cs numChunks a b))
        (Done arrays) (bs ++ [b]) = Done r ->
  exists a,
    foldl (fun acc b =>
             andThen acc (fun a => encodeBlockChecked input cdf total cs numChunks a b))
          (Done arrays) bs = Done a
    /\ encodeBlockChecked input cdf total cs numChunks a b = Done r.
Proof.
  rewrite foldl_app. cbn [foldl].
  destruct (foldl _ (Done arrays) bs) as [a| | | |]; cbn [andThen]; try discriminate. eauto.
Qed.

Lemma encodeBlocksChecked_lengths input cdf total cs numChunks (k : nat) : forall arrays a,
  Z.of_nat k * (cs / 4 + 64) <= Z.of_nat (length (fst arrays)) < 2 ^ 64 ->
  0 <= cs / 4 + 64 ->
  foldl (fun acc b =>
           andThen acc (fun a => encodeBlockChecked input cdf total cs numChunks a b))
        (Done arrays) (map Z.of_nat (seq 0 k)) = Done a ->
  length (fst a) = length (fst arrays) /\ length (snd a) = length (snd arrays).
Proof.
  induction k as [|k IH]; intros arrays a Hlen Hm H.
  - cbn [seq map foldl] in H. inversion H; subst. split; reflexivity.
  - rewrite seq_S, map_app in H. cbn [map] in H. change (0 + k)%nat with k in H.
    apply encodeBlocksChecked_snoc in H as (a0 & Hpre & Hlast).
    destruct (IH arrays a0) as [Ho Hl]; [nia|exact Hm|exact Hpre|].
    apply encodeBlockChecked_within in Hlast as (idx & _ & _ & Hs & _ & Hf);
      [|rewrite Ho; nia|rewrite Ho; lia].
    split; [congruence|]. rewrite Hs, length_wr. exact Hl.
Qed.

(** X20. The last block can store past the end of [d_output]. On a
    non-empty input of whole chunks, at most 2^24 bytes, whose last chunk
    holds only byte values that occur at most [size / 512] times in the
    input, [arithmeticCompress] stops at a store past the end of a device
    array: the block emits more than the 1088 words that are left of
    [d_output]. *)
Theorem encodeBlocks_stores_past_end (input : list byte) (sched : Schedule)
    (out0 lens0 : list Z) (dst : Dest) (w : Z) :
  0 < Z.of_nat (length input) <= 2 ^ 24 ->
  Z.of_nat (length input) mod CHUNK_SIZE = 0 ->
  fair (Z.of_nat (length input)) (Z.to_nat (freqBlocks (Z.of_nat (length input)))) sched ->
  (forall (k : nat) b, Z.of_nat (length input) - CHUNK_SIZE <= Z.of_nat k ->
                       input !! k = Some b -> occurrences (byteZ b) input <= w) ->
  512 * w <= Z.of_nat (length input) ->
  exists j, arithmeticCompressChecked input sched out0 lens0 dst = StorePastEnd j.
Proof.
  intros Hsize Hmod Hfair Hocc Hfrac. set (size := Z.of_nat (length input)) in *.
  assert (Hlim : size <= inputLimit) by (unfold inputLimit; lia).
  assert (Hchunks : numChunksOf size * CHUNK_SIZE = size).
  { rewrite numChunksOf_value by (unfold INT_MAX; lia). unfold CHUNK_SIZE in *.
    Z.div_mod_to_equations. lia. }
  assert (Hnc : 1 <= numChunksOf size <= 4096) by (unfold CHUNK_SIZE in Hchunks; lia).
  assert (Htot : totalOf input = size) by (apply slices_total; exact Hlim).
  unfold arithmeticCompressChecked. fold size.
  set (cdf := buildCDF _).
  assert (Hwidth : forall b, u32 (symHighOf cdf (totalOf input) (byteZ b) - rd cdf (byteZ b))
                             = occurrences (byteZ b) input).
  { intros b. apply (slices_width input sched Hlim Hfair). apply byteZ_range. }
  assert (Hslice : forall i b, input !! i = Some b ->
            1 <= u32 (symHighOf cdf (totalOf input) (byteZ b) - rd cdf (byteZ b))
            <= totalOf input).
  { intros i b Hb. rewrite Hwidth, Htot.
    pose proof (occurrences_pos input i b Hb). pose proof (occurrences_range (byteZ b) input).
    fold size in H0. lia. }
  assert (Htotal : 0 < totalOf input <= 2 ^ 24) by (rewrite Htot; lia).
  set (d_output := resize _ 0 out0). set (d_outputLengths := resize _ 0 lens0).
  assert (Hlo : Z.of_nat (length d_output) = numChunksOf size * 1088).
  { unfold d_output. rewrite length_resize. unfold CHUNK_SIZE.
    change (4096 / 4 + 64) with 1088. rewrite u64_small by lia.
    rewrite Z.div_mul by lia. lia. }
  assert (Hrun : exists arrays,
             encodeBlocks input cdf (totalOf input) CHUNK_SIZE (numChunksOf size)
               (d_output, d_outputLengths) = Ok arrays).
  { unfold encodeBlocks. apply encodeBlocks_ok;
      [exact Htotal|exact Hslice|apply blockIds_range|fold size; lia|fold size; lia]. }
  destruct Hrun as (arrays & Hrun).
  destruct (encodeBlocksChecked_cases _ _ _ _ _ _ _ _ Hrun) as [Hs|[j Hs]];
    unfold encodeBlocksChecked; rewrite Hs; cbn [andThen]; [exfalso|eauto].
  clear Hrun. set (last := numChunksOf size - 1) in *.
  replace (Z.to_nat (numChunksOf size)) with (S (Z.to_nat last)) in Hs by lia.
  rewrite seq_S, map_app in Hs. cbn [map] in Hs.
  replace (Z.of_nat (0 + Z.to_nat last)) with last in Hs by lia.
  apply encodeBlocksChecked_snoc in Hs as (a & Hpre & Hlast).
  apply encodeBlocksChecked_lengths in Hpre as [Ho Hl]; cbn [fst snd] in *;
    [|unfold CHUNK_SIZE; change (4096 / 4 + 64) with 1088; lia
     |unfold CHUNK_SIZE; change (4096 / 4 + 64) with 1088; lia].
  destruct (encodeBlockChecked_within _ _ _ _ _ _ _ _ Hlast) as (idx & Hi0 & Hi1 & Hlens & Hb & _);
    [rewrite Ho; unfold CHUNK_SIZE; change (4096 / 4 + 64) with 1088; lia|rewrite Ho; lia|].
  unfold CHUNK_SIZE in Hi1. change (4096 / 4 + 64) with 1088 in Hi1. rewrite Ho, Hlo in Hi1.
  apply encodeBlockChecked_done in Hlast.
  destruct (encodeBlock_overruns input cdf (totalOf input) Htotal Hslice
              (numChunksOf size) a last w) as (a' & Hover & Hbig).
  - lia.
  - fold size. lia.
  - fold size. lia.
  - lia.
  - intros k b Hk Hkb. rewrite Hwidth. apply (Hocc k b); [|exact Hkb].
    unfold CHUNK_SIZE in *. lia.
  - pose proof (Hocc (Z.to_nat (size - CHUNK_SIZE))) as H0.
    destruct (lookup_lt_is_Some_2 input (Z.to_nat (size - CHUNK_SIZE))) as [b0 Hb0];
      [unfold CHUNK_SIZE, size in *; lia|].
    specialize (H0 b0 ltac:(unfold CHUNK_SIZE in *; lia) Hb0).
    pose proof (occurrences_pos input _ b0 Hb0). lia.
  - rewrite Htot. exact Hfrac.
  - rewrite Hlast in Hover. inversion Hover; subst a'. rewrite Hlens in Hbig.
    rewrite rd_wr_eq in Hbig by lia. rewrite u32_small in Hbig by lia.
    unfold CHUNK_SIZE in Hbig. change (4096 / 4 + 64) with 1088 in Hbig. lia.
Qed.

Lemma spreadLast_length : Z.of_nat (length spreadLast) = 12288.
Proof. vm_compute. reflexivity. Qed.

Lemma spreadLast_last_chunk (k : nat) b :
  (4096 + 4096 <= k)%nat -> spreadLast !! k = Some b -> occurrences (byteZ b) spreadLast <= 17.
Proof.
  intros Hk Hb.
  assert (Hin : b ∈ nonzeroBytes).
  { unfold spreadLast in Hb.
    rewrite lookup_app_r in Hb by (rewrite length_replicate; lia).
    rewrite lookup_app_r in Hb by (rewrite !length_replicate; lia).
    rewrite !length_replicate in Hb.
    apply list_elem_of_lookup_2 in Hb. apply elem_of_app in Hb as [Hb|Hb].
    - apply list_elem_of_In, in_concat in Hb as (l & Hl & Hbl).
      apply list_elem_of_In, elem_of_replicate_inv in Hl. subst l.
      apply list_elem_of_In. exact Hbl.
    - apply elem_of_take in Hb as (i & Hi & _). eapply list_elem_of_lookup_2; exact Hi. }
  destruct (nonzeroBytes_once b Hin) as (Hz & H1 & H2).
  unfold spreadLast. rewrite !occurrences_app, occurrences_repeated, !occurrences_replicate.
  replace (byteZ "000" =? byteZ b) with false
    by (symmetry; apply Z.eqb_neq; change (byteZ "000") with 0; lia).
  lia.
Qed.

Lemma encodeBlocks_stores_past_end_witness :
  exists j,
    arithmeticCompressChecked spreadLast
      (inOrder (Z.of_nat (length spreadLast))
         (Z.to_nat (freqBlocks (Z.of_nat (length spreadLast)))))
      [] [] (mkDest [] 0 []) = StorePastEnd j.
Proof.
  apply (encodeBlocks_stores_past_end spreadLast
           (inOrder (Z.of_nat (length spreadLast))
              (Z.to_nat (freqBlocks (Z.of_nat (length spreadLast)))))
           [] [] (mkDest [] 0 []) 17).
  - rewrite spreadLast_length. lia.
  - rewrite spreadLast_length. reflexivity.
  - apply inOrder_fair.
  - intros k b Hk. apply spreadLast_last_chunk.
    rewrite spreadLast_length in Hk. unfold CHUNK_SIZE in Hk. lia.
  - rewrite spreadLast_length. lia.
Defined.

(** ** The destination buffer of the three entry points *)






